(** * Animated scene graph and skinning engine of [core.py]

    A shallow embedding of the keyframe interpolation engine
    ([KeyFrames], [TransformKeyFrames]), of the scene-graph traversal
    ([Node], [KeyFrameControlNode], [SkinningControlNode]), of the
    bone-matrix assembly of the skinned drawables and of the per-vertex
    skin-weight construction of [load_textured_phong_mesh_skinned]; and
    of the conversion of animation channels into skinning nodes ([conv],
    [make_nodes]), of the terrain grid of [TexturedPlane] and of
    [FogColour].

    Numbers.  Python and numpy floats are modelled by the rationals [Qc]
    (canonical fractions, so that equality is Leibniz equality): every
    comparison and every arithmetic operation is exact.  Rounding, NaN and
    infinities are outside the model.

    Exceptions.  A Python computation that may raise is a [result]; the
    traversal, which mutates node attributes, lives in the state and
    exception monad [Py]. *)

From Stdlib Require Import QArith Qcanon Qround Lqa.
From stdpp Require Import base list numbers sorting.

Local Open Scope Qc_scope.

(** ** Python exceptions and the [result] monad *)

Inductive exn : Set :=
  | ValueError
  | IndexError
  | ZeroDivisionError
  | TypeError
  | AttributeError
  | LinAlgError.

Inductive result (A : Type) : Type :=
  | OK (a : A)
  | Raise (e : exn).
Arguments OK {A} a.
Arguments Raise {A} e.

#[global] Instance result_ret : MRet result := @OK.
#[global] Instance result_bind : MBind result := fun A B f m =>
  match m with
  | OK a => f a
  | Raise e => Raise e
  end.

(** ** Python sequence primitives *)

(** [l[i]] for a Python list or tuple: a negative index counts from the end,
    an index out of range raises [IndexError]. *)
Definition py_index {A} (l : list A) (i : Z) : result A :=
  let n := Z.of_nat (length l) in
  let j := if (i <? 0)%Z then (i + n)%Z else i in
  if ((0 <=? j)%Z && (j <? n)%Z)%bool then
    match l !! Z.to_nat j with
    | Some x => OK x
    | None => Raise IndexError
    end
  else Raise IndexError.

(** [x / y] on Python floats. *)
Definition py_div (x y : Qc) : result Qc :=
  if decide (y = 0) then Raise ZeroDivisionError else OK (x / y).

(** Python's [sorted]: a stable sort with respect to the [<] of the
    elements, which may raise.  An element is placed before the first
    element of the sorted remainder that is not smaller than it. *)
Fixpoint insert_sorted {A} (lt : A -> A -> result bool) (x : A) (l : list A)
    : result (list A) :=
  match l with
  | [] => OK [x]
  | y :: l' =>
      b ← lt y x;
      if b : bool then r ← insert_sorted lt x l'; OK (y :: r) else OK (x :: l)
  end.

Fixpoint py_sorted {A} (lt : A -> A -> result bool) (l : list A)
    : result (list A) :=
  match l with
  | [] => OK []
  | x :: l' => r ← py_sorted lt l'; insert_sorted lt x r
  end.

(** [bisect.bisect_left(a, x)]:
<<
    lo, hi = 0, len(a)
    while lo < hi:
        mid = (lo + hi) // 2
        if a[mid] < x: lo = mid + 1
        else: hi = mid
    return lo
>>
    The loop runs at most [len(a)] times, which is the fuel given to it. *)
Fixpoint bisect_loop (fuel : nat) (a : list Qc) (x : Qc) (lo hi : nat) : nat :=
  match fuel with
  | O => lo
  | S fuel' =>
      if decide (lo < hi)%nat then
        let mid := ((lo + hi) / 2)%nat in
        match a !! mid with
        | Some am =>
            if decide (am < x) then bisect_loop fuel' a x (mid + 1) hi
            else bisect_loop fuel' a x lo mid
        | None => lo
        end
      else lo
  end.

Definition bisect_left (a : list Qc) (x : Qc) : nat :=
  bisect_loop (length a) a x 0 (length a).

(** ** [class KeyFrames] *)

Record KeyFrames (T : Type) : Type := mkKeyFrames {
  times : list Qc;
  values : list T;
  interpolate : T -> T -> Qc -> T
}.
Arguments mkKeyFrames {T} _ _ _.
Arguments times {T} _.
Arguments values {T} _.
Arguments interpolate {T} _ _ _ _.

(** Python's [<] on the tuples [(time, value)]: the times decide, and the
    values are compared only when the times are equal.  [vlt v1 v2] stands
    for [v1 != v2 and v1 < v2] on values, which raises for some value types
    (numpy arrays of several elements have no truth value). *)
Definition pair_lt {T} (vlt : T -> T -> result bool) (p r : Qc * T)
    : result bool :=
  if decide (p.1 = r.1) then vlt p.2 r.2 else OK (bool_decide (p.1 < r.1)).

(** [KeyFrames.__init__].  [time_value_pairs] is the sequence of pairs the
    constructor iterates over (for a dict, its [items()]).  With no pair at
    all [zip( *keyframes)] yields nothing and unpacking it into
    [self.times, self.values] raises [ValueError]. *)
Definition KeyFrames_init {T} (vlt : T -> T -> result bool)
    (time_value_pairs : list (Qc * T))
    (interpolation_function : T -> T -> Qc -> T) : result (KeyFrames T) :=
  keyframes ← py_sorted (pair_lt vlt) time_value_pairs;
  match keyframes with
  | [] => Raise ValueError
  | _ :: _ => OK (mkKeyFrames keyframes.*1 keyframes.*2 interpolation_function)
  end.

(** [KeyFrames.value]. *)
Definition value {T} (self : KeyFrames T) (time : Qc) : result T :=
  t0 ← py_index (times self) 0;
  if decide (time <= t0) then py_index (values self) 0
  else
    let last := (Z.of_nat (length (times self)) - 1)%Z in
    tN ← py_index (times self) last;
    if decide (tN <= time) then py_index (values self) last
    else
      let index_closest := Z.of_nat (bisect_left (times self) time) in
      t_prev ← py_index (times self) (index_closest - 1);
      t_next ← py_index (times self) index_closest;
      t_prev' ← py_index (times self) (index_closest - 1);
      f ← py_div (time - t_prev) (t_next - t_prev');
      v_next ← py_index (values self) index_closest;
      v_prev ← py_index (values self) (index_closest - 1);
      OK (interpolate self v_next v_prev f).

(** Index of the first element of [a] that is [>= x], resp. [> x]
    ([length a] when there is none). *)
Fixpoint first_ge (a : list Qc) (x : Qc) : nat :=
  match a with
  | [] => O
  | y :: a' => if decide (x <= y) then O else S (first_ge a' x)
  end.

Fixpoint first_gt (a : list Qc) (x : Qc) : nat :=
  match a with
  | [] => O
  | y :: a' => if decide (x < y) then O else S (first_gt a' x)
  end.

(** What [KeyFrames.__init__] establishes: as many values as times, at least
    one keyframe, times in ascending order (equal times may remain). *)
Record constructed {T} (self : KeyFrames T) : Prop := mkConstructed {
  c_length : length (times self) = length (values self);
  c_nonempty : times self <> [];
  c_sorted : StronglySorted Qcle (times self)
}.

(** The Keyframe Set invariant of the data model: moreover the times are
    strictly increasing. *)
Record keyframe_set {T} (self : KeyFrames T) : Prop := mkKeyframeSet {
  ks_length : length (times self) = length (values self);
  ks_nonempty : times self <> [];
  ks_increasing : StronglySorted Qclt (times self)
}.

(** The evaluation the specification words describe for a time strictly
    inside the keyframe range: the neighbours are taken around the index of
    the first keyframe time strictly greater than [time]. *)
Definition value_first_greater {T} (self : KeyFrames T) (time : Qc) : result T :=
  let i := Z.of_nat (first_gt (times self) time) in
  t_prev ← py_index (times self) (i - 1);
  t_next ← py_index (times self) i;
  f ← py_div (time - t_prev) (t_next - t_prev);
  v_next ← py_index (values self) i;
  v_prev ← py_index (values self) (i - 1);
  OK (interpolate self v_next v_prev f).

(** A blend function with the usual numpy-style signature
    [blend(a, b, fraction) = a + fraction * (b - a)]. *)
Definition blend_from_first (a b f : Qc) : Qc := a + f * (b - a).

(** ** 4x4 matrices and the module [transform] *)

Definition vec4 : Type := Qc * Qc * Qc * Qc.

(** A matrix is the tuple of its four rows. *)
Definition mat4 : Type := vec4 * vec4 * vec4 * vec4.

Definition dot4 (u v : vec4) : Qc :=
  let '(u0, u1, u2, u3) := u in
  let '(v0, v1, v2, v3) := v in
  u0 * v0 + u1 * v1 + u2 * v2 + u3 * v3.

Definition transpose (m : mat4) : mat4 :=
  let '((a00, a01, a02, a03), (a10, a11, a12, a13),
        (a20, a21, a22, a23), (a30, a31, a32, a33)) := m in
  ((a00, a10, a20, a30), (a01, a11, a21, a31),
   (a02, a12, a22, a32), (a03, a13, a23, a33)).

Definition row_mul (r : vec4) (bt : mat4) : vec4 :=
  let '(c0, c1, c2, c3) := bt in (dot4 r c0, dot4 r c1, dot4 r c2, dot4 r c3).

(** numpy's [a @ b] on two 4x4 arrays. *)
Definition matmul (a b : mat4) : mat4 :=
  let bt := transpose b in
  let '(r0, r1, r2, r3) := a in
  (row_mul r0 bt, row_mul r1 bt, row_mul r2 bt, row_mul r3 bt).

Infix "@@" := matmul (at level 40, left associativity).

Definition det3 (a b c d e f g h i : Qc) : Qc :=
  a * (e * i - f * h) - b * (d * i - f * g) + c * (d * h - e * g).

Definition det4 (m : mat4) : Qc :=
  let '((a00, a01, a02, a03), (a10, a11, a12, a13),
        (a20, a21, a22, a23), (a30, a31, a32, a33)) := m in
  a00 * det3 a11 a12 a13 a21 a22 a23 a31 a32 a33
  - a01 * det3 a10 a12 a13 a20 a22 a23 a30 a32 a33
  + a02 * det3 a10 a11 a13 a20 a21 a23 a30 a31 a33
  - a03 * det3 a10 a11 a12 a20 a21 a22 a30 a31 a32.

(** Modelled from the spec: [identity()] of the module [transform], which is
    not part of the sources; the 4x4 identity matrix ("identity local
    transform", "default-identity world transform"). *)
Definition identity : mat4 :=
  ((1, 0, 0, 0), (0, 1, 0, 0), (0, 0, 1, 0), (0, 0, 0, 1)).

(** The other functions that core.py imports from [transform] are
    parameters: [array] is the type of the keyframe values (numpy arrays:
    3-vectors and quaternions, or whatever sequences the caller gives),
    [array_lt v1 v2] is [v1 != v2 and v1 < v2] as evaluated by the
    comparison of two [(time, value)] tuples.

    So is what rounding decides in numpy: [lu_detects_singular m] tells
    whether the LU factorisation behind [np.linalg.inv], run in binary64
    on the singular matrix [m], meets a pivot that is exactly zero.  Only
    then does numpy raise; otherwise it returns a matrix of huge
    entries. *)
Class Transform : Type := mkTransform {
  array : Type;
  array_lt : array -> array -> result bool;
  lerp : array -> array -> Qc -> array;
  quaternion_slerp : array -> array -> Qc -> array;
  translate : array -> mat4;
  scale : array -> mat4;
  quaternion_matrix : array -> mat4;
  lu_detects_singular : mat4 -> bool
}.

(** [np.linalg.inv(m)]: a matrix that is not singular is inverted; on a
    singular one [LinAlgError] is raised when the factorisation detects
    it.  The inverse itself only feeds the camera position uniform, which
    is not recorded. *)
Definition np_linalg_inv `{Transform} (m : mat4) : result unit :=
  if decide (det4 m = 0) then
    if lu_detects_singular m then Raise LinAlgError else OK tt
  else OK tt.

(** ** [class TransformKeyFrames] *)

Record TransformKeyFrames `{Transform} : Type := mkTransformKeyFrames {
  translate_keys : KeyFrames array;
  rotate_keys : KeyFrames array;
  scale_keys : KeyFrames array
}.

(** A key argument is [None] or a collection of (time, value) pairs. *)
Definition key_arg `{Transform} : Type := option (list (Qc * array)).

(** [KeyFrames(arg, f)]: iterating over [None] raises [TypeError]. *)
Definition KeyFrames_new `{Transform} (arg : key_arg)
    (interpolation_function : array -> array -> Qc -> array)
    : result (KeyFrames array) :=
  match arg with
  | None => Raise TypeError
  | Some time_value_pairs =>
      KeyFrames_init array_lt time_value_pairs interpolation_function
  end.

(** [TransformKeyFrames.__init__]. *)
Definition TransformKeyFrames_init `{Transform}
    (translate_keys rotate_keys scale_keys : key_arg)
    : result TransformKeyFrames :=
  tk ← KeyFrames_new translate_keys lerp;
  rk ← KeyFrames_new rotate_keys quaternion_slerp;
  sk ← KeyFrames_new scale_keys lerp;
  OK (mkTransformKeyFrames _ tk rk sk).

(** [TransformKeyFrames.value]. *)
Definition TransformKeyFrames_value `{Transform}
    (self : TransformKeyFrames) (time : Qc) : result mat4 :=
  vT ← value (translate_keys self) time;
  let T := translate vT in
  vR ← value (rotate_keys self) time;
  let R := quaternion_matrix vR in
  vS ← value (scale_keys self) time;
  let S := scale vS in
  OK (T @@ R @@ S).

(** [TransformKeyFrames( *keys)]: exactly three positional arguments. *)
Definition TransformKeyFrames_new `{Transform} (keys : list key_arg)
    : result TransformKeyFrames :=
  match keys with
  | [translate_keys; rotate_keys; scale_keys] =>
      TransformKeyFrames_init translate_keys rotate_keys scale_keys
  | _ => Raise TypeError
  end.

(** ** The scene graph *)

Definition node_id : Type := nat.
Definition mesh_id : Type := nat.

(** The attributes of a node object, by class.  The children are kept in
    the tree below: the traversal changes attribute values, never the
    topology. *)
Inductive node_obj `{Transform} : Type :=
  | ONode (transform : mat4)
  | OKeyFrameControlNode (transform : mat4) (keyframes : TransformKeyFrames)
  | OSkinningControlNode (transform : mat4)
      (keyframes : option TransformKeyFrames) (world_transform : mat4).

Definition transform_of `{Transform} (o : node_obj) : mat4 :=
  match o with
  | ONode t | OKeyFrameControlNode t _ | OSkinningControlNode t _ _ => t
  end.

(** The [keyframes] attribute, when it holds a track. *)
Definition keyframes_of `{Transform} (o : node_obj) : option TransformKeyFrames :=
  match o with
  | ONode _ => None
  | OKeyFrameControlNode _ k => Some k
  | OSkinningControlNode _ k _ => k
  end.

(** The world transform published by a node, if it has the attribute. *)
Definition world_transform_of `{Transform} (o : node_obj) : option mat4 :=
  match o with
  | OSkinningControlNode _ _ w => Some w
  | _ => None
  end.

(** [self.transform = t] *)
Definition with_transform `{Transform} (o : node_obj) (t : mat4) : node_obj :=
  match o with
  | ONode _ => ONode t
  | OKeyFrameControlNode _ k => OKeyFrameControlNode t k
  | OSkinningControlNode _ k w => OSkinningControlNode t k w
  end.

(** [self.world_transform = w] *)
Definition with_world_transform `{Transform} (o : node_obj) (w : mat4) : node_obj :=
  match o with
  | OSkinningControlNode t k _ => OSkinningControlNode t k w
  | _ => o
  end.

(** Everything with a [draw] method that the claims are about: a plain
    [Mesh], the two skinned drawables and the nodes.  A node is named by the
    identity of its object; a skinned drawable refers to its bone nodes by
    identity. *)
#[warnings="-register-all"]
Inductive drawable : Type :=
  | Mesh (name : mesh_id)
  | TexturedPhongMeshSkinned (name : mesh_id)
      (bone_nodes : list node_id) (bone_offsets : list mat4)
  | SkinnedMesh (name : mesh_id)
      (bone_nodes : list node_id) (bone_offsets : list mat4)
  | Node (self : node_id) (children : list drawable).

(** [Node.add]: the drawables are appended to the children. *)
Definition add (node : drawable) (drawables : list drawable) : drawable :=
  match node with
  | Node self children => Node self (children ++ drawables)
  | _ => node
  end.

(** What a drawable hands to the rendering backend: the view, projection
    and model matrices, the bone matrices (one call per bone in
    [TexturedPhongMeshSkinned.draw], one call for the whole array in
    [SkinnedMesh.draw]) and the draw call [vertex_array.execute]. *)
Inductive gl_call : Type :=
  | Uniforms (name : mesh_id) (projection view model : mat4)
  | UniformBoneMatrix (name : mesh_id) (bone_id : nat) (bone_matrix : mat4)
  | UniformBoneMatrices (name : mesh_id) (count : nat) (bone_matrix : list mat4)
  | Execute (name : mesh_id).

(** The state of a frame: the node objects, the number of clock readings
    done so far and the calls issued to the backend, in the order of
    issue. *)
Record world `{Transform} : Type := mkWorld {
  objects : node_id -> node_obj;
  clock : nat;
  gl : list gl_call
}.

(** State and exception monad of the traversal: the state reached is kept
    when an exception is raised. *)
Definition Py `{Transform} (A : Type) : Type := world -> result A * world.

#[global] Instance Py_ret `{Transform} : MRet Py := fun A a w => (OK a, w).
#[global] Instance Py_bind `{Transform} : MBind Py := fun A B f m w =>
  match m w with
  | (OK a, w') => f a w'
  | (Raise e, w') => (Raise e, w')
  end.

Definition lift `{Transform} {A} (r : result A) : Py A := fun w => (r, w).

Definition get_object `{Transform} (n : node_id) : Py node_obj :=
  fun w => (OK (objects w n), w).

Definition set_object `{Transform} (n : node_id) (o : node_obj) : Py unit :=
  fun w => (OK tt,
            mkWorld _ (fun m => if decide (m = n) then o else objects w m)
                    (clock w) (gl w)).

Definition emit `{Transform} (c : gl_call) : Py unit :=
  fun w => (OK tt, mkWorld _ (objects w) (clock w) (gl w ++ [c])).

(** [node.world_transform]: only a [SkinningControlNode] has the attribute. *)
Definition get_world_transform `{Transform} (n : node_id) : Py mat4 :=
  o ← get_object n;
  match o with
  | OSkinningControlNode _ _ w => mret w
  | _ => lift (Raise AttributeError)
  end.

(** numpy's [ws @ os] on two stacks of 4x4 matrices: the stacks are
    multiplied pairwise, a stack of one matrix being broadcast. *)
Definition stack_matmul (ws os : list mat4) : result (list mat4) :=
  match ws, os with
  | [], [] => OK []
  | [w], _ :: _ => OK (matmul w <$> os)
  | _ :: _, [o] => OK ((fun w => w @@ o) <$> ws)
  | _, _ =>
      if decide (length ws = length os) then OK (zip_with matmul ws os)
      else Raise ValueError
  end.

Section traversal.
Context `{Transform}.

(** [glfw.get_time()]: the successive readings of the clock. *)
Variable glfw_get_time : nat -> Qc.

Definition get_time : Py Qc :=
  fun w => (OK (glfw_get_time (clock w)),
            mkWorld _ (objects w) (S (clock w)) (gl w)).

(** The loop of [TexturedPhongMeshSkinned.draw] over
    [enumerate(self.bone_nodes)], from [bone_id] on. *)
Fixpoint bone_matrix_loop (name : mesh_id) (bone_offsets : list mat4)
    (bone_id : nat) (bone_nodes : list node_id) : Py unit :=
  match bone_nodes with
  | [] => mret tt
  | node :: rest =>
      w ← get_world_transform node;
      o ← lift (py_index bone_offsets (Z.of_nat bone_id));
      emit (UniformBoneMatrix name bone_id (w @@ o));;
      bone_matrix_loop name bone_offsets (S bone_id) rest
  end.

(** [world_transforms = [node.world_transform for node in self.bone_nodes]] *)
Fixpoint world_transforms (bone_nodes : list node_id) : Py (list mat4) :=
  match bone_nodes with
  | [] => mret []
  | node :: rest =>
      w ← get_world_transform node;
      ws ← world_transforms rest;
      mret (w :: ws)
  end.

(** The part of [SkinningControlNode.draw] and [KeyFrameControlNode.draw]
    that precedes [super().draw]. *)
Definition update_node (self : node_id) (model : mat4) : Py unit :=
  o ← get_object self;
  match o with
  | ONode _ => mret tt
  | OKeyFrameControlNode _ keyframes =>
      time ← get_time;
      t ← lift (TransformKeyFrames_value keyframes time);
      set_object self (with_transform o t)
  | OSkinningControlNode _ keyframes _ =>
      match keyframes with
      | Some k =>
          time ← get_time;
          t ← lift (TransformKeyFrames_value k time);
          set_object self (with_transform o t)
      | None => mret tt
      end;;
      o' ← get_object self;
      set_object self (with_world_transform o' (model @@ transform_of o'))
  end.

(** The [draw] methods.  [Node.draw] reads [self.transform] again for each
    child: [child.draw(projection, view, model @ self.transform)].
    [TexturedPhongMeshSkinned.draw] asks its fog colour after the uniforms
    of the mesh, and [FogColour.get_colour] reads the clock; the colour
    and the fog object of the mesh are not recorded. *)
Fixpoint draw (d : drawable) (projection view model : mat4) : Py unit :=
  match d with
  | Mesh name =>
      emit (Uniforms name projection view model);;
      emit (Execute name)
  | TexturedPhongMeshSkinned name bone_nodes bone_offsets =>
      emit (Uniforms name projection view model);;
      get_time;;
      bone_matrix_loop name bone_offsets O bone_nodes;;
      lift (np_linalg_inv view);;
      emit (Execute name)
  | SkinnedMesh name bone_nodes bone_offsets =>
      ws ← world_transforms bone_nodes;
      bone_matrix ← lift (stack_matmul ws bone_offsets);
      emit (UniformBoneMatrices name (length bone_nodes) bone_matrix);;
      emit (Uniforms name projection view model);;
      emit (Execute name)
  | Node self children =>
      update_node self model;;
      (fix draw_children (cs : list drawable) : Py unit :=
         match cs with
         | [] => mret tt
         | child :: cs' =>
             o ← get_object self;
             draw child projection view (model @@ transform_of o);;
             draw_children cs'
         end) children
  end.

(** The loop of [Node.draw] over [self.children]. *)
Fixpoint draw_children (self : node_id) (cs : list drawable)
    (projection view model : mat4) : Py unit :=
  match cs with
  | [] => mret tt
  | child :: cs' =>
      o ← get_object self;
      draw child projection view (model @@ transform_of o);;
      draw_children self cs' projection view model
  end.

(** Drawing a sequence of drawables with one and the same model matrix. *)
Fixpoint draw_all (ds : list drawable) (projection view model : mat4)
    : Py unit :=
  match ds with
  | [] => mret tt
  | d :: ds' => draw d projection view model;; draw_all ds' projection view model
  end.

End traversal.

(** The truth value of a key argument, as tested by [if keys[0]]: [None]
    and an empty collection are false. *)
Definition py_bool `{Transform} (arg : key_arg) : bool :=
  match arg with
  | None | Some [] => false
  | Some (_ :: _) => true
  end.

(** [SkinningControlNode.__init__( *keys, transform)]:
    [self.keyframes = TransformKeyFrames( *keys) if keys[0] else None] and
    [self.world_transform = identity()]. *)
Definition SkinningControlNode_init `{Transform} (keys : list key_arg)
    (transform : mat4) : result node_obj :=
  k0 ← py_index keys 0;
  keyframes ← (if py_bool k0
               then k ← TransformKeyFrames_new keys; OK (Some k)
               else OK None);
  OK (OSkinningControlNode transform keyframes identity).

(** [KeyFrameControlNode.__init__] *)
Definition KeyFrameControlNode_init `{Transform}
    (translate_keys rotate_keys scale_keys : key_arg) : result node_obj :=
  keyframes ← TransformKeyFrames_init translate_keys rotate_keys scale_keys;
  OK (OKeyFrameControlNode identity keyframes).

(** ** Per-vertex skin weights ([load_textured_phong_mesh_skinned]) *)

Definition MAX_VERTEX_BONES : nat := 4.
Definition MAX_BONES : nat := 128.

(** What the importer gives for a mesh: per bone, the list of
    (vertex, weight) contributions. *)
Record aiVertexWeight : Type := mkVertexWeight {
  mVertexId : nat;
  mWeight : Qc
}.

Record aiBone : Type := mkBone {
  mWeights : list aiVertexWeight
}.

(** An element of [v_bone], of dtype [('weight', 'f4'), ('id', 'u4')]. *)
Definition v_bone_entry : Type := Qc * nat.

(** [np.array([[(0, 0)] * MAX_BONES] * mesh.mNumVertices, dtype=...)] *)
Definition v_bone_init (mNumVertices : nat) : list (list v_bone_entry) :=
  replicate mNumVertices (replicate MAX_BONES (0, O)).

(** [v_bone[vertex][bone_id] = e]; an index out of range raises. *)
Definition set_entry (v_bone : list (list v_bone_entry))
    (vertex bone_id : nat) (e : v_bone_entry)
    : result (list (list v_bone_entry)) :=
  match v_bone !! vertex with
  | None => Raise IndexError
  | Some row =>
      if decide (bone_id < length row)%nat
      then OK (<[vertex := <[bone_id := e]> row]> v_bone)
      else Raise IndexError
  end.

(** [for entry in bone.mWeights:
       v_bone[entry.mVertexId][bone_id] = (entry.mWeight, bone_id)] *)
Fixpoint fill_bone (bone_id : nat) (weights : list aiVertexWeight)
    (v_bone : list (list v_bone_entry)) : result (list (list v_bone_entry)) :=
  match weights with
  | [] => OK v_bone
  | entry :: rest =>
      v ← set_entry v_bone (mVertexId entry) bone_id (mWeight entry, bone_id);
      fill_bone bone_id rest v
  end.

(** [for bone_id, bone in enumerate(bones): ...], from [bone_id] on. *)
Fixpoint fill_bones (bone_id : nat) (bones : list aiBone)
    (v_bone : list (list v_bone_entry)) : result (list (list v_bone_entry)) :=
  match bones with
  | [] => OK v_bone
  | bone :: rest =>
      v ← fill_bone bone_id (mWeights bone) v_bone;
      fill_bones (S bone_id) rest v
  end.

(** The order of [v_bone.sort(order='weight')]: by weight, ties broken by
    the remaining field [id]. *)
Definition entry_lt (a b : v_bone_entry) : bool :=
  bool_decide (a.1 < b.1) || (bool_decide (a.1 = b.1) && (a.2 <? b.2)%nat).

Definition entry_le (a b : v_bone_entry) : Prop :=
  a.1 < b.1 \/ (a.1 = b.1 /\ (a.2 <= b.2)%nat).

(** Sorting one row in ascending order.  The order is total, so the sorted
    row does not depend on the sorting algorithm. *)
Fixpoint np_insert (x : v_bone_entry) (l : list v_bone_entry)
    : list v_bone_entry :=
  match l with
  | [] => [x]
  | y :: l' => if entry_lt y x then y :: np_insert x l' else x :: l
  end.

Definition np_sort (row : list v_bone_entry) : list v_bone_entry :=
  foldr np_insert [] row.

(** [row[-k:]] *)
Definition last_n {A} (k : nat) (row : list A) : list A :=
  drop (length row - k) row.

(** [v_bone[:, -k:]].  An array without rows was built from an empty list
    and has one dimension only: indexing it along a second axis raises
    [IndexError]. *)
Definition last_columns {A} (k : nat) (v_bone : list (list A))
    : result (list (list A)) :=
  match v_bone with
  | [] => Raise IndexError
  | _ :: _ => OK (last_n k <$> v_bone)
  end.

(** The skin weights stored for a mesh: one row of [MAX_VERTEX_BONES]
    entries per vertex.
<<
    for bone_id, bone in enumerate(mesh.mBones[:MAX_BONES]): ...
    v_bone.sort(order='weight')
    v_bone = v_bone[:, -MAX_VERTEX_BONES:]
>> *)
Definition skin_weights (mNumVertices : nat) (mBones : list aiBone)
    : result (list (list v_bone_entry)) :=
  v_bone ← fill_bones O (take MAX_BONES mBones) (v_bone_init mNumVertices);
  last_columns MAX_VERTEX_BONES
    (np_sort <$> (v_bone : list (list v_bone_entry))).

(** [v_bone[v][b]], when both indices are in range. *)
Definition get2 (v_bone : list (list v_bone_entry)) (v b : nat)
    : option v_bone_entry :=
  match v_bone !! v with
  | Some row => row !! b
  | None => None
  end.

(** [v_bone.shape == (n, MAX_BONES)] *)
Definition shape (n : nat) (v_bone : list (list v_bone_entry)) : Prop :=
  length v_bone = n /\ Forall (fun row => length row = MAX_BONES) v_bone.

(** The contribution of bone [b] to vertex [v]: the last weight the bone
    lists for the vertex, or the initial [(0, 0)]. *)
Definition influence (bones : list aiBone) (v b : nat) : v_bone_entry :=
  match bones !! b with
  | Some bone =>
      match last (filter (fun e => mVertexId e = v) (mWeights bone)) with
      | Some e => (mWeight e, b)
      | None => (0, O)
      end
  | None => (0, O)
  end.

(** The row of vertex [v] before sorting. *)
Definition vertex_row (bones : list aiBone) (v : nat) : list v_bone_entry :=
  influence bones v <$> seq 0 MAX_BONES.

(** Whether bone [b] lists vertex [v], and the bones that do. *)
Definition lists_vertex (bones : list aiBone) (v b : nat) : bool :=
  match bones !! b with
  | Some bone =>
      match filter (fun e => mVertexId e = v) (mWeights bone) with
      | [] => false
      | _ :: _ => true
      end
  | None => false
  end.

Definition influencing (bones : list aiBone) (v : nat) : list nat :=
  filter (fun b => lists_vertex bones v b = true) (seq 0 MAX_BONES).

(** ** An exact instance of the module [transform] *)

(** Modelled from the spec: the blend functions of the module [transform],
    which is not part of the sources.  Section 4.1: a blend is called with
    (later value, earlier value, fraction), and linear blend and
    spherical-linear blend "both compute earlier + f*(later-earlier)
    conceptually".  [lerp_scalar] is that blend on numbers, [lerp4] on
    arrays of four numbers (a 3-vector leaves the last one unused). *)
Definition lerp_scalar (later earlier f : Qc) : Qc :=
  earlier + f * (later - earlier).

Definition lerp4 (later earlier : vec4) (f : Qc) : vec4 :=
  let '(l0, l1, l2, l3) := later in
  let '(e0, e1, e2, e3) := earlier in
  (lerp_scalar l0 e0 f, lerp_scalar l1 e1 f,
   lerp_scalar l2 e2 f, lerp_scalar l3 e3 f).

(** Modelled from the spec: the matrix builders of the module [transform],
    which is not part of the sources ("translation_matrix",
    "scale_matrix", "rotation_matrix" of a quaternion [(w, x, y, z)]). *)
Definition translate4 (v : vec4) : mat4 :=
  let '(x, y, z, _) := v in
  ((1, 0, 0, x), (0, 1, 0, y), (0, 0, 1, z), (0, 0, 0, 1)).

Definition scale4 (v : vec4) : mat4 :=
  let '(x, y, z, _) := v in
  ((x, 0, 0, 0), (0, y, 0, 0), (0, 0, z, 0), (0, 0, 0, 1)).

Definition quaternion_matrix4 (qt : vec4) : mat4 :=
  let '(w, x, y, z) := qt in
  ((1 - 2 * (y * y + z * z), 2 * (x * y - z * w), 2 * (x * z + y * w), 0),
   (2 * (x * y + z * w), 1 - 2 * (x * x + z * z), 2 * (y * z - x * w), 0),
   (2 * (x * z - y * w), 2 * (y * z + x * w), 1 - 2 * (x * x + y * y), 0),
   (0, 0, 0, 1)).

(** Keyframe values given as numpy arrays, each an object of its own:
    comparing two arrays of several elements inside a tuple comparison
    raises [ValueError] (no truth value).  Every singular matrix is
    detected, as in exact arithmetic. *)
Definition exact_transform : Transform :=
  mkTransform vec4 (fun _ _ => Raise ValueError)
    lerp4 lerp4 translate4 scale4 quaternion_matrix4 (fun _ => true).



(** [<] on Python floats, as consulted by a tuple comparison. *)
Definition float_lt (x y : Qc) : result bool := OK (bool_decide (x < y)).

(** The fraction [n / d]. *)
Definition q (n d : Z) : Qc := Q2Qc (Qmake n (Z.to_pos d)).

(** Three keyframes at times 0, 1, 2 with values 10, 20, 30. *)
Definition kf_demo : KeyFrames Qc :=
  mkKeyFrames [q 0 1; q 1 1; q 2 1] [q 10 1; q 20 1; q 30 1] blend_from_first.

(** One vertex and six bones that weigh on it by 0.5, 0.3, 0.1, 0.05, 0.03
    and 0.02. *)
Definition six_bones : list aiBone :=
  (fun w => mkBone [mkVertexWeight O w]) <$>
  [q 1 2; q 3 10; q 1 10; q 1 20; q 3 100; q 1 50].


Definition v4 (a b c d : Z) : vec4 := (q a 1, q b 1, q c 1, q d 1).

(** Key sets of a small transform track: a translation given out of time
    order, one rotation key, one scale key. *)
Definition translate_demo : @key_arg exact_transform :=
  Some [(q 2 1, v4 4 0 0 0); (q 0 1, v4 0 0 0 0)].
Definition rotate_demo : @key_arg exact_transform :=
  Some [(q 0 1, v4 1 0 0 0)].
Definition scale_demo : @key_arg exact_transform :=
  Some [(q 0 1, v4 1 1 1 0)].

(** A scene of plain nodes: node [n] has the local transform that scales
    by [n + 2]; no clock reading yet, nothing drawn yet. *)
Definition static_world : @world exact_transform :=
  mkWorld _ (fun n => ONode (scale4 (v4 (Z.of_nat n + 2) (Z.of_nat n + 2)
                                        (Z.of_nat n + 2) 0)))
          O [].

(** A scene of skinning nodes without tracks: node [n] has the identity as
    local transform and has published the world transform that scales by
    [n + 2]. *)
Definition skinned_world : @world exact_transform :=
  mkWorld _ (fun n => OSkinningControlNode identity None
                        (scale4 (v4 (Z.of_nat n + 2) (Z.of_nat n + 2)
                                    (Z.of_nat n + 2) 0)))
          O [].

(** The world transforms read from the bone nodes (the identity stands for
    a missing attribute, which the traversal reports as an error). *)
Definition bone_world_transforms `{Transform} (w : world)
    (bone_nodes : list node_id) : list mat4 :=
  (fun n => default identity (world_transform_of (objects w n))) <$> bone_nodes.

(** The calls of [TexturedPhongMeshSkinned.draw] that upload the bone
    matrices [ms], the first of them for bone [bone_id]. *)
Definition bone_uploads (name : mesh_id) (bone_id : nat) (ms : list mat4)
    : list gl_call :=
  imap (fun i m => UniformBoneMatrix name (bone_id + i) m) ms.

(** The successive clock readings 0, 1/60, 2/60, ... *)
Definition frame_clock (k : nat) : Qc := q (Z.of_nat k) 60.

(** What the traversal never does to a node [n]: it never changes the
    [keyframes] attribute, and it never changes the local transform of a
    node that holds no track. *)
Definition stable `{Transform} (n : node_id) (w w' : world) : Prop :=
  keyframes_of (objects w' n) = keyframes_of (objects w n) /\
  (keyframes_of (objects w n) = None ->
   transform_of (objects w' n) = transform_of (objects w n)).

Definition preserves `{Transform} {A} (n : node_id) (m : Py A) : Prop :=
  forall w, stable n w (m w).2.

(** Induction on drawables, with the property assumed for all children. *)
Section drawable_induction.
Variable P : drawable -> Prop.
Hypothesis HMesh : forall name, P (Mesh name).
Hypothesis HTextured : forall name bone_nodes bone_offsets,
  P (TexturedPhongMeshSkinned name bone_nodes bone_offsets).
Hypothesis HSkinned : forall name bone_nodes bone_offsets,
  P (SkinnedMesh name bone_nodes bone_offsets).
Hypothesis HNode : forall self children,
  Forall P children -> P (Node self children).

Fixpoint drawable_induction (d : drawable) : P d :=
  match d with
  | Mesh name => HMesh name
  | TexturedPhongMeshSkinned name bone_nodes bone_offsets =>
      HTextured name bone_nodes bone_offsets
  | SkinnedMesh name bone_nodes bone_offsets =>
      HSkinned name bone_nodes bone_offsets
  | Node self children =>
      HNode self children
        ((fix all (cs : list drawable) : Forall P cs :=
            match cs with
            | [] => Forall_nil_2 P
            | c :: cs' => Forall_cons_2 P c cs' (drawable_induction c) (all cs')
            end) children)
  end.
End drawable_induction.

(** ** Further examples *)

(** Three keyframes given out of time order. *)
Definition unordered_pairs : list (Qc * Qc) :=
  [(q 2 1, q 30 1); (q 0 1, q 10 1); (q 1 1, q 20 1)].

(** ** Scene graphs: occurrences, classes, static scenes *)

(** The node objects that occur in a drawable. *)
Fixpoint node_ids (d : drawable) : list node_id :=
  match d with
  | Node self children =>
      self :: (fix all (cs : list drawable) : list node_id :=
                 match cs with
                 | [] => []
                 | c :: cs' => node_ids c ++ all cs'
                 end) children
  | _ => []
  end.

Fixpoint node_ids_all (cs : list drawable) : list node_id :=
  match cs with
  | [] => []
  | c :: cs' => node_ids c ++ node_ids_all cs'
  end.

(** The class of a node object. *)
Inductive node_class : Set :=
  | NodeClass
  | KeyFrameControlNodeClass
  | SkinningControlNodeClass.

Definition class_of `{Transform} (o : node_obj) : node_class :=
  match o with
  | ONode _ => NodeClass
  | OKeyFrameControlNode _ _ => KeyFrameControlNodeClass
  | OSkinningControlNode _ _ _ => SkinningControlNodeClass
  end.

(** Drawables made of nodes and plain meshes only, and their meshes. *)
Fixpoint plain (d : drawable) : bool :=
  match d with
  | Mesh _ => true
  | Node _ children =>
      (fix all (cs : list drawable) : bool :=
         match cs with
         | [] => true
         | c :: cs' => plain c && all cs'
         end) children
  | _ => false
  end.

Fixpoint plain_all (cs : list drawable) : bool :=
  match cs with
  | [] => true
  | c :: cs' => plain c && plain_all cs'
  end.

Fixpoint mesh_count (d : drawable) : nat :=
  match d with
  | Node _ children =>
      (fix all (cs : list drawable) : nat :=
         match cs with
         | [] => O
         | c :: cs' => (mesh_count c + all cs')%nat
         end) children
  | _ => 1%nat
  end.

Fixpoint mesh_count_all (cs : list drawable) : nat :=
  match cs with
  | [] => O
  | c :: cs' => (mesh_count c + mesh_count_all cs')%nat
  end.

(** The backend calls of a scene of plain nodes and meshes, in pre-order:
    every mesh with the product of the local transforms above it. *)
Fixpoint static_calls `{Transform} (o : node_id -> node_obj) (d : drawable)
    (projection view model : mat4) : list gl_call :=
  match d with
  | Mesh name => [Uniforms name projection view model; Execute name]
  | Node self children =>
      (fix all (cs : list drawable) : list gl_call :=
         match cs with
         | [] => []
         | c :: cs' =>
             static_calls o c projection view (model @@ transform_of (o self))
             ++ all cs'
         end) children
  | _ => []
  end.

Fixpoint static_calls_all `{Transform} (o : node_id -> node_obj)
    (cs : list drawable) (projection view model : mat4) : list gl_call :=
  match cs with
  | [] => []
  | c :: cs' =>
      static_calls o c projection view model
      ++ static_calls_all o cs' projection view model
  end.

(** A chain of nodes, each the only child of the previous one, above a
    leaf. *)
Definition chain (ids : list node_id) (leaf : drawable) : drawable :=
  foldr (fun n d => Node n [d]) leaf ids.

(** A monadic computation that takes every world to a related one. *)
Definition respects `{Transform} {A} (R : relation world) (m : Py A) : Prop :=
  forall w, R w (m w).2.

(** No node changes class or keyframe track. *)
Definition same_classes `{Transform} (w w' : world) : Prop :=
  forall n, class_of (objects w' n) = class_of (objects w n) /\
            keyframes_of (objects w' n) = keyframes_of (objects w n).

(** Node [n] is left as it is. *)
Definition untouched `{Transform} (n : node_id) (w w' : world) : Prop :=
  objects w' n = objects w n.

(** The transform track built from the three demonstration key sets. *)
Definition track_demo : @TransformKeyFrames exact_transform :=
  @mkTransformKeyFrames exact_transform
    (mkKeyFrames [q 0 1; q 2 1] [v4 0 0 0 0; v4 4 0 0 0] lerp4)
    (mkKeyFrames [q 0 1] [v4 1 0 0 0] lerp4)
    (mkKeyFrames [q 0 1] [v4 1 1 1 0] lerp4).

(** A scene with animated nodes: node 0 is a [KeyFrameControlNode] and
    node 1 a [SkinningControlNode], both on the demonstration track; the
    other nodes are plain nodes with the identity as local transform. *)
Definition animated_world : @world exact_transform :=
  mkWorld _ (fun n => match n with
                      | O => OKeyFrameControlNode identity track_demo
                      | 1%nat => OSkinningControlNode identity (Some track_demo)
                                   identity
                      | _ => ONode identity
                      end)
          O [].

(** A scene with one bone: node 0 is a plain node that scales by 2, node 1
    a skinning node without track that translates by (1, 0, 0) and has
    published the world transform that scales by 5. *)
Definition bone_world : @world exact_transform :=
  mkWorld _ (fun n => match n with
                      | O => ONode (scale4 (v4 2 2 2 0))
                      | _ => OSkinningControlNode (translate4 (v4 1 0 0 0)) None
                               (scale4 (v4 5 5 5 0))
                      end)
          O [].

(** One vertex; the only bone lists vertex 3, which the mesh does not
    have. *)
Definition stray_bone : list aiBone :=
  [mkBone [mkVertexWeight 3 (q 1 2)]].

(** ** Animation channels of the importer ([conv], [make_nodes]) *)

(** A key of the importer: a time in ticks and a value. *)
Record aiKey `{Transform} : Type := mkKey {
  mTime : Qc;
  mValue : array
}.

(** [d[k] = v] on a Python dict, kept as the list of its items in insertion
    order: an existing key keeps its place and gets the new value. *)
Fixpoint dict_set {V} (d : list (Qc * V)) (k : Qc) (v : V) : list (Qc * V) :=
  match d with
  | [] => [(k, v)]
  | (k', v') :: d' =>
      if decide (k' = k) then (k', v) :: d' else (k', v') :: dict_set d' k v
  end.

(** [{key.mTime / ticks_per_second: key.mValue for key in assimp_keys}],
    from the dict [d] on; the result is the [items()] of the dict. *)
Fixpoint conv_loop `{Transform} (assimp_keys : list aiKey)
    (ticks_per_second : Qc) (d : list (Qc * array))
    : result (list (Qc * array)) :=
  match assimp_keys with
  | [] => OK d
  | key :: rest =>
      t ← py_div (mTime key) ticks_per_second;
      conv_loop rest ticks_per_second (dict_set d t (mValue key))
  end.

Definition conv `{Transform} (assimp_keys : list aiKey)
    (ticks_per_second : Qc) : result (list (Qc * array)) :=
  conv_loop assimp_keys ticks_per_second [].

(** A channel of an animation. *)
Record aiNodeAnim `{Transform} : Type := mkNodeAnim {
  mPositionKeys : list aiKey;
  mRotationKeys : list aiKey;
  mScalingKeys : list aiKey
}.

(** The entry of [transform_keyframes] for a channel: the three converted
    key sets. *)
Definition channel_keys `{Transform} (channel : aiNodeAnim)
    (mTicksPerSecond : Qc) : result (list key_arg) :=
  p ← conv (mPositionKeys channel) mTicksPerSecond;
  r ← conv (mRotationKeys channel) mTicksPerSecond;
  s ← conv (mScalingKeys channel) mTicksPerSecond;
  OK [Some p; Some r; Some s].

(** The node that [make_nodes] creates for an importer node:
<<
    trs_keyframes = transform_keyframes.get(assimp_node.mName, (None,))
    skin_node = SkinningControlNode( *trs_keyframes,
                                    transform=assimp_node.mTransformation)
>>
    [entry] is what the dict holds for the name of the node, if
    anything. *)
Definition make_skin_node `{Transform} (entry : option (list key_arg))
    (mTransformation : mat4) : result node_obj :=
  SkinningControlNode_init (default [None] entry) mTransformation.

(** A channel in ticks: positions at ticks 0, 30 and again 30, one rotation
    and one scale key. *)
Definition channel_demo : @aiNodeAnim exact_transform :=
  @mkNodeAnim exact_transform
    [@mkKey exact_transform (q 0 1) (v4 0 0 0 0);
     @mkKey exact_transform (q 30 1) (v4 4 0 0 0);
     @mkKey exact_transform (q 30 1) (v4 8 0 0 0)]
    [@mkKey exact_transform (q 0 1) (v4 1 0 0 0)]
    [@mkKey exact_transform (q 0 1) (v4 1 1 1 0)].

(** The same channel without rotation keys. *)
Definition channel_without_rotation : @aiNodeAnim exact_transform :=
  @mkNodeAnim exact_transform
    (mPositionKeys channel_demo) [] (mScalingKeys channel_demo).

(** ** The terrain grid of [TexturedPlane] *)

(** [self.MAX_HEIGHT] and [self.MAX_PIXEL_COLOR] *)
Definition MAX_HEIGHT : Qc := q 30 1.
Definition MAX_PIXEL_COLOR : Qc := q 256 1.

(** The height map: an array of rows of pixels, a pixel being the list of
    its channels. *)
Definition heightmap_image : Type := list (list (list Z)).

(** [TexturedPlane.get_height]: the red channel of the pixel, brought to
    the range of heights; 0 outside of the image, whose width is taken to
    be [image.shape[0]]. *)
Definition get_height (x z : Z) (image : heightmap_image) : result Qc :=
  let shape0 := Z.of_nat (length image) in
  if decide (x < 0 \/ x >= shape0 \/ z < 0 \/ z >= shape0)%Z then OK 0
  else
    row ← py_index image x;
    pixel ← py_index row z;
    height ← py_index pixel 0;
    height ← py_div (q height 1) MAX_PIXEL_COLOR;
    OK (height * MAX_HEIGHT).

(** [for i in range(0, n): for j in range(0, m)] *)
Definition grid (n m : nat) : list (nat * nat) :=
  i ← seq 0 n; (fun j => (i, j)) <$> seq 0 m.

Fixpoint mapM {A B} (f : A -> result B) (l : list A) : result (list B) :=
  match l with
  | [] => OK []
  | x :: l' => y ← f x; ys ← mapM f l'; OK (y :: ys)
  end.

(** The body of the first loop of [create_attributes]: the vertex, the
    normal and the texture coordinates of grid point [(i, j)]. *)
Definition grid_point (size : nat) (hmap_tex : heightmap_image)
    (ij : nat * nat) : result (list Qc * list Qc * list Qc) :=
  let i := q (Z.of_nat ij.1) 1 in
  let j := q (Z.of_nat ij.2) 1 in
  let size_1 := q (Z.of_nat size - 1) 1 in
  x ← py_div j size_1;
  y ← get_height (Z.of_nat ij.1) (Z.of_nat ij.2) hmap_tex;
  z ← py_div i size_1;
  u ← py_div j size_1;
  v ← py_div i size_1;
  OK ([x * q 1000 1; y; z * q 1000 1], [0; 1; 0], [u; v]).

(** The body of the second loop: the two triangles of cell [(gz, gx)]. *)
Definition cell_indices (size : nat) (cell : nat * nat) : list nat :=
  let top_left := (cell.1 * size + cell.2)%nat in
  let top_right := (top_left + 1)%nat in
  let bottom_left := ((cell.1 + 1) * size + cell.2)%nat in
  let bottom_right := (bottom_left + 1)%nat in
  [top_left; bottom_left; top_right; top_right; bottom_left; bottom_right].

(** [TexturedPlane.create_attributes]: vertices, texture coordinates,
    normals and indices. *)
Definition create_attributes (size : nat) (hmap_tex : heightmap_image)
    : result (list (list Qc) * list (list Qc) * list (list Qc)
              * list (list nat)) :=
  points ← mapM (grid_point size hmap_tex) (grid size size);
  let points : list (list Qc * list Qc * list Qc) := points in
  let vertices := (fun p : list Qc * list Qc * list Qc => p.1.1) <$> points in
  let normals := (fun p : list Qc * list Qc * list Qc => p.1.2) <$> points in
  let texture_coords := (fun p : list Qc * list Qc * list Qc => p.2) <$> points in
  let indices := cell_indices size <$> grid (size - 1) (size - 1) in
  OK (vertices, texture_coords, normals, indices).

(** An image of [size] rows of at least [size] pixels, each with a red
    channel between 0 and 255. *)
Definition heightmap (size : nat) (image : heightmap_image) : Prop :=
  length image = size /\
  Forall (fun row =>
            (size <= length row)%nat /\
            Forall (fun pixel =>
                      exists red rest, pixel = red :: rest /\
                                       (0 <= red <= 255)%Z) row) image.

(** The red channel of pixel [(i, j)]. *)
Definition red_channel (image : heightmap_image) (i j : nat) : Z :=
  default 0%Z (image !! i ≫= fun row => row !! j ≫= fun pixel => pixel !! O).

(** A height map of two by two pixels. *)
Definition hmap_demo : heightmap_image :=
  [[[0; 0; 0]; [128; 128; 128]]; [[255; 255; 255]; [64; 64; 64]]]%Z.

(** ** [class FogColour] *)

(** [x % m] on Python floats, for [m <> 0]: the remainder of the floor
    division. *)
Definition py_mod (x m : Qc) : Qc :=
  x - m * Q2Qc (inject_Z (Qfloor (x / m))).

(** [l[i] = x] on a Python list, for an index that is not negative. *)
Definition py_setitem {A} (l : list A) (i : nat) (x : A) : result (list A) :=
  if decide (i < length l)%nat then OK (<[i := x]> l) else Raise IndexError.

(** [l[i] += d] and [l[i] -= d] *)
Definition py_iadd (l : list Qc) (i : nat) (d : Qc) : result (list Qc) :=
  x ← py_index l (Z.of_nat i);
  py_setitem l i (x + d).

Definition py_isub (l : list Qc) (i : nat) (d : Qc) : result (list Qc) :=
  x ← py_index l (Z.of_nat i);
  py_setitem l i (x - d).

Module FogColour.

Record t : Type := mk {
  colour : list Qc;
  time : Qc;
  factor : Qc;
  day_color : list Qc;
  night_colour : list Qc
}.

(** [FogColour.__init__] *)
Definition init : t :=
  mk [0; 0; 0] 0 (1 / q 6000 1 * q 14 1)
     [q 6 10; q 7 10; q 7 10] [q 2 10; q 3 10; q 3 10].

Definition set_colour (self : t) (c : list Qc) : t :=
  mk c (time self) (factor self) (day_color self) (night_colour self).

Definition set_time (self : t) (x : Qc) : t :=
  mk (colour self) x (factor self) (day_color self) (night_colour self).

(** [self.colour[0] += self.factor] and the same for the components 1
    and 2; the list is changed in place. *)
Definition brighten (self : t) : result t :=
  c ← py_iadd (colour self) 0 (factor self);
  c ← py_iadd c 1 (factor self);
  c ← py_iadd c 2 (factor self);
  OK (set_colour self c).

(** [self.colour[0] -= self.factor] and the same for the components 1
    and 2. *)
Definition darken (self : t) : result t :=
  c ← py_isub (colour self) 0 (factor self);
  c ← py_isub c 1 (factor self);
  c ← py_isub c 2 (factor self);
  OK (set_colour self c).

(** [FogColour.get_colour], for the reading [now] of [glfw.get_time()]:
    the colour returned and the object after the call. *)
Definition get_colour (now : Qc) (self : t) : result (list Qc * t) :=
  let self := set_time self (now * q 1000 1) in
  let self := set_time self (py_mod (time self) (q 24000 1)) in
  self ←
    (if decide (0 <= time self /\ time self < q 6000 1) then
       OK (set_colour self [q 2 10; q 3 10; q 3 10])
     else if decide (q 6000 1 <= time self /\ time self < q 12000 1) then
       c0 ← py_index (colour self) 0;
       d0 ← py_index (day_color self) 0;
       if decide (c0 < d0) then brighten self else OK self
     else if decide (q 12000 1 <= time self /\ time self < q 18000 1) then
       OK (set_colour self [q 6 10; q 7 10; q 7 10])
     else
       c0 ← py_index (colour self) 0;
       n0 ← py_index (night_colour self) 0;
       if decide (n0 < c0) then darken self else OK self);
  OK (colour self, self).

(** Successive calls of [get_colour] at the given clock readings. *)
Fixpoint calls (nows : list Qc) (self : t) : result (list (list Qc) * t) :=
  match nows with
  | [] => OK ([], self)
  | now :: rest =>
      r ← get_colour now self;
      rs ← calls rest r.2;
      OK (r.1 :: rs.1, rs.2)
  end.

(** What every call keeps: the three constants, and a colour of three
    components, the first between 0 and the day colour plus one step, the
    other two equal. *)
Definition invariant (self : t) : Prop :=
  factor self = 1 / q 6000 1 * q 14 1 /\
  day_color self = [q 6 10; q 7 10; q 7 10] /\
  night_colour self = [q 2 10; q 3 10; q 3 10] /\
  exists c0 c1,
    colour self = [c0; c1; c1] /\
    0 <= c0 /\ c0 < q 6 10 + factor self.

End FogColour.




(* ================================================================== *)
(** * Properties *)

(** ** The [result] monad and indexing *)

Lemma py_index_lookup {A} (l : list A) (i : nat) (x : A) :
  l !! i = Some x -> py_index l (Z.of_nat i) = OK x.
Proof.
  intros H. pose proof (lookup_lt_Some _ _ _ H) as Hlt.
  unfold py_index.
  replace (Z.of_nat i <? 0)%Z with false by (symmetry; apply Z.ltb_ge; lia).
  replace (0 <=? Z.of_nat i)%Z with true by (symmetry; apply Z.leb_le; lia).
  replace (Z.of_nat i <? Z.of_nat (length l))%Z with true
    by (symmetry; apply Z.ltb_lt; lia).
  simpl. rewrite Nat2Z.id, H. reflexivity.
Qed.

Lemma py_index_0 {A} (l : list A) (x : A) :
  l !! O = Some x -> py_index l 0 = OK x.
Proof. apply (py_index_lookup l O). Qed.

Lemma py_index_pred {A} (l : list A) (i : nat) (x : A) :
  l !! i = Some x -> py_index l (Z.of_nat (S i) - 1) = OK x.
Proof.
  intros H. replace (Z.of_nat (S i) - 1)%Z with (Z.of_nat i) by lia.
  by apply py_index_lookup.
Qed.

Lemma py_index_last {A} (l : list A) (x : A) :
  last l = Some x -> py_index l (Z.of_nat (length l) - 1) = OK x.
Proof.
  rewrite last_lookup. intros H.
  destruct l as [|y l]; [done|].
  replace (Z.of_nat (length (y :: l)) - 1)%Z
    with (Z.of_nat (Nat.pred (length (y :: l)))) by (simpl; lia).
  by apply py_index_lookup.
Qed.

(** ** Sorting *)

Section sorting.
Context {A : Type} (lt : A -> A -> result bool) (R : relation A).
Hypothesis lt_R : forall x y, lt y x = OK true -> R y x.
Hypothesis nlt_R : forall x y, lt y x = OK false -> R x y.
Hypothesis R_trans : Transitive R.

Lemma insert_sorted_perm x l r : insert_sorted lt x l = OK r -> r ≡ₚ x :: l.
Proof.
  revert r. induction l as [|y l IH]; intros r; simpl.
  - by intros [= <-].
  - destruct (lt y x) as [[|]|e]; simpl; [|by intros [= <-]|done].
    destruct (insert_sorted lt x l) as [r'|e]; simpl; [|done].
    intros [= <-]. rewrite (IH r') by done. apply Permutation_swap.
Qed.

Lemma py_sorted_perm l r : py_sorted lt l = OK r -> r ≡ₚ l.
Proof.
  revert r. induction l as [|x l IH]; intros r; simpl.
  - by intros [= <-].
  - destruct (py_sorted lt l) as [r'|e]; simpl; [|done].
    intros H%insert_sorted_perm. by rewrite H, (IH r').
Qed.

Lemma insert_sorted_sorted x l r :
  StronglySorted R l -> insert_sorted lt x l = OK r -> StronglySorted R r.
Proof.
  intros Hs. revert r. induction Hs as [|y l Hs IH Hall]; intros r; simpl.
  - intros [= <-]. repeat constructor.
  - destruct (lt y x) as [[|]|e] eqn:E; simpl; [| |done].
    + destruct (insert_sorted lt x l) as [r'|e] eqn:E'; simpl; [|done].
      intros [= <-]. constructor; [by apply IH|].
      rewrite (insert_sorted_perm _ _ _ E'). constructor; [by apply lt_R|done].
    + intros [= <-]. apply nlt_R in E.
      constructor; [by constructor|].
      constructor; [done|].
      eapply Forall_impl; [exact Hall|]. intros z Hz. by trans y.
Qed.

Lemma py_sorted_sorted l r : py_sorted lt l = OK r -> StronglySorted R r.
Proof.
  revert r. induction l as [|x l IH]; intros r; simpl.
  - intros [= <-]. constructor.
  - destruct (py_sorted lt l) as [r'|e]; simpl; [|done].
    apply insert_sorted_sorted. by apply IH.
Qed.

(** The sort succeeds when no comparison it may perform raises. *)
Lemma insert_sorted_total x l :
  (forall y, y ∈ l -> exists b, lt y x = OK b) ->
  exists r, insert_sorted lt x l = OK r.
Proof.
  induction l as [|y l IH]; intros Hl; simpl; [eauto|].
  destruct (Hl y) as [b ->]; [by left|]. simpl.
  destruct b; [|eauto].
  destruct IH as [r ->]; [|simpl; eauto].
  intros z Hz. apply Hl. by right.
Qed.

Lemma py_sorted_total l :
  (forall i j x y, (i < j)%nat -> l !! i = Some x -> l !! j = Some y ->
     exists b, lt y x = OK b) ->
  exists r, py_sorted lt l = OK r.
Proof.
  induction l as [|x l IH]; intros Hl; simpl; [eauto|].
  destruct IH as [r Hr].
  { intros i j y z Hij Hy Hz. apply (Hl (S i) (S j)); [lia|done..]. }
  rewrite Hr. simpl. apply insert_sorted_total.
  intros y Hy. rewrite (py_sorted_perm _ _ Hr) in Hy.
  apply list_elem_of_lookup in Hy as [j Hj].
  apply (Hl O (S j)); [lia|done..].
Qed.
End sorting.

Lemma py_sorted_length {A} (lt : A -> A -> result bool) l r :
  py_sorted lt l = OK r -> length r = length l.
Proof. intros H. by apply Permutation_length, (py_sorted_perm lt). Qed.

(** ** Sorted lists of times *)

Lemma sorted_le_lookup (a : list Qc) i j x y :
  StronglySorted Qcle a -> (i <= j)%nat ->
  a !! i = Some x -> a !! j = Some y -> x <= y.
Proof.
  intros Hs. revert i j. induction Hs as [|z a Hs IH Hall]; intros i j Hij Hi Hj.
  - done.
  - destruct i as [|i], j as [|j]; simpl in *; simplify_eq.
    + apply Qcle_refl.
    + rewrite Forall_forall in Hall. apply Hall.
      by eapply list_elem_of_lookup_2.
    + lia.
    + eapply IH; [|done..]. lia.
Qed.

Lemma sorted_lt_le (a : list Qc) :
  StronglySorted Qclt a -> StronglySorted Qcle a.
Proof.
  induction 1 as [|z a Hs IH Hall]; constructor; [done|].
  eapply Forall_impl; [exact Hall|]. intros ?. apply Qclt_le_weak.
Qed.

Lemma sorted_lt_lookup (a : list Qc) i j x y :
  StronglySorted Qclt a -> (i < j)%nat ->
  a !! i = Some x -> a !! j = Some y -> x < y.
Proof.
  intros Hs. revert i j. induction Hs as [|z a Hs IH Hall]; intros i j Hij Hi Hj.
  - done.
  - destruct i as [|i], j as [|j]; simpl in *; simplify_eq; try lia.
    + rewrite Forall_forall in Hall. apply Hall.
      by eapply list_elem_of_lookup_2.
    + eapply IH; [|done..]. lia.
Qed.

(** ** Binary search *)

Lemma bisect_loop_spec (a : list Qc) (x : Qc) :
  StronglySorted Qcle a ->
  forall fuel lo hi,
    (hi - lo <= fuel)%nat -> (lo <= hi)%nat -> (hi <= length a)%nat ->
    (forall j y, (j < lo)%nat -> a !! j = Some y -> y < x) ->
    (forall j y, (hi <= j)%nat -> a !! j = Some y -> x <= y) ->
    let r := bisect_loop fuel a x lo hi in
    (r <= length a)%nat /\
    (forall j y, (j < r)%nat -> a !! j = Some y -> y < x) /\
    (forall j y, (r <= j)%nat -> a !! j = Some y -> x <= y).
Proof.
  intros Hs. induction fuel as [|fuel IH]; intros lo hi Hfuel Hlh Hhi Hlo Hge.
  - cbn [bisect_loop]. assert (lo = hi) as -> by lia. auto.
  - cbn [bisect_loop]. destruct (decide (lo < hi)%nat) as [Hlt|Hnlt].
    + assert (lo <= (lo + hi) / 2 /\ (lo + hi) / 2 < hi)%nat as [Hm1 Hm2].
      { split.
        - apply Nat.div_le_lower_bound; lia.
        - apply Nat.Div0.div_lt_upper_bound; lia. }
      destruct (lookup_lt_is_Some_2 a ((lo + hi) / 2)) as [am Ham]; [lia|].
      rewrite Ham. destruct (decide (am < x)) as [Hc|Hc].
      * apply IH; [lia..| |done].
        intros j y Hj Hy. eapply Qcle_lt_trans; [|exact Hc].
        eapply (sorted_le_lookup a j ((lo + hi) / 2)); [done|lia|done..].
      * apply IH; [lia..|done|].
        intros j y Hj Hy. apply Qcnot_lt_le in Hc.
        eapply Qcle_trans; [exact Hc|].
        by eapply (sorted_le_lookup a ((lo + hi) / 2) j).
    + assert (lo = hi) as -> by lia. auto.
Qed.

Lemma first_ge_le_length a x : (first_ge a x <= length a)%nat.
Proof. induction a; simpl; [lia|]. case_decide; lia. Qed.

Lemma first_ge_before a x j y :
  (j < first_ge a x)%nat -> a !! j = Some y -> y < x.
Proof.
  revert j. induction a as [|z a IH]; intros j; simpl; [lia|].
  case_decide as Hc; [lia|]. intros Hj Hy.
  destruct j as [|j]; simpl in *.
  - simplify_eq. by apply Qcnot_le_lt.
  - apply (IH j); [lia|done].
Qed.

Lemma first_ge_at a x :
  (first_ge a x < length a)%nat ->
  exists y, a !! first_ge a x = Some y /\ x <= y.
Proof.
  induction a as [|z a IH]; simpl; [lia|].
  case_decide as Hc; [eauto|]. intros H. apply IH. lia.
Qed.

Lemma first_ge_unique a x r :
  (r <= length a)%nat ->
  (forall j y, (j < r)%nat -> a !! j = Some y -> y < x) ->
  (forall j y, (r <= j)%nat -> a !! j = Some y -> x <= y) ->
  first_ge a x = r.
Proof.
  revert r. induction a as [|z a IH]; intros r Hr Hlo Hge; simpl in *; [lia|].
  case_decide as Hc.
  - destruct r as [|r]; [done|].
    exfalso. eapply Qcle_not_lt; [exact Hc|]. apply (Hlo O z); [lia|done].
  - destruct r as [|r].
    + exfalso. apply Hc. apply (Hge O z); [lia|done].
    + f_equal. apply IH; [lia| |].
      * intros j y Hj Hy. apply (Hlo (S j) y); [lia|done].
      * intros j y Hj Hy. apply (Hge (S j) y); [lia|done].
Qed.

(** On a sorted tuple [bisect_left] returns the index of the first element
    that is greater than or equal to the searched value. *)
Lemma bisect_left_first_ge a x :
  StronglySorted Qcle a -> bisect_left a x = first_ge a x.
Proof.
  intros Hs. symmetry.
  destruct (bisect_loop_spec a x Hs (length a) O (length a)) as (H1 & H2 & H3);
    [lia..| | |].
  - intros j y Hj. lia.
  - intros j y Hj Hy. apply lookup_lt_Some in Hy. lia.
  - by apply first_ge_unique.
Qed.

Lemma first_gt_first_ge a x : x ∉ a -> first_gt a x = first_ge a x.
Proof.
  induction a as [|z a IH]; simpl; [done|].
  intros Hx. apply not_elem_of_cons in Hx as [Hxz Hx].
  destruct (decide (x < z)) as [H1|H1], (decide (x <= z)) as [H2|H2].
  - done.
  - exfalso. by apply H2, Qclt_le_weak.
  - exfalso. apply Qcle_lt_or_eq in H2 as [?|?]; done.
  - f_equal. by apply IH.
Qed.

(** ** [KeyFrames.value] *)

Lemma keyframe_set_constructed {T} (self : KeyFrames T) :
  keyframe_set self -> constructed self.
Proof. intros [? ? ?]. split; auto using sorted_lt_le. Qed.

Lemma constructed_first_last {T} (self : KeyFrames T) :
  constructed self ->
  exists t0 tN v0 vN,
    times self !! O = Some t0 /\ last (times self) = Some tN /\
    values self !! O = Some v0 /\ last (values self) = Some vN /\ t0 <= tN.
Proof.
  intros [Hlen Hne Hs].
  destruct (times self) as [|t0 ts] eqn:Et; [done|].
  destruct (values self) as [|v0 vs] eqn:Ev; [done|].
  destruct (last (t0 :: ts)) as [tN|] eqn:EtN;
    [|by apply last_None in EtN].
  destruct (last (v0 :: vs)) as [vN|] eqn:EvN;
    [|by apply last_None in EvN].
  exists t0, tN, v0, vN. repeat split; try done.
  rewrite last_lookup in EtN.
  eapply (sorted_le_lookup (t0 :: ts) O); [done| |done|exact EtN]. lia.
Qed.

(** Clamp-low: no assumption on the order of the times is needed. *)
Lemma value_low {T} (self : KeyFrames T) t0 v0 time :
  times self !! O = Some t0 -> values self !! O = Some v0 ->
  time <= t0 -> value self time = OK v0.
Proof.
  intros Ht Hv Hle. unfold value.
  rewrite (py_index_0 _ t0 Ht). cbn [mbind result_bind].
  rewrite decide_True by done. by apply py_index_0.
Qed.

(** Clamp-high, when the first test did not already answer. *)
Lemma value_high {T} (self : KeyFrames T) t0 tN vN time :
  length (times self) = length (values self) ->
  times self !! O = Some t0 -> last (times self) = Some tN ->
  last (values self) = Some vN ->
  t0 < time -> tN <= time -> value self time = OK vN.
Proof.
  intros Hlen Ht HtN HvN Hlt Hle. unfold value.
  rewrite (py_index_0 _ t0 Ht). cbn [mbind result_bind].
  rewrite decide_False by by apply Qclt_not_le.
  rewrite (py_index_last _ _ HtN). cbn [mbind result_bind].
  rewrite decide_True by done.
  rewrite Hlen. by apply py_index_last.
Qed.

(** Strictly between the first and the last time: the two neighbours are
    found by [bisect_left], the time step is positive and the stored
    blend function is applied to (later value, earlier value, fraction). *)
Lemma value_interior {T} (self : KeyFrames T) t0 tN time :
  constructed self ->
  times self !! O = Some t0 -> last (times self) = Some tN ->
  t0 < time -> time < tN ->
  exists i t_prev t_next v_prev v_next,
    bisect_left (times self) time = S i /\
    first_ge (times self) time = S i /\
    times self !! i = Some t_prev /\ times self !! S i = Some t_next /\
    values self !! i = Some v_prev /\ values self !! S i = Some v_next /\
    t_prev < time /\ time <= t_next /\
    value self time =
      OK (interpolate self v_next v_prev ((time - t_prev) / (t_next - t_prev))).
Proof.
  intros [Hlen Hne Hs] Ht HtN Hlt Hgt.
  pose proof (bisect_left_first_ge _ time Hs) as Hb.
  destruct (first_ge (times self) time) as [|i] eqn:Ei.
  { exfalso. destruct (first_ge_at (times self) time) as (y & Hy & Hle).
    - rewrite Ei. apply lookup_lt_Some in Ht. lia.
    - rewrite Ei, Ht in Hy. simplify_eq. exact (Qclt_not_le _ _ Hlt Hle). }
  assert (S i < length (times self))%nat as Hi.
  { destruct (decide (S i < length (times self))%nat) as [|Hn]; [done|exfalso].
    rewrite last_lookup in HtN.
    eapply Qclt_not_le; [exact Hgt|]. apply Qclt_le_weak.
    eapply (first_ge_before (times self) time); [|exact HtN].
    pose proof (first_ge_le_length (times self) time).
    apply lookup_lt_Some in HtN. lia. }
  destruct (first_ge_at (times self) time) as (t_next & Hnext & Hle);
    [by rewrite Ei|]. rewrite Ei in Hnext.
  destruct (lookup_lt_is_Some_2 (times self) i) as [t_prev Hprev]; [lia|].
  destruct (lookup_lt_is_Some_2 (values self) i) as [v_prev Hvprev]; [lia|].
  destruct (lookup_lt_is_Some_2 (values self) (S i)) as [v_next Hvnext]; [lia|].
  assert (t_prev < time) as Hp.
  { eapply (first_ge_before (times self) time i); [rewrite Ei; lia|done]. }
  exists i, t_prev, t_next, v_prev, v_next.
  repeat split; try done.
  unfold value.
  rewrite (py_index_0 _ t0 Ht). cbn [mbind result_bind].
  rewrite decide_False by by apply Qclt_not_le.
  rewrite (py_index_last _ _ HtN). cbn [mbind result_bind].
  rewrite decide_False by by apply Qclt_not_le.
  rewrite Hb.
  rewrite (py_index_pred _ _ _ Hprev), (py_index_lookup _ _ _ Hnext).
  cbn [mbind result_bind].
  unfold py_div. rewrite decide_False.
  2:{ intros Hz. apply (Qclt_not_le _ _ Hp).
      replace t_prev with t_next; [done|].
      rewrite <-(Qcplus_0_l t_prev), <-Hz. ring. }
  cbn [mbind result_bind].
  by rewrite (py_index_lookup _ _ _ Hvnext), (py_index_pred _ _ _ Hvprev).
Qed.

(** Evaluation of a constructed key set never raises. *)
Lemma value_total {T} (self : KeyFrames T) time :
  constructed self -> exists v, value self time = OK v.
Proof.
  intros Hc. destruct (constructed_first_last self Hc)
    as (t0 & tN & v0 & vN & Ht0 & HtN & Hv0 & HvN & _).
  destruct (decide (time <= t0)) as [H1|H1].
  { exists v0. by eapply value_low. }
  apply Qcnot_le_lt in H1.
  destruct (decide (tN <= time)) as [H2|H2].
  { exists vN. eapply value_high; [apply Hc|done..]. }
  apply Qcnot_le_lt in H2.
  destruct (value_interior self t0 tN time Hc Ht0 HtN H1 H2)
    as (i & ? & ? & ? & ? & _ & _ & _ & _ & _ & _ & _ & _ & Hv).
  eauto.
Qed.

(** ** [KeyFrames.__init__] *)

Lemma pair_lt_true {T} (vlt : T -> T -> result bool) (p r : Qc * T) :
  pair_lt vlt p r = OK true -> p.1 <= r.1.
Proof.
  unfold pair_lt. case_decide as E.
  - intros _. rewrite E. apply Qcle_refl.
  - intros [= H%bool_decide_eq_true]. by apply Qclt_le_weak.
Qed.

Lemma pair_lt_false {T} (vlt : T -> T -> result bool) (p r : Qc * T) :
  pair_lt vlt p r = OK false -> r.1 <= p.1.
Proof.
  unfold pair_lt. case_decide as E.
  - intros _. rewrite E. apply Qcle_refl.
  - intros [= H%bool_decide_eq_false]. by apply Qcnot_lt_le.
Qed.

Lemma sorted_le_NoDup_lt (a : list Qc) :
  StronglySorted Qcle a -> NoDup a -> StronglySorted Qclt a.
Proof.
  induction 1 as [|z a Hs IH Hall]; intros Hnd; [constructor|].
  apply NoDup_cons in Hnd as [Hz Hnd].
  constructor; [auto|].
  rewrite Forall_forall in Hall |- *. intros y Hy.
  destruct (Qcle_lt_or_eq _ _ (Hall y Hy)) as [?| ->]; done.
Qed.

Lemma KeyFrames_init_nil {T} (vlt : T -> T -> result bool) f :
  KeyFrames_init vlt [] f = Raise ValueError.
Proof. reflexivity. Qed.

(** A successful construction. *)
Lemma KeyFrames_init_inv {T} (vlt : T -> T -> result bool) pairs f self :
  KeyFrames_init vlt pairs f = OK self ->
  pairs <> [] /\ constructed self /\ interpolate self = f /\
  zip (times self) (values self) ≡ₚ pairs.
Proof.
  unfold KeyFrames_init.
  destruct (py_sorted (pair_lt vlt) pairs) as [l|e] eqn:E; simpl; [|done].
  pose proof (py_sorted_perm _ _ _ E) as Hp.
  intros Hs.
  assert (l <> []) as Hl by (by intros ->).
  assert (self = mkKeyFrames l.*1 l.*2 f) as ->
    by (destruct l; [done|congruence]).
  clear Hs. repeat split; cbn [times values interpolate].
  - intros ->. by apply Permutation_nil_r in Hp.
  - by rewrite !length_fmap.
  - by destruct l.
  - apply (StronglySorted_fmap fst (fun p r : Qc * T => p.1 <= r.1)); [done|].
    apply (py_sorted_sorted (pair_lt vlt) _) with (l := pairs); [| | |done].
    + intros x y. apply pair_lt_true.
    + intros x y. apply pair_lt_false.
    + intros x y z. apply Qcle_trans.
  - by rewrite zip_fst_snd.
Qed.

(** Construction succeeds on a non-empty input as soon as no comparison of
    two values raises. *)
Lemma KeyFrames_init_ok {T} (vlt : T -> T -> result bool) pairs f :
  pairs <> [] ->
  (forall i j p r, (i < j)%nat -> pairs !! i = Some p -> pairs !! j = Some r ->
     p.1 = r.1 -> exists b, vlt r.2 p.2 = OK b) ->
  exists self, KeyFrames_init vlt pairs f = OK self.
Proof.
  intros Hne Hcmp. unfold KeyFrames_init.
  destruct (py_sorted_total (pair_lt vlt) pairs) as [l Hl].
  { intros i j p r Hij Hp Hr. unfold pair_lt. case_decide as E; [|eauto].
    by apply (Hcmp i j). }
  rewrite Hl. simpl. destruct l as [|p l]; [|eauto].
  apply py_sorted_length in Hl. by destruct pairs.
Qed.

(** Pairs with pairwise distinct times (the items of a dict), in any order,
    give a keyframe set in the sense of the data model. *)
Lemma KeyFrames_init_distinct {T} (vlt : T -> T -> result bool) pairs f :
  pairs <> [] -> NoDup pairs.*1 ->
  exists self, KeyFrames_init vlt pairs f = OK self /\ keyframe_set self.
Proof.
  intros Hne Hnd.
  destruct (KeyFrames_init_ok vlt pairs f Hne) as [self Hself].
  { intros i j p r Hij Hp Hr Heq. exfalso.
    apply (f_equal (fmap fst)) in Hp, Hr. rewrite <-!list_lookup_fmap in Hp, Hr.
    simpl in Hp, Hr. rewrite Heq in Hp.
    pose proof (NoDup_lookup _ _ _ _ Hnd Hp Hr). lia. }
  exists self. split; [done|].
  apply KeyFrames_init_inv in Hself as (_ & [Hlen Hn Hs] & _ & Hp).
  split; [done..|]. apply sorted_le_NoDup_lt; [done|].
  rewrite <-Hp in Hnd. rewrite fst_zip in Hnd; [done|lia].
Qed.

(** ** Claims on the interpolation engine *)

(** C3.  For a keyframe set (values paired with strictly increasing times)
    [value(t)] is the first keyframe's value whenever [t] is at most the
    first keyframe time, and the last keyframe's value whenever [t] is at
    least the last keyframe time; a set of one keyframe therefore returns
    its only value at every time. *)
Theorem value_clamp {T} (self : KeyFrames T) t0 tN v0 vN :
  keyframe_set self ->
  head (times self) = Some t0 -> last (times self) = Some tN ->
  head (values self) = Some v0 -> last (values self) = Some vN ->
  forall t,
    (t <= t0 -> value self t = OK v0) /\
    (tN <= t -> value self t = OK vN) /\
    (length (times self) = 1%nat -> value self t = OK v0).
Proof.
  intros [Hlen Hne Hs] Ht0 HtN Hv0 HvN t.
  rewrite head_lookup in Ht0. rewrite head_lookup in Hv0.
  assert (t <= t0 -> value self t = OK v0) as Hlow.
  { intros. by eapply value_low. }
  assert (tN <= t -> value self t = OK vN) as Hhigh.
  { intros Hle. destruct (decide (t <= t0)) as [H0|H0].
    - rewrite (Hlow H0). f_equal.
      rewrite last_lookup in HtN. rewrite last_lookup in HvN.
      destruct (decide (Nat.pred (length (times self)) = O)) as [E|E].
      + rewrite <-Hlen, E in HvN. congruence.
      + exfalso. eapply Qclt_not_le; [|exact (Qcle_trans _ _ _ Hle H0)].
        eapply (sorted_lt_lookup (times self) O); [done| |done..]. lia.
    - apply Qcnot_le_lt in H0. by eapply value_high. }
  repeat split; [done..|].
  intros H1. destruct (Qc_le_total t t0) as [?|?]; [auto|].
  rewrite last_lookup, H1 in HtN. simpl in HtN.
  rewrite last_lookup, <-Hlen, H1 in HvN. simpl in HvN.
  simplify_eq. auto.
Qed.

Lemma value_clamp_witness :
  value kf_demo (q (-1) 1) = OK (q 10 1) /\
  value kf_demo (q 5 2) = OK (q 30 1).
Proof.
  assert (keyframe_set kf_demo) as Hks.
  { split; [reflexivity|discriminate|].
    unfold kf_demo; cbn [times].
    repeat (constructor; [|repeat (constructor; [reflexivity|])]); constructor. }
  split.
  - destruct (value_clamp kf_demo (q 0 1) (q 2 1) (q 10 1) (q 30 1) Hks
                eq_refl eq_refl eq_refl eq_refl (q (-1) 1)) as (Hlow & _ & _).
    apply Hlow. intros Hgt. vm_compute in Hgt. discriminate Hgt.
  - destruct (value_clamp kf_demo (q 0 1) (q 2 1) (q 10 1) (q 30 1) Hks
                eq_refl eq_refl eq_refl eq_refl (q 5 2)) as (_ & Hhigh & _).
    apply Hhigh. intros Hgt. vm_compute in Hgt. discriminate Hgt.
Defined.


Lemma Qcminus_lt_nonzero (x y : Qc) : x < y -> y - x <> 0.
Proof.
  intros Hlt Hz. apply (Qclt_not_eq _ _ Hlt).
  rewrite <-(Qcplus_0_l x), <-Hz. ring.
Qed.


Lemma keyframe_set_kf_demo : keyframe_set kf_demo.
Proof.
  split; [reflexivity|discriminate|].
  unfold kf_demo; cbn [times].
  repeat (constructor; [|repeat (constructor; [reflexivity|])]); constructor.
Qed.


(** C2, as stated, fails at a time that is itself an inner keyframe time:
    with times 0, 1, 2 and time 1, [bisect_left] returns 1 (the first time
    [>= 1]) while the first time strictly greater than 1 has index 2, so
    the blend function is called on (value 1, value 0, 1) and not on
    (value 2, value 1, 0). *)
Lemma value_first_greater_differs :
  keyframe_set kf_demo /\ q 0 1 < q 1 1 /\ q 1 1 < q 2 1 /\
  bisect_left (times kf_demo) (q 1 1) = 1%nat /\
  first_gt (times kf_demo) (q 1 1) = 2%nat /\
  value kf_demo (q 1 1) = OK (q 10 1) /\
  value_first_greater kf_demo (q 1 1) = OK (q 30 1) /\
  value kf_demo (q 1 1) <> value_first_greater kf_demo (q 1 1).
Proof.
  assert (value kf_demo (q 1 1) = OK (q 10 1)) as H1.
  { vm_compute. reflexivity. }
  assert (value_first_greater kf_demo (q 1 1) = OK (q 30 1)) as H2.
  { vm_compute. reflexivity. }
  split; [apply keyframe_set_kf_demo|].
  repeat split; try reflexivity; try done.
Qed.

Lemma value_first_greater_eq {T} (self : KeyFrames T) time
    i t_prev t_next v_prev v_next :
  first_gt (times self) time = S i ->
  times self !! i = Some t_prev -> times self !! S i = Some t_next ->
  values self !! i = Some v_prev -> values self !! S i = Some v_next ->
  t_prev < t_next ->
  value_first_greater self time =
    OK (interpolate self v_next v_prev ((time - t_prev) / (t_next - t_prev))).
Proof.
  intros Hi Hp Hn Hvp Hvn Hlt. unfold value_first_greater. rewrite Hi.
  rewrite (py_index_pred _ _ _ Hp), (py_index_lookup _ _ _ Hn).
  cbn [mbind result_bind]. unfold py_div.
  rewrite decide_False by by apply Qcminus_lt_nonzero.
  cbn [mbind result_bind].
  by rewrite (py_index_lookup _ _ _ Hvn), (py_index_pred _ _ _ Hvp).
Qed.

(** C2, amended.  For a keyframe set with strictly increasing times and a
    time strictly between the first and the last keyframe time, [value]
    takes for [i] the index returned by [bisect_left], which is the index of
    the first keyframe time greater than or equal to [time]; it computes
    [f = (time - t[i-1]) / (t[i] - t[i-1])], where [t[i-1] < time <= t[i]],
    and returns [interpolate(value[i], value[i-1], f)], later value first.
    When [time] is not itself a keyframe time, [i] is also the index of the
    first keyframe time strictly greater than [time]. *)
Theorem value_between_keyframes {T} (self : KeyFrames T) t0 tN time :
  keyframe_set self ->
  head (times self) = Some t0 -> last (times self) = Some tN ->
  t0 < time -> time < tN ->
  exists i t_prev t_next v_prev v_next,
    bisect_left (times self) time = S i /\
    first_ge (times self) time = S i /\
    times self !! i = Some t_prev /\ times self !! S i = Some t_next /\
    values self !! i = Some v_prev /\ values self !! S i = Some v_next /\
    t_prev < time /\ time <= t_next /\
    value self time =
      OK (interpolate self v_next v_prev ((time - t_prev) / (t_next - t_prev))) /\
    (time ∉ times self ->
       first_gt (times self) time = S i /\
       value_first_greater self time = value self time).
Proof.
  intros Hks Ht0 HtN Hlo Hhi. rewrite head_lookup in Ht0.
  destruct (value_interior self t0 tN time
              (keyframe_set_constructed _ Hks) Ht0 HtN Hlo Hhi)
    as (i & t_prev & t_next & v_prev & v_next
        & Hb & Hfg & Hp & Hn & Hvp & Hvn & Hlt & Hle & Hval).
  exists i, t_prev, t_next, v_prev, v_next.
  repeat (split; [done|]).
  intros Hnot. apply first_gt_first_ge in Hnot as Hgt. rewrite Hfg in Hgt.
  split; [done|]. rewrite Hval.
  eapply value_first_greater_eq; [done..|].
  by eapply Qclt_le_trans.
Qed.

Lemma value_between_keyframes_witness :
  exists i t_prev t_next v_prev v_next,
    bisect_left (times kf_demo) (q 1 2) = S i /\
    first_ge (times kf_demo) (q 1 2) = S i /\
    times kf_demo !! i = Some t_prev /\ times kf_demo !! S i = Some t_next /\
    values kf_demo !! i = Some v_prev /\ values kf_demo !! S i = Some v_next /\
    t_prev < q 1 2 /\ q 1 2 <= t_next /\
    value kf_demo (q 1 2) =
      OK (interpolate kf_demo v_next v_prev ((q 1 2 - t_prev) / (t_next - t_prev))) /\
    (q 1 2 ∉ times kf_demo ->
       first_gt (times kf_demo) (q 1 2) = S i /\
       value_first_greater kf_demo (q 1 2) = value kf_demo (q 1 2)).
Proof.
  apply (value_between_keyframes kf_demo (q 0 1) (q 2 1) (q 1 2)).
  - apply keyframe_set_kf_demo.
  - reflexivity.
  - reflexivity.
  - reflexivity.
  - reflexivity.
Defined.

(** ** Matrices *)

Ltac mat4_eq :=
  repeat match goal with
         | |- (_, _) = (_, _) => apply (f_equal2 pair)
         end;
  ring.

Lemma matmul_id_l (a : mat4) : identity @@ a = a.
Proof.
  destruct a as [[[[[[a00 a01] a02] a03] [[[a10 a11] a12] a13]]
                  [[[a20 a21] a22] a23]] [[[a30 a31] a32] a33]].
  cbv [matmul identity transpose row_mul dot4].
  mat4_eq.
Qed.

Lemma matmul_id_r (a : mat4) : a @@ identity = a.
Proof.
  destruct a as [[[[[[a00 a01] a02] a03] [[[a10 a11] a12] a13]]
                  [[[a20 a21] a22] a23]] [[[a30 a31] a32] a33]].
  cbv [matmul identity transpose row_mul dot4].
  mat4_eq.
Qed.

Lemma matmul_assoc (a b c : mat4) : a @@ b @@ c = a @@ (b @@ c).
Proof.
  destruct a as [[[[[[a00 a01] a02] a03] [[[a10 a11] a12] a13]]
                  [[[a20 a21] a22] a23]] [[[a30 a31] a32] a33]].
  destruct b as [[[[[[b00 b01] b02] b03] [[[b10 b11] b12] b13]]
                  [[[b20 b21] b22] b23]] [[[b30 b31] b32] b33]].
  destruct c as [[[[[[c00 c01] c02] c03] [[[c10 c11] c12] c13]]
                  [[[c20 c21] c22] c23]] [[[c30 c31] c32] c33]].
  cbv [matmul transpose row_mul dot4].
  mat4_eq.
Qed.

(** ** [TransformKeyFrames] *)

Lemma KeyFrames_new_inv `{Transform} arg f self :
  KeyFrames_new arg f = OK self ->
  exists pairs, arg = Some pairs /\ pairs <> [] /\
    constructed self /\ interpolate self = f.
Proof.
  destruct arg as [pairs|]; simpl; [|done].
  intros (? & ? & ? & _)%KeyFrames_init_inv. eauto.
Qed.

Lemma TransformKeyFrames_init_inv `{Transform} tk rk sk self :
  TransformKeyFrames_init tk rk sk = OK self ->
  KeyFrames_new tk lerp = OK (translate_keys self) /\
  KeyFrames_new rk quaternion_slerp = OK (rotate_keys self) /\
  KeyFrames_new sk lerp = OK (scale_keys self).
Proof.
  unfold TransformKeyFrames_init.
  destruct (KeyFrames_new tk lerp) as [a|]; simpl; [|done].
  destruct (KeyFrames_new rk quaternion_slerp) as [b|]; simpl; [|done].
  destruct (KeyFrames_new sk lerp) as [c|]; simpl; [|done].
  by intros [= <-].
Qed.

(** Evaluation of a constructed transform track never raises. *)
Lemma TransformKeyFrames_value_ok `{Transform} tk rk sk self time :
  TransformKeyFrames_init tk rk sk = OK self ->
  exists vT vR vS,
    value (translate_keys self) time = OK vT /\
    value (rotate_keys self) time = OK vR /\
    value (scale_keys self) time = OK vS /\
    TransformKeyFrames_value self time =
      OK (translate vT @@ quaternion_matrix vR @@ scale vS).
Proof.
  intros (HT & HR & HS)%TransformKeyFrames_init_inv.
  apply KeyFrames_new_inv in HT as (? & _ & _ & HcT & _).
  apply KeyFrames_new_inv in HR as (? & _ & _ & HcR & _).
  apply KeyFrames_new_inv in HS as (? & _ & _ & HcS & _).
  destruct (value_total (translate_keys self) time HcT) as [vT HvT].
  destruct (value_total (rotate_keys self) time HcR) as [vR HvR].
  destruct (value_total (scale_keys self) time HcS) as [vS HvS].
  exists vT, vR, vS. repeat (split; [done|]).
  unfold TransformKeyFrames_value. by rewrite HvT, HvR, HvS.
Qed.

(** C5.  For every transform track that was constructed and every time,
    the three key sets evaluate (translation and scale with the linear
    blend, rotation with [quaternion_slerp]) and
    [TransformKeyFrames.value] is the product
    [translate(T) @ quaternion_matrix(R) @ scale(S)], in that order. *)
Theorem TransformKeyFrames_value_TRS `{Transform} tk rk sk self :
  TransformKeyFrames_init tk rk sk = OK self ->
  interpolate (translate_keys self) = lerp /\
  interpolate (rotate_keys self) = quaternion_slerp /\
  interpolate (scale_keys self) = lerp /\
  forall time, exists vT vR vS,
    value (translate_keys self) time = OK vT /\
    value (rotate_keys self) time = OK vR /\
    value (scale_keys self) time = OK vS /\
    TransformKeyFrames_value self time =
      OK (translate vT @@ quaternion_matrix vR @@ scale vS) /\
    translate vT @@ quaternion_matrix vR @@ scale vS =
      translate vT @@ (quaternion_matrix vR @@ scale vS).
Proof.
  intros Hinit.
  pose proof (TransformKeyFrames_init_inv _ _ _ _ Hinit) as (HT & HR & HS).
  apply KeyFrames_new_inv in HT as (? & _ & _ & _ & HiT).
  apply KeyFrames_new_inv in HR as (? & _ & _ & _ & HiR).
  apply KeyFrames_new_inv in HS as (? & _ & _ & _ & HiS).
  repeat (split; [done|]). intros time.
  destruct (TransformKeyFrames_value_ok _ _ _ _ time Hinit)
    as (vT & vR & vS & HvT & HvR & HvS & Hv).
  exists vT, vR, vS. repeat (split; [done|]). apply matmul_assoc.
Qed.

Lemma TransformKeyFrames_value_TRS_witness :
  exists self : @TransformKeyFrames exact_transform,
    TransformKeyFrames_init translate_demo rotate_demo scale_demo = OK self /\
    interpolate (rotate_keys self) = lerp4 /\
    exists vT vR vS,
      value (translate_keys self) (q 1 1) = OK vT /\
      value (rotate_keys self) (q 1 1) = OK vR /\
      value (scale_keys self) (q 1 1) = OK vS /\
      TransformKeyFrames_value self (q 1 1) =
        OK (translate4 vT @@ quaternion_matrix4 vR @@ scale4 vS).
Proof.
  eexists. split; [reflexivity|].
  destruct (@TransformKeyFrames_value_TRS exact_transform
              translate_demo rotate_demo scale_demo _ eq_refl)
    as (_ & HR & _ & Hv).
  split; [exact HR|].
  destruct (Hv (q 1 1)) as (vT & vR & vS & H1 & H2 & H3 & H4 & _).
  by exists vT, vR, vS.
Defined.

(** ** The traversal monad *)

Section traversal_facts.
Context `{Transform}.
Variable glfw_get_time : nat -> Qc.

Lemma Py_bind_eq {A B} (m : Py A) (f : A -> Py B) w :
  (m ≫= f) w =
  match m w with
  | (OK a, w') => f a w'
  | (Raise e, w') => (Raise e, w')
  end.
Proof. reflexivity. Qed.

Lemma stable_refl n w : stable n w w.
Proof. by split. Qed.

Lemma stable_trans n w1 w2 w3 :
  stable n w1 w2 -> stable n w2 w3 -> stable n w1 w3.
Proof.
  intros [H1 H1'] [H2 H2']. split.
  - by rewrite H2, H1.
  - intros Hn. rewrite H2', H1'; [done..|]. by rewrite H1.
Qed.

Lemma preserves_ret {A} n (a : A) : preserves n (mret a).
Proof. intros w. apply stable_refl. Qed.

Lemma preserves_lift {A} n (r : result A) : preserves n (lift r).
Proof. intros w. apply stable_refl. Qed.

Lemma preserves_bind {A B} n (m : Py A) (f : A -> Py B) :
  preserves n m -> (forall a, preserves n (f a)) -> preserves n (m ≫= f).
Proof.
  intros Hm Hf w. rewrite Py_bind_eq. specialize (Hm w).
  destruct (m w) as [[a|e] w']; simpl in *; [|done].
  eapply stable_trans; [exact Hm|]. apply Hf.
Qed.

Lemma preserves_get_object n m : preserves n (get_object m).
Proof. intros w. apply stable_refl. Qed.

Lemma preserves_emit n c : preserves n (emit c).
Proof. intros w. by split. Qed.

Lemma preserves_get_time n : preserves n (get_time glfw_get_time).
Proof. intros w. by split. Qed.

Lemma preserves_get_world_transform n m : preserves n (get_world_transform m).
Proof.
  apply preserves_bind; [apply preserves_get_object|].
  intros [| |]; auto using preserves_ret, preserves_lift.
Qed.

Lemma preserves_bone_matrix_loop n name bone_offsets bone_nodes bone_id :
  preserves n (bone_matrix_loop name bone_offsets bone_id bone_nodes).
Proof.
  revert bone_id. induction bone_nodes as [|node rest IH]; intros bone_id; simpl.
  - apply preserves_ret.
  - apply preserves_bind; [apply preserves_get_world_transform|]. intros ?.
    apply preserves_bind; [apply preserves_lift|]. intros ?.
    apply preserves_bind; [apply preserves_emit|]. intros ?. apply IH.
Qed.

Lemma preserves_world_transforms n bone_nodes :
  preserves n (world_transforms bone_nodes).
Proof.
  induction bone_nodes as [|node rest IH]; simpl.
  - apply preserves_ret.
  - apply preserves_bind; [apply preserves_get_world_transform|]. intros ?.
    apply preserves_bind; [apply IH|]. intros ?. apply preserves_ret.
Qed.

(** Writing the transform of a node that holds a track, or the world
    transform of any node, is allowed. *)
Lemma stable_set_transform n self t w :
  is_Some (keyframes_of (objects w self)) ->
  stable n w (set_object self (with_transform (objects w self) t) w).2.
Proof.
  intros [k Hk]. split; simpl; case_decide; subst; try done.
  - by destruct (objects w self).
  - rewrite Hk. done.
Qed.

Lemma stable_set_world_transform n self m w :
  stable n w (set_object self (with_world_transform (objects w self) m) w).2.
Proof.
  split; simpl; case_decide; subst; try done; by destruct (objects w self).
Qed.

Lemma preserves_update_node n self model :
  preserves n (update_node glfw_get_time self model).
Proof.
  intros w. unfold update_node, stable.
  unfold mbind, Py_bind, mret, Py_ret, get_time, lift, get_object, set_object.
  destruct (objects w self) as [t|t k|t [k|] wt] eqn:E;
    try destruct (TransformKeyFrames_value _ _) as [m|e];
    cbn [snd objects with_transform with_world_transform transform_of];
    repeat case_decide; subst; rewrite ?E; simpl; try done.
  all: split; repeat case_decide; subst; rewrite ?E; simpl; try done.
Qed.

Lemma draw_Node self children P V M :
  draw glfw_get_time (Node self children) P V M =
  (update_node glfw_get_time self M;;
   draw_children glfw_get_time self children P V M).
Proof.
  cbn [draw]. f_equal.
  induction children as [|c cs IH]; [done|].
  cbn [draw_children]. by rewrite <-IH.
Qed.

Lemma preserves_draw n d : forall P V M, preserves n (draw glfw_get_time d P V M).
Proof.
  induction d as [name|name bn bo|name bn bo|self children IH]
    using drawable_induction; intros P V M.
  - apply preserves_bind; [apply preserves_emit|]. intros ?.
    apply preserves_emit.
  - apply preserves_bind; [apply preserves_emit|]. intros ?.
    apply preserves_bind; [apply preserves_get_time|]. intros ?.
    apply preserves_bind; [apply preserves_bone_matrix_loop|]. intros ?.
    apply preserves_bind; [apply preserves_lift|]. intros ?.
    apply preserves_emit.
  - apply preserves_bind; [apply preserves_world_transforms|]. intros ?.
    apply preserves_bind; [apply preserves_lift|]. intros ?.
    apply preserves_bind; [apply preserves_emit|]. intros ?.
    apply preserves_bind; [apply preserves_emit|]. intros ?.
    apply preserves_emit.
  - rewrite draw_Node.
    apply preserves_bind; [apply preserves_update_node|]. intros _.
    induction IH as [|c cs Hc _ IHcs]; [apply preserves_ret|].
    cbn [draw_children].
    apply preserves_bind; [apply preserves_get_object|]. intros o.
    apply preserves_bind; [apply Hc|]. intros _. apply IHcs.
Qed.

Lemma preserves_draw_all n ds P V M :
  preserves n (draw_all glfw_get_time ds P V M).
Proof.
  induction ds as [|d ds IH]; [apply preserves_ret|].
  cbn [draw_all]. apply preserves_bind; [apply preserves_draw|]. by intros _.
Qed.

(** A node without a track hands the same model matrix to all of its
    children, whatever they are. *)
Lemma draw_children_static self cs P V M w :
  keyframes_of (objects w self) = None ->
  draw_children glfw_get_time self cs P V M w =
  draw_all glfw_get_time cs P V (M @@ transform_of (objects w self)) w.
Proof.
  revert w. induction cs as [|c cs IH]; intros w Hk; [done|].
  cbn [draw_children draw_all]. rewrite Py_bind_eq. cbn [get_object].
  rewrite !Py_bind_eq.
  pose proof (preserves_draw self c P V
                (M @@ transform_of (objects w self)) w) as [Hs1 Hs2].
  destruct (draw glfw_get_time c P V _ w) as [[[]|e] w']; [|done].
  cbn [snd] in *. rewrite IH by by rewrite Hs1. by rewrite Hs2.
Qed.

Lemma draw_all_app cs ds P V M w :
  draw_all glfw_get_time (cs ++ ds) P V M w =
  (draw_all glfw_get_time cs P V M;; draw_all glfw_get_time ds P V M) w.
Proof.
  revert w. induction cs as [|c cs IH]; intros w; [done|].
  cbn [app draw_all]. rewrite !Py_bind_eq.
  destruct (draw glfw_get_time c P V M w) as [[[]|e] w']; [|done].
  by rewrite IH.
Qed.

Lemma update_node_ONode self M w L :
  objects w self = ONode L -> update_node glfw_get_time self M w = (OK tt, w).
Proof.
  intros E. unfold update_node. rewrite Py_bind_eq. cbn [get_object].
  by rewrite E.
Qed.

Lemma draw_static_Node self children P V M w L :
  objects w self = ONode L ->
  draw glfw_get_time (Node self children) P V M w =
  draw_all glfw_get_time children P V (M @@ L) w.
Proof.
  intros E. rewrite draw_Node, Py_bind_eq, (update_node_ONode _ _ _ L E).
  rewrite draw_children_static by by rewrite E. by rewrite E.
Qed.

(** C6.  A node with local transform [L], drawn with the model matrix
    [M], draws each of its children with the model matrix [M @ L], in the
    order of the children list, to which [add] appends; so the drawable
    below a chain of three nodes with local transforms [L], [B], [C] drawn
    from the identity receives [L @ B @ C], and a node whose local
    transform is the identity hands [M] down unchanged. *)
Theorem Node_draw_model_matrix self L w :
  objects w self = ONode L ->
  (forall children P V M,
     draw glfw_get_time (Node self children) P V M w =
     draw_all glfw_get_time children P V (M @@ L) w) /\
  (forall children drawables P V M,
     draw glfw_get_time (add (Node self children) drawables) P V M w =
     (draw_all glfw_get_time children P V (M @@ L);;
      draw_all glfw_get_time drawables P V (M @@ L)) w) /\
  (forall b c B C name P V,
     objects w b = ONode B -> objects w c = ONode C ->
     draw glfw_get_time (Node self [Node b [Node c [Mesh name]]]) P V identity w =
     (OK tt, mkWorld _ (objects w) (clock w)
                     (gl w ++ [Uniforms name P V (L @@ B @@ C); Execute name]))) /\
  (L = identity ->
   forall children P V M,
     draw glfw_get_time (Node self children) P V M w =
     draw_all glfw_get_time children P V M w).
Proof.
  intros E. repeat split.
  - intros. by apply draw_static_Node.
  - intros. cbn [add]. rewrite (draw_static_Node _ _ _ _ _ _ L E).
    apply draw_all_app.
  - intros b c B C name P V Eb Ec.
    rewrite (draw_static_Node _ _ _ _ _ _ L E). cbn [draw_all].
    rewrite Py_bind_eq, (draw_static_Node _ _ _ _ _ _ B Eb). cbn [draw_all].
    rewrite Py_bind_eq, (draw_static_Node _ _ _ _ _ _ C Ec). cbn [draw_all].
    rewrite Py_bind_eq. cbn [draw]. rewrite Py_bind_eq. cbn [emit objects clock gl].
    by rewrite matmul_id_l, <-(assoc_L (++)).
  - intros -> children P V M.
    rewrite (draw_static_Node _ _ _ _ _ _ identity E). by rewrite matmul_id_r.
Qed.

(** ** Bone matrices *)

Lemma get_world_transform_ok node w W :
  world_transform_of (objects w node) = Some W ->
  get_world_transform node w = (OK W, w).
Proof.
  intros E. unfold get_world_transform. rewrite Py_bind_eq. cbn [get_object].
  destruct (objects w node); by simplify_eq/=.
Qed.

Lemma bone_uploads_cons name bone_id m ms :
  bone_uploads name bone_id (m :: ms) =
  UniformBoneMatrix name bone_id m :: bone_uploads name (S bone_id) ms.
Proof.
  unfold bone_uploads. rewrite imap_cons, Nat.add_0_r. f_equal.
  apply imap_ext. intros i x _. simpl. f_equal. lia.
Qed.

Lemma bone_matrix_loop_ok name bone_offsets bone_nodes bone_id w :
  (forall n, n ∈ bone_nodes -> is_Some (world_transform_of (objects w n))) ->
  (bone_id + length bone_nodes <= length bone_offsets)%nat ->
  bone_matrix_loop name bone_offsets bone_id bone_nodes w =
  (OK tt,
   mkWorld _ (objects w) (clock w)
     (gl w ++ bone_uploads name bone_id
                (zip_with matmul (bone_world_transforms w bone_nodes)
                          (drop bone_id bone_offsets)))).
Proof.
  revert bone_id w.
  induction bone_nodes as [|node rest IH]; intros bone_id w Hn Hlen.
  { cbn. rewrite app_nil_r. by destruct w. }
  destruct (Hn node) as [W HW]; [by left|].
  destruct (lookup_lt_is_Some_2 bone_offsets bone_id) as [O HO];
    [simpl in Hlen; lia|].
  cbn [bone_matrix_loop]. rewrite Py_bind_eq, (get_world_transform_ok _ _ _ HW).
  rewrite Py_bind_eq. unfold lift at 1. rewrite (py_index_lookup _ _ _ HO).
  rewrite Py_bind_eq. cbn [emit]. rewrite IH.
  - cbn [objects clock gl bone_world_transforms fmap list_fmap]. rewrite HW.
    rewrite (drop_S _ _ _ HO). cbn [default zip_with].
    by rewrite bone_uploads_cons, <-(assoc_L (++)).
  - intros n ?. apply Hn. by right.
  - simpl in Hlen. lia.
Qed.

Lemma world_transforms_ok bone_nodes w :
  (forall n, n ∈ bone_nodes -> is_Some (world_transform_of (objects w n))) ->
  world_transforms bone_nodes w = (OK (bone_world_transforms w bone_nodes), w).
Proof.
  induction bone_nodes as [|node rest IH]; intros Hn; [done|].
  destruct (Hn node) as [W HW]; [by left|].
  cbn [world_transforms]. rewrite Py_bind_eq, (get_world_transform_ok _ _ _ HW).
  rewrite Py_bind_eq, IH.
  - cbn [bone_world_transforms fmap list_fmap]. by rewrite HW.
  - intros n ?. apply Hn. by right.
Qed.

End traversal_facts.

Lemma stack_matmul_same_length (ws os : list mat4) :
  length ws = length os -> stack_matmul ws os = OK (zip_with matmul ws os).
Proof.
  intros Hlen. unfold stack_matmul.
  destruct ws as [|w [|w' ws]], os as [|o [|o' os]]; simplify_eq/=; try done.
  by rewrite decide_True by (simpl; lia).
Qed.

Lemma bone_world_transforms_lookup `{Transform} w bone_nodes bone_offsets
    i node W_i offset_i :
  bone_nodes !! i = Some node ->
  world_transform_of (objects w node) = Some W_i ->
  bone_offsets !! i = Some offset_i ->
  zip_with matmul (bone_world_transforms w bone_nodes) bone_offsets !! i =
  Some (W_i @@ offset_i).
Proof.
  intros Hi HW Ho. rewrite lookup_zip_with. unfold bone_world_transforms.
  rewrite list_lookup_fmap, Hi. simpl. by rewrite HW, Ho.
Qed.

(** What [TexturedPhongMeshSkinned.draw] does when every bone node is a
    skinning node and has an offset: the uniforms of the mesh, one clock
    reading for the fog colour, one upload per bone, then the inversion of
    the view matrix, which may raise, and the draw call. *)
Lemma draw_Textured_paired `{Transform} glfw_get_time
    name bone_nodes bone_offsets P V M w :
  (length bone_nodes <= length bone_offsets)%nat ->
  (forall n, n ∈ bone_nodes -> is_Some (world_transform_of (objects w n))) ->
  draw glfw_get_time (TexturedPhongMeshSkinned name bone_nodes bone_offsets)
       P V M w =
  (np_linalg_inv V,
   mkWorld _ (objects w) (S (clock w))
     (gl w ++ Uniforms name P V M ::
        bone_uploads name O
          (zip_with matmul (bone_world_transforms w bone_nodes) bone_offsets)
        ++ (match np_linalg_inv V with
            | OK _ => [Execute name]
            | Raise _ => []
            end))).
Proof.
  intros Hlen Hn. cbn [draw]. rewrite Py_bind_eq. cbn [emit].
  rewrite Py_bind_eq. cbn [get_time objects clock gl].
  rewrite Py_bind_eq, bone_matrix_loop_ok; [|exact Hn|lia].
  rewrite drop_0. cbn [objects clock gl]. rewrite Py_bind_eq.
  unfold lift.
  change (bone_world_transforms _ bone_nodes)
    with (bone_world_transforms w bone_nodes).
  destruct (np_linalg_inv V) as [[]|e].
  - unfold emit. cbn [objects clock gl]. by rewrite <-!(assoc_L (++)).
  - by rewrite app_nil_r, <-(assoc_L (++)).
Qed.

Lemma np_linalg_inv_regular `{Transform} V :
  det4 V <> 0 -> np_linalg_inv V = OK tt.
Proof. intros HV. unfold np_linalg_inv. by rewrite decide_False. Qed.

(** C7.  Let a skinned drawable have as many bind-pose offsets as bone
    nodes, all of them skinning nodes, and let [bone_matrix] hold, for each
    bone index [i], the matrix [W_i @ offset_i], where [W_i] is the
    [world_transform] attribute that bone node [i] holds when the drawable
    is drawn.  [TexturedPhongMeshSkinned.draw] reads the clock once, for
    its fog colour, uploads [bone_matrix[i]] as uniform [bone_matrix[i]]
    for every bone, in order, and then draws, unless the inversion of the
    view matrix raises, which it never does on a matrix that is not
    singular; [SkinnedMesh.draw] uploads the whole array and draws.
    Neither changes any node. *)
Theorem bone_matrix_assembly `{Transform} glfw_get_time
    name bone_nodes bone_offsets P V M w :
  length bone_nodes = length bone_offsets ->
  (forall n, n ∈ bone_nodes -> is_Some (world_transform_of (objects w n))) ->
  exists bone_matrix,
    length bone_matrix = length bone_nodes /\
    (forall i node W_i offset_i,
       bone_nodes !! i = Some node ->
       world_transform_of (objects w node) = Some W_i ->
       bone_offsets !! i = Some offset_i ->
       bone_matrix !! i = Some (W_i @@ offset_i)) /\
    draw glfw_get_time (TexturedPhongMeshSkinned name bone_nodes bone_offsets)
         P V M w =
      (np_linalg_inv V,
       mkWorld _ (objects w) (S (clock w))
         (gl w ++ Uniforms name P V M :: bone_uploads name O bone_matrix
               ++ (match np_linalg_inv V with
                   | OK _ => [Execute name]
                   | Raise _ => []
                   end))) /\
    (det4 V <> 0 -> np_linalg_inv V = OK tt) /\
    draw glfw_get_time (SkinnedMesh name bone_nodes bone_offsets) P V M w =
      (OK tt,
       mkWorld _ (objects w) (clock w)
         (gl w ++ [UniformBoneMatrices name (length bone_nodes) bone_matrix;
                   Uniforms name P V M; Execute name])).
Proof.
  intros Hlen Hn.
  exists (zip_with matmul (bone_world_transforms w bone_nodes) bone_offsets).
  split; [|split; [|split; [|split]]].
  - rewrite length_zip_with. unfold bone_world_transforms.
    rewrite length_fmap. lia.
  - intros i node W_i offset_i. apply bone_world_transforms_lookup.
  - apply draw_Textured_paired; [lia|done].
  - apply np_linalg_inv_regular.
  - cbn [draw]. rewrite Py_bind_eq, world_transforms_ok by done.
    rewrite Py_bind_eq. unfold lift.
    rewrite stack_matmul_same_length
      by (unfold bone_world_transforms; by rewrite length_fmap).
    rewrite Py_bind_eq. unfold emit at 1. rewrite Py_bind_eq. unfold emit.
    cbn [objects clock gl]. by rewrite <-!(assoc_L (++)).
Qed.

Lemma bone_matrix_assembly_witness :
  exists bone_matrix,
    bone_matrix !! 1%nat =
      Some (scale4 (v4 2 2 2 0) @@ translate4 (v4 1 0 0 0)) /\
    draw frame_clock
         (TexturedPhongMeshSkinned 7%nat [1%nat; 0%nat]
            [identity; translate4 (v4 1 0 0 0)])
         identity identity identity skinned_world =
      (OK tt,
       mkWorld _ (objects skinned_world) 1%nat
         (gl skinned_world ++
          Uniforms 7%nat identity identity identity ::
          bone_uploads 7%nat O bone_matrix ++ [Execute 7%nat])) /\
    draw frame_clock
         (SkinnedMesh 7%nat [1%nat; 0%nat] [identity; translate4 (v4 1 0 0 0)])
         identity identity identity skinned_world =
      (OK tt,
       mkWorld _ (objects skinned_world) (clock skinned_world)
         (gl skinned_world ++
          [UniformBoneMatrices 7%nat 2 bone_matrix;
           Uniforms 7%nat identity identity identity; Execute 7%nat])).
Proof.
  destruct (bone_matrix_assembly frame_clock 7%nat [1%nat; 0%nat]
              [identity; translate4 (v4 1 0 0 0)]
              identity identity identity skinned_world)
    as (bone_matrix & _ & H2 & H3 & _ & H4).
  - reflexivity.
  - intros n _. simpl. eauto.
  - exists bone_matrix. split; [|split; [exact H3|exact H4]].
    apply (H2 1%nat 0%nat); reflexivity.
Defined.

Lemma Node_draw_model_matrix_witness :
  let A := scale4 (v4 2 2 2 0) in
  let B := scale4 (v4 3 3 3 0) in
  let C := scale4 (v4 4 4 4 0) in
  draw frame_clock (Node 0%nat [Node 1%nat [Node 2%nat [Mesh 7%nat]]])
       identity identity identity static_world =
  (OK tt, mkWorld _ (objects static_world) O
                  [Uniforms 7%nat identity identity (A @@ B @@ C);
                   Execute 7%nat]).
Proof.
  intros A B C.
  destruct (Node_draw_model_matrix frame_clock 0%nat A static_world eq_refl)
    as (_ & _ & Hchain & _).
  apply (Hchain 1%nat 2%nat B C 7%nat identity identity); reflexivity.
Defined.

(** ** Nodes without a keyframe track *)

Lemma SkinningControlNode_init_falsy `{Transform} k0 rest X :
  py_bool k0 = false ->
  SkinningControlNode_init (k0 :: rest) X =
  OK (OSkinningControlNode X None identity).
Proof.
  intros Hb. unfold SkinningControlNode_init.
  rewrite (py_index_0 (k0 :: rest) k0) by done.
  cbn [mbind result_bind]. by rewrite Hb.
Qed.

Lemma draw_keeps_static_transform `{Transform} glfw_get_time self d P V M w :
  keyframes_of (objects w self) = None ->
  transform_of (objects (draw glfw_get_time d P V M w).2 self) =
    transform_of (objects w self) /\
  keyframes_of (objects (draw glfw_get_time d P V M w).2 self) = None.
Proof.
  intros Hk. destruct (preserves_draw glfw_get_time self d P V M w) as [H1 H2].
  split; [auto|]. by rewrite H1.
Qed.

(** C8.  A skinning node constructed with the no-animation marker
    ([SkinningControlNode(None, transform=X)]) holds no keyframe track and
    the local transform [X].  Whatever is drawn, with whatever matrices,
    while a node holds no track, its local transform is left unchanged and
    it still holds no track afterwards; the node itself only publishes
    [M @ X] as its world transform and draws its children with [M @ X], as
    a static node does. *)
Theorem no_animation_keeps_transform `{Transform} glfw_get_time self X W w :
  objects w self = OSkinningControlNode X None W ->
  SkinningControlNode_init [None] X = OK (OSkinningControlNode X None identity) /\
  (forall d P V M,
     transform_of (objects (draw glfw_get_time d P V M w).2 self) = X /\
     keyframes_of (objects (draw glfw_get_time d P V M w).2 self) = None) /\
  (forall children P V M,
     draw glfw_get_time (Node self children) P V M w =
     draw_all glfw_get_time children P V (M @@ X)
       (mkWorld _ (fun m => if decide (m = self)
                            then OSkinningControlNode X None (M @@ X)
                            else objects w m)
                (clock w) (gl w))).
Proof.
  intros E. split; [by apply SkinningControlNode_init_falsy|]. split.
  - intros d P V M.
    destruct (draw_keeps_static_transform glfw_get_time self d P V M w)
      as [H1 H2]; [by rewrite E|].
    by rewrite H1, E.
  - intros children P V M. rewrite draw_Node, Py_bind_eq.
    assert (update_node glfw_get_time self M w =
            (OK tt, mkWorld _ (fun m => if decide (m = self)
                                        then OSkinningControlNode X None (M @@ X)
                                        else objects w m)
                            (clock w) (gl w))) as ->.
    { unfold update_node. rewrite Py_bind_eq. cbn [get_object]. rewrite E.
      rewrite !Py_bind_eq. cbn [mret Py_ret]. rewrite Py_bind_eq.
      cbn [get_object]. by rewrite E. }
    rewrite draw_children_static; cbn [objects]; by rewrite decide_True.
Qed.

Lemma no_animation_keeps_transform_witness :
  transform_of
    (objects (draw frame_clock (Node 3%nat [Mesh 7%nat; Node 3%nat []])
                   identity identity (scale4 (v4 2 2 2 0)) skinned_world).2
             3%nat) = identity.
Proof.
  destruct (no_animation_keeps_transform frame_clock 3%nat identity
              (scale4 (v4 5 5 5 0)) skinned_world eq_refl) as (_ & Hd & _).
  apply Hd.
Defined.

(** C10.  [SkinningControlNode.__init__] looks at its first positional key
    argument only: when it is [None] or empty the node gets no keyframe
    track, whatever the other key arguments are, and no draw ever changes
    its local transform; otherwise the track is built from all the
    arguments. *)
Theorem SkinningControlNode_first_key_decides `{Transform} k0 rest X :
  (k0 = None \/ k0 = Some [] <-> py_bool k0 = false) /\
  (py_bool k0 = false ->
   SkinningControlNode_init (k0 :: rest) X =
     OK (OSkinningControlNode X None identity) /\
   forall glfw_get_time self w d P V M,
     objects w self = OSkinningControlNode X None identity ->
     transform_of (objects (draw glfw_get_time d P V M w).2 self) = X /\
     keyframes_of (objects (draw glfw_get_time d P V M w).2 self) = None) /\
  (py_bool k0 = true ->
   SkinningControlNode_init (k0 :: rest) X =
     (k ← TransformKeyFrames_new (k0 :: rest);
      OK (OSkinningControlNode X (Some k) identity))).
Proof.
  split; [|split].
  - destruct k0 as [[|p l]|]; simpl; split; intros Hx; try done;
      first [by left | by right | by destruct Hx].
  - intros Hb. split; [by apply SkinningControlNode_init_falsy|].
    intros glfw_get_time self w d P V M E.
    destruct (draw_keeps_static_transform glfw_get_time self d P V M w)
      as [H1 H2]; [by rewrite E|].
    by rewrite H1, E.
  - intros Hb. unfold SkinningControlNode_init.
    rewrite (py_index_0 _ k0) by done.
    cbn [mbind result_bind]. rewrite Hb.
    by destruct (TransformKeyFrames_new (k0 :: rest)).
Qed.

Lemma SkinningControlNode_first_key_decides_witness :
  @SkinningControlNode_init exact_transform
    [None; rotate_demo; scale_demo] (scale4 (v4 2 2 2 0)) =
  OK (OSkinningControlNode (scale4 (v4 2 2 2 0)) None identity).
Proof.
  destruct (@SkinningControlNode_first_key_decides exact_transform
              None [rotate_demo; scale_demo] (scale4 (v4 2 2 2 0)))
    as (_ & Hfalse & _).
  apply Hfalse. reflexivity.
Defined.

(** ** Construction of key sets *)











(** ** Sorting the rows of [v_bone] *)

Lemma entry_lt_le (a b : v_bone_entry) : entry_lt a b = true -> entry_le a b.
Proof.
  unfold entry_lt, entry_le. intros [H|H]%orb_true_iff.
  - left. by apply bool_decide_eq_true in H.
  - apply andb_true_iff in H as [H1 H2]. apply bool_decide_eq_true in H1.
    apply Nat.ltb_lt in H2. right. split; [done|lia].
Qed.

Lemma entry_nlt_le (a b : v_bone_entry) : entry_lt a b = false -> entry_le b a.
Proof.
  unfold entry_lt, entry_le. intros [H1 H2]%orb_false_iff.
  apply bool_decide_eq_false in H1. apply Qcnot_lt_le in H1.
  destruct (Qcle_lt_or_eq _ _ H1) as [?|Heq]; [by left|right].
  split; [done|].
  rewrite bool_decide_eq_true_2 in H2 by done.
  apply Nat.ltb_ge in H2. lia.
Qed.

#[local] Instance entry_le_trans : Transitive entry_le.
Proof.
  intros a b c [H1|[H1 H1']] [H2|[H2 H2']]; unfold entry_le.
  - left. by eapply Qclt_trans.
  - left. by rewrite <-H2.
  - left. by rewrite H1.
  - right. split; [congruence|lia].
Qed.

#[local] Instance entry_le_antisym : AntiSymm eq entry_le.
Proof.
  intros [w1 i1] [w2 i2] [H1|[H1 H1']] [H2|[H2 H2']]; simpl in *.
  - exfalso. eapply Qclt_not_le; [exact H1|]. by apply Qclt_le_weak.
  - exfalso. subst. by apply Qclt_not_eq in H1.
  - exfalso. subst. by apply Qclt_not_eq in H2.
  - f_equal; [done|lia].
Qed.

Lemma entry_le_weight (a b : v_bone_entry) : entry_le a b -> a.1 <= b.1.
Proof.
  intros [H|[-> _]]; [by apply Qclt_le_weak|apply Qcle_refl].
Qed.

Lemma np_insert_perm x l : np_insert x l ≡ₚ x :: l.
Proof.
  induction l as [|y l IH]; simpl; [done|].
  destruct (entry_lt y x); [|done]. rewrite IH. apply Permutation_swap.
Qed.

Lemma np_sort_perm l : np_sort l ≡ₚ l.
Proof.
  induction l as [|x l IH]; simpl; [done|].
  fold (np_sort l). by rewrite np_insert_perm, IH.
Qed.

Lemma np_insert_sorted x l :
  StronglySorted entry_le l -> StronglySorted entry_le (np_insert x l).
Proof.
  induction 1 as [|y l Hs IH Hall]; simpl.
  - repeat constructor.
  - destruct (entry_lt y x) eqn:E.
    + constructor; [done|]. rewrite np_insert_perm.
      constructor; [by apply entry_lt_le|done].
    + apply entry_nlt_le in E. constructor; [by constructor|].
      constructor; [done|].
      eapply Forall_impl; [exact Hall|]. intros z Hz. by trans y.
Qed.

Lemma np_sort_sorted l : StronglySorted entry_le (np_sort l).
Proof.
  induction l as [|x l IH]; simpl; [constructor|]. by apply np_insert_sorted.
Qed.

(** The ascending arrangement of a row is unique. *)
Lemma np_sort_unique l l' :
  l ≡ₚ l' -> StronglySorted entry_le l' -> np_sort l = l'.
Proof.
  intros Hp Hs. apply (StronglySorted_unique entry_le); [apply np_sort_sorted|done|].
  by rewrite np_sort_perm.
Qed.

Lemma np_sort_length l : length (np_sort l) = length l.
Proof. apply Permutation_length, np_sort_perm. Qed.

(** ** Filling [v_bone] *)

Lemma shape_init n : shape n (v_bone_init n).
Proof.
  split; [apply length_replicate|].
  apply Forall_replicate, length_replicate.
Qed.

Lemma get2_init n v b :
  (v < n)%nat -> (b < MAX_BONES)%nat -> get2 (v_bone_init n) v b = Some (0, O).
Proof.
  intros Hv Hb. unfold get2, v_bone_init.
  rewrite lookup_replicate_2 by done. by apply lookup_replicate_2.
Qed.

Lemma set_entry_ok n v_bone v b e :
  shape n v_bone -> (v < n)%nat -> (b < MAX_BONES)%nat ->
  exists v_bone', set_entry v_bone v b e = OK v_bone'.
Proof.
  intros [Hlen Hrows] Hv Hb. unfold set_entry.
  destruct (lookup_lt_is_Some_2 v_bone v) as [row Hrow]; [lia|]. rewrite Hrow.
  rewrite Forall_lookup in Hrows. rewrite decide_True; [eauto|].
  by rewrite (Hrows _ _ Hrow).
Qed.

Lemma set_entry_spec n v_bone v b e v_bone' :
  set_entry v_bone v b e = OK v_bone' -> shape n v_bone ->
  shape n v_bone' /\ (v < n)%nat /\
  forall v' b',
    get2 v_bone' v' b' =
    if decide (v' = v /\ b' = b) then Some e else get2 v_bone v' b'.
Proof.
  unfold set_entry. destruct (v_bone !! v) as [row|] eqn:Hrow; [|done].
  case_decide as Hb; [|done]. intros [= <-] [Hlen Hrows].
  pose proof (lookup_lt_Some _ _ _ Hrow) as Hv.
  repeat split.
  - by rewrite length_insert.
  - apply Forall_insert; [done|]. rewrite length_insert.
    rewrite Forall_lookup in Hrows. by apply (Hrows v).
  - lia.
  - intros v' b'. unfold get2. destruct (decide (v' = v)) as [->|Hne].
    + rewrite list_lookup_insert_eq by done. rewrite Hrow.
      destruct (decide (b' = b)) as [->|Hne'].
      * rewrite decide_True by done. by apply list_lookup_insert_eq.
      * rewrite decide_False by (intros [? ?]; congruence). by apply list_lookup_insert_ne.
    + rewrite list_lookup_insert_ne by done.
      by rewrite decide_False by (intros [? ?]; congruence).
Qed.

Lemma fill_bone_ok n b ws v_bone :
  shape n v_bone -> (b < MAX_BONES)%nat ->
  Forall (fun e => (mVertexId e < n)%nat) ws ->
  exists v_bone', fill_bone b ws v_bone = OK v_bone'.
Proof.
  intros Hs Hb Hws. revert v_bone Hs.
  induction Hws as [|e ws He _ IH]; intros v_bone Hs; simpl; [eauto|].
  destruct (set_entry_ok n v_bone (mVertexId e) b (mWeight e, b))
    as [v1 Hv1]; [done..|].
  rewrite Hv1. simpl. apply IH.
  by destruct (set_entry_spec n _ _ _ _ _ Hv1 Hs).
Qed.

Lemma fill_bone_spec n b ws v_bone v_bone' :
  fill_bone b ws v_bone = OK v_bone' -> shape n v_bone ->
  shape n v_bone' /\
  forall v' b',
    get2 v_bone' v' b' =
    if decide (b' = b) then
      match last (filter (fun e => mVertexId e = v') ws) with
      | Some e => Some (mWeight e, b)
      | None => get2 v_bone v' b'
      end
    else get2 v_bone v' b'.
Proof.
  revert v_bone. induction ws as [|e ws IH]; intros v_bone; simpl.
  - intros [= <-] Hs. split; [done|]. intros v' b'. by case_decide.
  - destruct (set_entry v_bone (mVertexId e) b (mWeight e, b))
      as [v1|] eqn:Hv1; simpl; [|done].
    intros Hfill Hs.
    destruct (set_entry_spec n _ _ _ _ _ Hv1 Hs) as (Hs1 & _ & Hget1).
    destruct (IH _ Hfill Hs1) as [Hs' Hget']. split; [done|].
    intros v' b'. rewrite Hget', Hget1.
    destruct (decide (b' = b)) as [->|Hb].
    + rewrite filter_cons. destruct (decide (mVertexId e = v')) as [<-|Hv].
      * rewrite decide_True by done. rewrite last_cons.
        by destruct (last (filter _ ws)).
      * by rewrite decide_False by (intros [? ?]; congruence).
    + by rewrite decide_False by (intros [? ?]; congruence).
Qed.

Lemma fill_bones_ok n b0 bones v_bone :
  shape n v_bone -> (b0 + length bones <= MAX_BONES)%nat ->
  Forall (fun bone => Forall (fun e => (mVertexId e < n)%nat) (mWeights bone))
         bones ->
  exists v_bone', fill_bones b0 bones v_bone = OK v_bone'.
Proof.
  intros Hs Hb Hbones. revert b0 v_bone Hs Hb.
  induction Hbones as [|bone bones Hbone _ IH]; intros b0 v_bone Hs Hb;
    simpl in *; [eauto|].
  destruct (fill_bone_ok n b0 (mWeights bone) v_bone) as [v1 Hv1];
    [done|lia|done|].
  rewrite Hv1. simpl. apply IH; [|lia].
  by destruct (fill_bone_spec n _ _ _ _ Hv1 Hs).
Qed.

Lemma fill_bones_spec n b0 bones v_bone v_bone' :
  fill_bones b0 bones v_bone = OK v_bone' -> shape n v_bone ->
  shape n v_bone' /\
  forall v' b',
    get2 v_bone' v' b' =
    match (if decide (b0 <= b')%nat then bones !! (b' - b0)%nat else None) with
    | Some bone =>
        match last (filter (fun e => mVertexId e = v') (mWeights bone)) with
        | Some e => Some (mWeight e, b')
        | None => get2 v_bone v' b'
        end
    | None => get2 v_bone v' b'
    end.
Proof.
  revert b0 v_bone. induction bones as [|bone bones IH]; intros b0 v_bone; simpl.
  - intros [= <-] Hs. split; [done|]. intros v' b'. by case_decide.
  - destruct (fill_bone b0 (mWeights bone) v_bone) as [v1|] eqn:Hv1;
      simpl; [|done].
    intros Hfill Hs.
    destruct (fill_bone_spec n _ _ _ _ Hv1 Hs) as [Hs1 Hget1].
    destruct (IH _ _ Hfill Hs1) as [Hs' Hget']. split; [done|].
    intros v' b'. rewrite Hget', Hget1.
    destruct (decide (b' = b0)) as [->|Hne].
    + rewrite decide_False by lia. rewrite decide_True by lia.
      by rewrite Nat.sub_diag.
    + destruct (decide (b0 <= b')%nat) as [Hle|Hgt].
      * rewrite decide_True by lia.
        replace (b' - b0)%nat with (S (b' - S b0)) by lia. done.
      * by rewrite decide_False by lia.
Qed.

(** The rows of [v_bone] after the two loops. *)
Lemma fill_bones_rows n bones v_bone v :
  fill_bones O bones (v_bone_init n) = OK v_bone -> (v < n)%nat ->
  v_bone !! v = Some (vertex_row bones v).
Proof.
  intros Hfill Hv.
  destruct (fill_bones_spec n _ _ _ _ Hfill (shape_init n)) as [[Hlen Hrows] Hget].
  destruct (lookup_lt_is_Some_2 v_bone v) as [row Hrow]; [lia|].
  rewrite Hrow. f_equal. rewrite Forall_lookup in Hrows.
  pose proof (Hrows _ _ Hrow) as Hlrow.
  apply list_eq. intros b. specialize (Hget v b).
  unfold get2 at 1 in Hget. rewrite Hrow in Hget.
  unfold vertex_row. rewrite list_lookup_fmap.
  destruct (decide (b < MAX_BONES)%nat) as [Hb|Hb].
  - rewrite (proj2 (lookup_seq O MAX_BONES b b)) by done. rewrite Hget.
    rewrite decide_True by lia. rewrite Nat.sub_0_r, get2_init by done.
    cbn [fmap option_fmap option_map]. unfold influence.
    destruct (bones !! b) as [bone|]; [|done].
    by destruct (last (filter _ (mWeights bone))).
  - rewrite (lookup_ge_None_2 (seq O MAX_BONES)) by (rewrite length_seq; lia).
    apply lookup_ge_None_2. lia.
Qed.

Lemma vertex_row_length bones v : length (vertex_row bones v) = MAX_BONES.
Proof. unfold vertex_row. by rewrite length_fmap, length_seq. Qed.

Lemma influence_not_listed bones v b :
  lists_vertex bones v b <> true -> influence bones v b = (0, O).
Proof.
  unfold lists_vertex, influence. destruct (bones !! b) as [bone|]; [|done].
  by destruct (filter _ (mWeights bone)).
Qed.

(** A row consists of the contributions of the bones that list the vertex
    and of pads [(0, 0)]. *)
Lemma vertex_row_split bones v :
  vertex_row bones v ≡ₚ
  replicate (MAX_BONES - length (influencing bones v)) (0, O) ++
  (influence bones v <$> influencing bones v).
Proof.
  pose proof (filter_app_complement
                (fun b => lists_vertex bones v b = true) (seq O MAX_BONES)) as Hp.
  pose proof (Permutation_length Hp) as Hlen.
  rewrite length_app, length_seq in Hlen.
  apply (fmap_Permutation (influence bones v)) in Hp. rewrite fmap_app in Hp.
  unfold vertex_row. rewrite <-Hp, (comm app). f_equiv.
  rewrite (const_fmap _ _ (0, O)).
  - unfold influencing.
    by replace (MAX_BONES - _)%nat
      with (length (filter (fun x => lists_vertex bones v x <> true)
                           (seq O MAX_BONES))) by lia.
  - intros i b Hb%list_elem_of_lookup_2%list_elem_of_filter.
    apply influence_not_listed, Hb.
  - done.
Qed.

Lemma StronglySorted_weaken {A} (R1 R2 : relation A) l :
  (forall x y, R1 x y -> R2 x y) -> StronglySorted R1 l -> StronglySorted R2 l.
Proof.
  intros HR. induction 1 as [|x l Hs IH Hall]; constructor; [done|].
  eapply Forall_impl; [exact Hall|]. auto.
Qed.

Lemma StronglySorted_replicate {A} (R : relation A) n x :
  R x x -> StronglySorted R (replicate n x).
Proof.
  intros HR. induction n as [|n IH]; simpl; constructor; [done|].
  apply Forall_replicate, HR.
Qed.

(** The sorted row of a vertex listed by few bones, all with positive
    weights: the pads come first. *)
Lemma np_sort_padded bones v :
  Forall (fun b => 0 < (influence bones v b).1) (influencing bones v) ->
  np_sort (vertex_row bones v) =
  replicate (MAX_BONES - length (influencing bones v)) (0, O) ++
  np_sort (influence bones v <$> influencing bones v).
Proof.
  intros Hpos. apply np_sort_unique.
  - by rewrite vertex_row_split, np_sort_perm.
  - apply StronglySorted_app_2.
    + intros x1 x2 ->%elem_of_replicate_inv Hx2.
      rewrite np_sort_perm in Hx2.
      apply list_elem_of_fmap in Hx2 as (b & -> & Hb).
      rewrite Forall_forall in Hpos. left. by apply Hpos.
    + apply StronglySorted_replicate. right. done.
    + apply np_sort_sorted.
Qed.

(** C1, as stated, fails on the example of the specification: for one
    vertex weighed by six bones with 0.5, 0.3, 0.1, 0.05, 0.03 and 0.02 the
    stored row holds the four highest weights in ascending order (highest
    last), not in descending order. *)
Lemma skin_weights_not_descending :
  skin_weights 1 six_bones =
    OK [[(q 1 20, 3%nat); (q 1 10, 2%nat); (q 3 10, 1%nat); (q 1 2, 0%nat)]] /\
  ~ StronglySorted (fun a b : v_bone_entry => b.1 <= a.1)
      [(q 1 20, 3%nat); (q 1 10, 2%nat); (q 3 10, 1%nat); (q 1 2, 0%nat)].
Proof.
  split; [vm_compute; reflexivity|].
  intros Hs. apply StronglySorted_inv in Hs as [_ Hall].
  apply Forall_cons in Hall as [Hle _]. simpl in Hle.
  revert Hle. apply Qclt_not_le. reflexivity.
Qed.

Lemma last_columns_rows {A} (k : nat) (v_bone : list (list A)) :
  v_bone <> [] -> last_columns k v_bone = OK (last_n k <$> v_bone).
Proof. by destruct v_bone. Qed.

(** The outcome of the construction once the two loops have run. *)
Lemma skin_weights_filled mNumVertices mBones v_bone :
  fill_bones O (take MAX_BONES mBones) (v_bone_init mNumVertices) = OK v_bone ->
  length v_bone = mNumVertices /\
  skin_weights mNumVertices mBones =
    (if decide (mNumVertices = O) then Raise IndexError
     else OK ((fun row => last_n MAX_VERTEX_BONES (np_sort row)) <$> v_bone)).
Proof.
  intros Hfill.
  destruct (fill_bones_spec _ _ _ _ _ Hfill (shape_init _)) as [[Hlen _] _].
  split; [done|]. unfold skin_weights. rewrite Hfill. cbn [mbind result_bind].
  destruct v_bone as [|row rest].
  - by rewrite decide_True.
  - rewrite decide_False by (simpl in Hlen; lia).
    rewrite last_columns_rows by done. by rewrite <-list_fmap_compose.
Qed.

(** C1, amended.  When a mesh has at least one vertex and every vertex
    index listed by its first [MAX_BONES] bones is a vertex of the mesh,
    the construction succeeds and stores for every vertex a row of
    [MAX_VERTEX_BONES] = 4 entries: the last four of the vertex's
    [MAX_BONES] (weight, bone) entries sorted in ascending order of weight.
    So the stored weights ascend (highest last), no dropped entry weighs
    more than a stored one, and for a vertex listed by at most four bones,
    all with positive weights, the row is made of the [(0, 0)] pads
    followed by all the contributions in ascending order. *)
Theorem skin_weights_keep_highest mNumVertices mBones :
  let bones := take MAX_BONES mBones in
  (0 < mNumVertices)%nat ->
  Forall (fun bone =>
            Forall (fun e => (mVertexId e < mNumVertices)%nat) (mWeights bone))
         bones ->
  exists stored,
    skin_weights mNumVertices mBones = OK stored /\
    length stored = mNumVertices /\
    forall v row, stored !! v = Some row ->
      row = last_n MAX_VERTEX_BONES (np_sort (vertex_row bones v)) /\
      length row = MAX_VERTEX_BONES /\
      StronglySorted (fun a b : v_bone_entry => a.1 <= b.1) row /\
      (exists dropped,
         vertex_row bones v ≡ₚ dropped ++ row /\
         forall d s, d ∈ dropped -> s ∈ row -> d.1 <= s.1) /\
      (Forall (fun b => 0 < (influence bones v b).1) (influencing bones v) ->
       (length (influencing bones v) <= MAX_VERTEX_BONES)%nat ->
       row = replicate (MAX_VERTEX_BONES - length (influencing bones v)) (0, O)
             ++ np_sort (influence bones v <$> influencing bones v)).
Proof.
  intros bones Hn0 Hids.
  assert (length bones <= MAX_BONES)%nat as Hlb
    by (unfold bones; rewrite length_take; lia).
  destruct (fill_bones_ok mNumVertices O bones (v_bone_init mNumVertices))
    as [v_bone Hfill]; [apply shape_init|lia|done|].
  destruct (skin_weights_filled _ _ _ Hfill) as [Hlen Hskin].
  rewrite decide_False in Hskin by lia.
  eexists. split; [exact Hskin|].
  split; [by rewrite length_fmap|].
  intros v row Hrow. rewrite list_lookup_fmap, fmap_Some in Hrow.
  destruct Hrow as (vrow & Hv & ->).
  pose proof (lookup_lt_Some _ _ _ Hv) as Hvn.
  rewrite (fill_bones_rows _ _ _ _ Hfill) in Hv by lia.
  injection Hv as <-. cbv beta.
  set (S := np_sort (vertex_row bones v)).
  assert (length S = MAX_BONES) as HS
    by (unfold S; by rewrite np_sort_length, vertex_row_length).
  assert (StronglySorted entry_le
            (take (length S - MAX_VERTEX_BONES) S ++ last_n MAX_VERTEX_BONES S))
    as Hsorted by (unfold last_n; rewrite take_drop; apply np_sort_sorted).
  split; [done|]. split; [|split; [|split]].
  - unfold last_n. rewrite length_drop, HS.
    unfold MAX_BONES, MAX_VERTEX_BONES. lia.
  - apply (StronglySorted_weaken entry_le); [apply entry_le_weight|].
    by apply StronglySorted_app_1_r in Hsorted.
  - exists (take (length S - MAX_VERTEX_BONES) S). split.
    + unfold last_n. rewrite take_drop. unfold S. by rewrite np_sort_perm.
    + intros d s Hd Hs. apply entry_le_weight.
      by eapply StronglySorted_app_1_elem_of.
  - intros Hpos Hk. unfold last_n. rewrite HS. unfold S.
    rewrite np_sort_padded by done.
    rewrite drop_app_le.
    2:{ rewrite length_replicate. unfold MAX_BONES, MAX_VERTEX_BONES in *. lia. }
    rewrite drop_replicate. do 2 f_equal.
    unfold MAX_BONES, MAX_VERTEX_BONES in *. lia.
Qed.

Lemma skin_weights_keep_highest_witness :
  exists stored,
    skin_weights 1 six_bones = OK stored /\
    forall row, stored !! O = Some row ->
      length row = MAX_VERTEX_BONES /\
      StronglySorted (fun a b : v_bone_entry => a.1 <= b.1) row.
Proof.
  destruct (skin_weights_keep_highest 1 six_bones) as (stored & H1 & _ & H3).
  - lia.
  - repeat (constructor; [repeat constructor|]). constructor.
  - exists stored. split; [exact H1|].
    intros row Hrow. destruct (H3 O row Hrow) as (_ & H4 & H5 & _). by split.
Defined.

(* ================================================================== *)
(** * Further properties of the code *)

(** ** Construction and evaluation of key sets *)

(** X1.  [KeyFrames.__init__] loses no keyframe and keeps every value with
    its time: the stored times and values are as many as the input pairs,
    the times are in ascending order, and pairing them again gives the
    input pairs up to order; the blend function is stored as given. *)
Theorem KeyFrames_init_keeps_pairs {T} (vlt : T -> T -> result bool)
    pairs f self :
  KeyFrames_init vlt pairs f = OK self ->
  length (times self) = length pairs /\
  length (values self) = length pairs /\
  StronglySorted Qcle (times self) /\
  zip (times self) (values self) ≡ₚ pairs /\
  interpolate self = f.
Proof.
  intros (_ & [Hlen _ Hs] & Hf & Hp)%KeyFrames_init_inv.
  pose proof (Permutation_length Hp) as Hl.
  rewrite length_zip_with in Hl.
  repeat split; [lia|lia|done..].
Qed.

Lemma KeyFrames_init_keeps_pairs_witness :
  exists self,
    KeyFrames_init float_lt unordered_pairs lerp_scalar = OK self /\
    times self = [q 0 1; q 1 1; q 2 1] /\
    zip (times self) (values self) ≡ₚ unordered_pairs.
Proof.
  eexists. split; [reflexivity|]. split; [reflexivity|].
  eapply (KeyFrames_init_keeps_pairs float_lt unordered_pairs lerp_scalar).
  reflexivity.
Defined.

Lemma NoDup_fmap_eq {A B} (f : A -> B) (l : list A) x y :
  NoDup (f <$> l) -> x ∈ l -> y ∈ l -> f x = f y -> x = y.
Proof.
  intros Hnd [i Hi]%list_elem_of_lookup [j Hj]%list_elem_of_lookup Hxy.
  assert (i = j) as ->; [|congruence].
  apply (NoDup_lookup (f <$> l) i j (f x)); [done|..].
  - by rewrite list_lookup_fmap, Hi.
  - by rewrite list_lookup_fmap, Hj, Hxy.
Qed.

Lemma py_sorted_pairs_unique {T} (vlt : T -> T -> result bool) l1 l2 r1 r2 :
  l1 ≡ₚ l2 -> NoDup l1.*1 ->
  py_sorted (pair_lt vlt) l1 = OK r1 -> py_sorted (pair_lt vlt) l2 = OK r2 ->
  r1 = r2.
Proof.
  intros Hp Hnd H1 H2.
  pose proof (py_sorted_perm _ _ _ H1) as Hp1.
  pose proof (py_sorted_perm _ _ _ H2) as Hp2.
  assert (forall l r, py_sorted (pair_lt vlt) l = OK r ->
          StronglySorted (fun p r : Qc * T => p.1 <= r.1) r) as Hsorted.
  { intros l r. apply py_sorted_sorted.
    - intros x y. apply pair_lt_true.
    - intros x y. apply pair_lt_false.
    - intros x y z. apply Qcle_trans. }
  apply (StronglySorted_unique_strong (fun p r : Qc * T => p.1 <= r.1));
    [|by eapply Hsorted|by eapply Hsorted|by rewrite Hp1, Hp, Hp2].
  intros x1 x2 Hx1 Hx2 Hle1 Hle2.
  apply (NoDup_fmap_eq fst l1); [done|by rewrite <-Hp1|by rewrite Hp, <-Hp2|].
  by apply Qcle_antisym.
Qed.

(** X2.  The order in which key pairs with pairwise distinct times are
    given (the insertion order of a dict, the order of a list) has no
    effect on the key set that [KeyFrames.__init__] builds. *)
Theorem KeyFrames_init_order_irrelevant {T} (vlt : T -> T -> result bool)
    pairs1 pairs2 f :
  pairs1 ≡ₚ pairs2 -> NoDup pairs1.*1 ->
  KeyFrames_init vlt pairs1 f = KeyFrames_init vlt pairs2 f /\
  (pairs1 <> [] -> exists self, KeyFrames_init vlt pairs1 f = OK self).
Proof.
  intros Hp Hnd.
  destruct (decide (pairs1 = [])) as [->|Hne].
  { apply Permutation_nil_l in Hp as ->. by split. }
  assert (pairs2 <> []) as Hne2.
  { intros ->. by apply Permutation_nil_r in Hp. }
  assert (NoDup pairs2.*1) as Hnd2 by by rewrite <-Hp.
  destruct (KeyFrames_init_distinct vlt pairs1 f Hne Hnd) as (s1 & H1 & _).
  destruct (KeyFrames_init_distinct vlt pairs2 f Hne2 Hnd2) as (s2 & H2 & _).
  split; [|eauto].
  unfold KeyFrames_init in *.
  destruct (py_sorted (pair_lt vlt) pairs1) as [r1|] eqn:E1; [|done].
  destruct (py_sorted (pair_lt vlt) pairs2) as [r2|] eqn:E2; [|done].
  by rewrite (py_sorted_pairs_unique vlt pairs1 pairs2 r1 r2).
Qed.

Lemma KeyFrames_init_order_irrelevant_witness :
  KeyFrames_init float_lt unordered_pairs lerp_scalar =
  KeyFrames_init float_lt
    [(q 0 1, q 10 1); (q 1 1, q 20 1); (q 2 1, q 30 1)] lerp_scalar.
Proof.
  apply (KeyFrames_init_order_irrelevant float_lt unordered_pairs
           [(q 0 1, q 10 1); (q 1 1, q 20 1); (q 2 1, q 30 1)] lerp_scalar).
  - unfold unordered_pairs. apply Permutation_cons_append.
  - apply (bool_decide_unpack (NoDup unordered_pairs.*1)). vm_compute. exact I.
Defined.

(** X3.  [KeyFrames.value] never raises on a key set that the constructor
    accepted, even when two keyframes share a time; and for a time strictly
    between the first and the last keyframe time, the fraction it hands to
    the blend function lies in the interval (0, 1]. *)
Theorem value_fraction_in_range {T} (vlt : T -> T -> result bool)
    pairs f self :
  KeyFrames_init vlt pairs f = OK self ->
  (forall time, exists v, value self time = OK v) /\
  (forall t0 tN time,
     head (times self) = Some t0 -> last (times self) = Some tN ->
     t0 < time -> time < tN ->
     exists v_next v_prev fraction,
       value self time = OK (f v_next v_prev fraction) /\
       v_next ∈ values self /\ v_prev ∈ values self /\
       0 < fraction /\ fraction <= 1).
Proof.
  intros (_ & Hc & Hf & _)%KeyFrames_init_inv. split.
  - intros time. by apply value_total.
  - intros t0 tN time Ht0 HtN Hlo Hhi. rewrite head_lookup in Ht0.
    destruct (value_interior self t0 tN time Hc Ht0 HtN Hlo Hhi)
      as (i & t_prev & t_next & v_prev & v_next
          & _ & _ & _ & _ & Hvp & Hvn & Hlt & Hle & Hval).
    exists v_next, v_prev, ((time - t_prev) / (t_next - t_prev)).
    rewrite <-Hf. split; [done|].
    split; [by eapply list_elem_of_lookup_2|].
    split; [by eapply list_elem_of_lookup_2|].
    assert (0 < time - t_prev) as Hnum.
    { apply (Qcplus_lt_mono_r _ _ t_prev).
      by replace (time - t_prev + t_prev) with time by ring;
         rewrite Qcplus_0_l. }
    assert (time - t_prev <= t_next - t_prev) as Hnd.
    { apply (Qcplus_le_mono_r _ _ t_prev).
      by replace (time - t_prev + t_prev) with time by ring;
         replace (t_next - t_prev + t_prev) with t_next by ring. }
    assert (0 < t_next - t_prev) as Hden by by eapply Qclt_le_trans.
    assert (t_next - t_prev <> 0) as Hnz.
    { intros Hz. rewrite Hz in Hden. by apply Qclt_not_eq in Hden. }
    split.
    + unfold Qcdiv. by apply Qcmult_pos_pos; [|apply Qcinv_pos].
    + apply (Qcmult_le_mono_pos_r _ _ (t_next - t_prev)); [done|].
      by rewrite test_field, Qcmult_1_l.
Qed.

Lemma value_fraction_in_range_witness :
  exists self,
    KeyFrames_init float_lt unordered_pairs lerp_scalar = OK self /\
    exists v_next v_prev fraction,
      value self (q 1 2) = OK (lerp_scalar v_next v_prev fraction) /\
      0 < fraction /\ fraction <= 1.
Proof.
  eexists. split; [reflexivity|].
  destruct (value_fraction_in_range float_lt unordered_pairs lerp_scalar _
              eq_refl) as [_ Hin].
  destruct (Hin (q 0 1) (q 2 1) (q 1 2) eq_refl eq_refl eq_refl eq_refl)
    as (v_next & v_prev & fraction & Hv & _ & _ & H0 & H1).
  by exists v_next, v_prev, fraction.
Defined.

Lemma value_single {T} (t : Qc) (v : T) f time :
  value (mkKeyFrames [t] [v] f) time = OK v.
Proof.
  destruct (decide (time <= t)) as [Hle|Hgt].
  - by apply (value_low _ t v).
  - apply Qcnot_le_lt in Hgt.
    apply (value_high _ t t v); [done..|by apply Qclt_le_weak].
Qed.

(** X4.  A transform track built from one key per component is constant:
    construction succeeds (no comparison is needed to sort one pair) and at
    every time the value is the product of the three matrices of the
    stored values. *)
Theorem single_key_track_is_constant `{Transform}
    (t1 t2 t3 : Qc) (a r s : array) :
  exists self,
    TransformKeyFrames_init
      (Some [(t1, a)]) (Some [(t2, r)]) (Some [(t3, s)]) = OK self /\
    forall time,
      TransformKeyFrames_value self time =
      OK (translate a @@ quaternion_matrix r @@ scale s).
Proof.
  eexists. split; [reflexivity|]. intros time.
  unfold TransformKeyFrames_value.
  cbn [translate_keys rotate_keys scale_keys fmap list_fmap fst snd].
  by rewrite !value_single.
Qed.

(** ** What a traversal changes *)

Section traversal_frames.
Context `{Transform}.
Variable glfw_get_time : nat -> Qc.

Lemma node_ids_Node self children :
  node_ids (Node self children) = self :: node_ids_all children.
Proof.
  reflexivity.
Qed.

Lemma respects_bind {A B} (R : relation world) `{!PreOrder R}
    (m : Py A) (f : A -> Py B) :
  respects R m -> (forall a, respects R (f a)) -> respects R (m ≫= f).
Proof.
  intros Hm Hf w. rewrite Py_bind_eq. specialize (Hm w).
  destruct (m w) as [[a|e] w']; cbn [snd] in *; [|done].
  etrans; [exact Hm|]. apply Hf.
Qed.

Lemma respects_pure {A} (R : relation world) `{!PreOrder R} (m : Py A) :
  (forall w, (m w).2 = w) -> respects R m.
Proof. intros Hm w. by rewrite Hm. Qed.

Lemma respects_get_world_transform (R : relation world) `{!PreOrder R} n :
  respects R (get_world_transform n).
Proof.
  apply respects_pure; [done|]. intros w. unfold get_world_transform.
  rewrite Py_bind_eq. cbn [get_object]. by destruct (objects w n).
Qed.

(** A relation kept by [emit], by a clock reading and by the node updates
    of the nodes of a drawable is kept by the whole traversal of the
    drawable. *)
Lemma respects_draw (R : relation world) `{!PreOrder R} d :
  (forall c, respects R (emit c)) ->
  respects R (get_time glfw_get_time) ->
  (forall self M, self ∈ node_ids d ->
     respects R (update_node glfw_get_time self M)) ->
  forall P V M, respects R (draw glfw_get_time d P V M).
Proof.
  intros Hemit Htime.
  induction d as [name|name bn bo|name bn bo|self children IH]
    using drawable_induction; intros Hupd P V M.
  - apply respects_bind; [done|apply Hemit|]. intros _. apply Hemit.
  - cbn [draw]. clear Hupd.
    apply respects_bind; [done|apply Hemit|]. intros _.
    apply respects_bind; [done|apply Htime|]. intros _.
    apply respects_bind; [done| |].
    + generalize O. induction bn as [|node rest IHbn]; intros bone_id.
      * by apply respects_pure.
      * cbn [bone_matrix_loop].
        apply respects_bind; [done|by apply respects_get_world_transform|].
        intros ?. apply respects_bind; [done|by apply respects_pure|].
        intros ?. apply respects_bind; [done|apply Hemit|]. intros _.
        apply IHbn.
    + intros _. apply respects_bind; [done|by apply respects_pure|].
      intros _. apply Hemit.
  - cbn [draw]. clear Hupd. apply respects_bind; [done| |].
    + induction bn as [|node rest IHbn].
      * by apply respects_pure.
      * cbn [world_transforms].
        apply respects_bind; [done|by apply respects_get_world_transform|].
        intros ?. apply respects_bind; [done|apply IHbn|].
        intros ?. by apply respects_pure.
    + intros ?. apply respects_bind; [done|by apply respects_pure|].
      intros ?. apply respects_bind; [done|apply Hemit|]. intros _.
      apply respects_bind; [done|apply Hemit|]. intros _. apply Hemit.
  - rewrite draw_Node. rewrite node_ids_Node in Hupd.
    apply respects_bind; [done|apply Hupd; by left|]. intros _.
    assert (forall n M', n ∈ node_ids_all children ->
              respects R (update_node glfw_get_time n M')) as Hupd'.
    { intros n M' Hn. apply Hupd. by right. }
    clear Hupd. induction IH as [|c cs Hc _ IHcs]; [by apply respects_pure|].
    cbn [draw_children node_ids_all] in *.
    apply respects_bind; [done|by apply respects_pure|]. intros o.
    apply respects_bind; [done| |].
    + apply Hc. intros n M' Hn. apply Hupd'. apply elem_of_app. by left.
    + intros _. apply IHcs. intros n M' Hn. apply Hupd'.
      apply elem_of_app. by right.
Qed.

#[local] Instance untouched_preorder n : PreOrder (untouched n).
Proof.
  split; [done|]. intros w1 w2 w3 H1 H2. unfold untouched in *. congruence.
Qed.

#[local] Instance same_classes_preorder : PreOrder same_classes.
Proof.
  split; [done|]. intros w1 w2 w3 H1 H2 n.
  destruct (H1 n) as [? ?], (H2 n) as [? ?]. split; congruence.
Qed.

Lemma update_node_untouched n self M :
  self <> n -> respects (untouched n) (update_node glfw_get_time self M).
Proof.
  intros Hne w. unfold update_node, untouched.
  unfold mbind, Py_bind, mret, Py_ret, get_time, lift, get_object, set_object.
  destruct (objects w self) as [t|t k|t [k|] wt] eqn:E;
    try destruct (TransformKeyFrames_value _ _) as [m|e];
    cbn [snd objects]; repeat case_decide; subst; done.
Qed.

Lemma update_node_same_classes self M :
  respects same_classes (update_node glfw_get_time self M).
Proof.
  intros w n. unfold update_node.
  unfold mbind, Py_bind, mret, Py_ret, get_time, lift, get_object, set_object.
  destruct (objects w self) as [t|t k|t [k|] wt] eqn:E;
    try destruct (TransformKeyFrames_value _ _) as [m|e];
    cbn [snd objects with_transform with_world_transform transform_of];
    repeat case_decide; subst; rewrite ?E; done.
Qed.

Lemma draw_untouched d P V M w n :
  n ∉ node_ids d ->
  objects (draw glfw_get_time d P V M w).2 n = objects w n.
Proof.
  intros Hn. apply (respects_draw (untouched n)); [done..|].
  intros self M' Hself. apply update_node_untouched. by intros ->.
Qed.

Lemma draw_all_untouched cs P V M w n :
  n ∉ node_ids_all cs ->
  objects (draw_all glfw_get_time cs P V M w).2 n = objects w n.
Proof.
  revert w. induction cs as [|c cs IH]; intros w Hn; [done|].
  cbn [draw_all node_ids_all] in *. rewrite Py_bind_eq.
  apply not_elem_of_app in Hn as [Hc Hcs].
  pose proof (draw_untouched c P V M w n Hc) as Hw.
  destruct (draw glfw_get_time c P V M w) as [[[]|e] w']; cbn [snd] in *;
    [|done].
  by rewrite IH.
Qed.

(** A node that does not occur below itself hands one and the same model
    matrix to all of its children. *)
Lemma draw_children_not_below self cs P V M w :
  self ∉ node_ids_all cs ->
  draw_children glfw_get_time self cs P V M w =
  draw_all glfw_get_time cs P V (M @@ transform_of (objects w self)) w.
Proof.
  revert w. induction cs as [|c cs IH]; intros w Hn; [done|].
  cbn [draw_children draw_all node_ids_all] in *.
  apply not_elem_of_app in Hn as [Hc Hcs].
  rewrite Py_bind_eq. cbn [get_object]. rewrite !Py_bind_eq.
  pose proof (draw_untouched c P V
                (M @@ transform_of (objects w self)) w self Hc) as Hw.
  destruct (draw glfw_get_time c P V _ w) as [[[]|e] w']; cbn [snd] in *;
    [|done].
  rewrite IH by done. by rewrite Hw.
Qed.

(** X5.  Drawing a drawable changes no node object other than those that
    occur in it: a mesh changes none, a node changes at most itself and
    the nodes below it. *)
Theorem draw_changes_only_its_nodes d P V M w n :
  n ∉ node_ids d ->
  objects (draw glfw_get_time d P V M w).2 n = objects w n.
Proof. apply draw_untouched. Qed.

(** X6.  Whatever is drawn, whether it raises or not, no node changes
    class and no node gains, loses or changes its keyframe track. *)
Theorem draw_keeps_classes_and_tracks d P V M w n :
  class_of (objects (draw glfw_get_time d P V M w).2 n) = class_of (objects w n) /\
  keyframes_of (objects (draw glfw_get_time d P V M w).2 n) =
    keyframes_of (objects w n).
Proof.
  apply (respects_draw same_classes); [done..|].
  intros self M' _. apply update_node_same_classes.
Qed.

End traversal_frames.

Lemma draw_changes_only_its_nodes_witness :
  objects (draw frame_clock (Node 1%nat [Mesh 7%nat; Node 2%nat []])
                identity identity identity animated_world).2 0%nat =
  objects animated_world 0%nat.
Proof.
  apply (draw_changes_only_its_nodes frame_clock
           (Node 1%nat [Mesh 7%nat; Node 2%nat []])
           identity identity identity animated_world 0%nat).
  apply (bool_decide_unpack
           (0%nat ∉ node_ids (Node 1%nat [Mesh 7%nat; Node 2%nat []]))).
  vm_compute. exact I.
Defined.

(** ** Scenes of plain nodes and meshes *)

Section static_scenes.
Context `{Transform}.
Variable glfw_get_time : nat -> Qc.

Lemma static_calls_Node o self children P V M :
  static_calls o (Node self children) P V M =
  static_calls_all o children P V (M @@ transform_of (o self)).
Proof.
  cbn [static_calls]. induction children as [|c cs IH]; [done|].
  cbn [static_calls_all]. by rewrite <-IH.
Qed.

Lemma static_calls_length o d P V M :
  plain d = true -> length (static_calls o d P V M) = (2 * mesh_count d)%nat.
Proof.
  revert M.
  induction d as [name|name bn bo|name bn bo|self children IH]
    using drawable_induction; intros M Hp; try done.
  rewrite static_calls_Node.
  change (mesh_count (Node self children)) with (mesh_count_all children).
  change (plain (Node self children)) with (plain_all children) in Hp.
  generalize (M @@ transform_of (o self)) as M'. intros M'.
  induction IH as [|c cs Hc _ IHcs]; [done|].
  cbn [plain_all static_calls_all mesh_count_all] in *.
  apply andb_true_iff in Hp as [Hpc Hpcs].
  rewrite length_app, Hc, IHcs by done. lia.
Qed.

Lemma node_class_ONode (o : node_obj) :
  class_of o = NodeClass -> o = ONode (transform_of o).
Proof. by destruct o. Qed.

Lemma draw_plain d : forall P V M w,
  plain d = true ->
  (forall n, n ∈ node_ids d -> class_of (objects w n) = NodeClass) ->
  draw glfw_get_time d P V M w =
  (OK tt, mkWorld _ (objects w) (clock w)
                  (gl w ++ static_calls (objects w) d P V M)).
Proof.
  induction d as [name|name bn bo|name bn bo|self children IH]
    using drawable_induction; intros P V M w Hp Hc; try done.
  - cbn [draw static_calls]. rewrite Py_bind_eq. unfold emit.
    cbn [objects clock gl]. by rewrite <-(assoc_L (++)).
  - rewrite node_ids_Node in Hc.
    pose proof (node_class_ONode _ (Hc self ltac:(by left))) as E.
    rewrite (draw_static_Node _ _ _ _ _ _ _ _ E), static_calls_Node.
    change (plain (Node self children)) with (plain_all children) in Hp.
    assert (forall n, n ∈ node_ids_all children ->
              class_of (objects w n) = NodeClass) as Hcs
      by (intros n Hn; apply Hc; by right).
    clear Hc E. generalize (M @@ transform_of (objects w self)). intros M'.
    assert (forall w', objects w' = objects w ->
              draw_all glfw_get_time children P V M' w' =
              (OK tt, mkWorld _ (objects w') (clock w')
                        (gl w' ++ static_calls_all (objects w) children P V M')))
      as Hall; [|by apply Hall].
    induction IH as [|c cs Hc _ IHcs]; intros w' Hw'.
    { cbn [draw_all static_calls_all]. rewrite app_nil_r. by destruct w'. }
    cbn [plain_all node_ids_all draw_all static_calls_all] in *.
    apply andb_true_iff in Hp as [Hpc Hpcs].
    rewrite Py_bind_eq, Hc; [|done|].
    2:{ intros n Hn. rewrite Hw'. apply Hcs, elem_of_app. by left. }
    rewrite IHcs; [|done| |done].
    2:{ intros n Hn. apply Hcs, elem_of_app. by right. }
    cbn [objects clock gl]. by rewrite Hw', <-(assoc_L (++)).
Qed.

(** X8.  A scene made of plain nodes and plain meshes only is drawn
    without an exception, without a clock reading and without changing any
    node; the backend receives, for every mesh in pre-order, its uniforms
    with the product of the model matrix and of the local transforms of
    the nodes above the mesh, followed by its draw call: two calls per
    mesh. *)
Theorem static_scene_calls d P V M w :
  plain d = true ->
  (forall n, n ∈ node_ids d -> class_of (objects w n) = NodeClass) ->
  draw glfw_get_time d P V M w =
    (OK tt, mkWorld _ (objects w) (clock w)
                    (gl w ++ static_calls (objects w) d P V M)) /\
  length (static_calls (objects w) d P V M) = (2 * mesh_count d)%nat.
Proof.
  intros Hp Hc. split; [by apply draw_plain|by apply static_calls_length].
Qed.

(** X9.  Below a chain of plain nodes of any length, a drawable is drawn
    with the model matrix multiplied on the right by the local transforms
    of the chain, from the top down: [M @ L1 @ ... @ Lk]. *)
Theorem chain_model_matrix ids leaf P V M w :
  (forall n, n ∈ ids -> class_of (objects w n) = NodeClass) ->
  draw glfw_get_time (chain ids leaf) P V M w =
  draw glfw_get_time leaf P V
    (foldl matmul M ((fun n => transform_of (objects w n)) <$> ids)) w.
Proof.
  revert M. induction ids as [|n ids IH]; intros M Hc; [done|].
  cbn [chain foldr fmap list_fmap foldl]. fold (chain ids leaf).
  pose proof (node_class_ONode _ (Hc n ltac:(by left))) as E.
  rewrite (draw_static_Node _ _ _ _ _ _ _ _ E). cbn [draw_all].
  rewrite Py_bind_eq, IH by (intros m Hm; apply Hc; by right).
  by destruct (draw glfw_get_time leaf P V _ w) as [[[]|e] w'].
Qed.

(** X10.  When the draw of a child raises, the exception leaves the
    node's draw at once: the children after it are not drawn, and the
    state is the one the child left. *)
Theorem child_exception_stops_siblings self L cs1 c cs2 P V M w w1 w2 e :
  objects w self = ONode L ->
  draw_all glfw_get_time cs1 P V (M @@ L) w = (OK tt, w1) ->
  draw glfw_get_time c P V (M @@ L) w1 = (Raise e, w2) ->
  draw glfw_get_time (Node self (cs1 ++ c :: cs2)) P V M w = (Raise e, w2).
Proof.
  intros E H1 H2. rewrite (draw_static_Node _ _ _ _ _ _ _ _ E).
  rewrite draw_all_app, Py_bind_eq, H1. cbn [draw_all].
  by rewrite Py_bind_eq, H2.
Qed.

End static_scenes.

Lemma static_scene_calls_witness :
  draw frame_clock (Node 0%nat [Mesh 7%nat; Node 1%nat [Mesh 8%nat]])
       identity identity identity static_world =
  (OK tt, mkWorld _ (objects static_world) O
            [Uniforms 7%nat identity identity
               (identity @@ scale4 (v4 2 2 2 0));
             Execute 7%nat;
             Uniforms 8%nat identity identity
               (identity @@ scale4 (v4 2 2 2 0) @@ scale4 (v4 3 3 3 0));
             Execute 8%nat]).
Proof.
  apply (static_scene_calls frame_clock
           (Node 0%nat [Mesh 7%nat; Node 1%nat [Mesh 8%nat]])
           identity identity identity static_world).
  - reflexivity.
  - intros n _. reflexivity.
Defined.

Lemma chain_model_matrix_witness :
  draw frame_clock (chain [0%nat; 1%nat; 2%nat; 3%nat] (Mesh 7%nat))
       identity identity identity static_world =
  draw frame_clock (Mesh 7%nat) identity identity
       (identity @@ scale4 (v4 2 2 2 0) @@ scale4 (v4 3 3 3 0)
        @@ scale4 (v4 4 4 4 0) @@ scale4 (v4 5 5 5 0)) static_world.
Proof.
  apply (chain_model_matrix frame_clock [0%nat; 1%nat; 2%nat; 3%nat]
           (Mesh 7%nat) identity identity identity static_world).
  intros n _. reflexivity.
Defined.

Lemma child_exception_stops_siblings_witness :
  draw frame_clock
       (Node 0%nat ([Mesh 7%nat] ++ SkinnedMesh 8%nat [1%nat] [identity]
                    :: [Mesh 9%nat]))
       identity identity identity static_world =
  (Raise AttributeError,
   mkWorld _ (objects static_world) O
     [Uniforms 7%nat identity identity (identity @@ scale4 (v4 2 2 2 0));
      Execute 7%nat]).
Proof.
  apply (child_exception_stops_siblings frame_clock 0%nat
           (scale4 (v4 2 2 2 0)) [Mesh 7%nat]
           (SkinnedMesh 8%nat [1%nat] [identity]) [Mesh 9%nat]
           identity identity identity static_world
           (mkWorld _ (objects static_world) O
              [Uniforms 7%nat identity identity
                 (identity @@ scale4 (v4 2 2 2 0));
               Execute 7%nat]));
    reflexivity.
Defined.

(** ** Animated nodes and bones *)

Section animated_nodes.
Context `{Transform}.
Variable glfw_get_time : nat -> Qc.

Lemma update_node_KeyFrameControlNode self M w L k :
  objects w self = OKeyFrameControlNode L k ->
  update_node glfw_get_time self M w =
  match TransformKeyFrames_value k (glfw_get_time (clock w)) with
  | OK T =>
      (OK tt, mkWorld _ (fun m => if decide (m = self)
                                  then OKeyFrameControlNode T k
                                  else objects w m)
                      (S (clock w)) (gl w))
  | Raise e => (Raise e, mkWorld _ (objects w) (S (clock w)) (gl w))
  end.
Proof.
  intros E. unfold update_node. rewrite Py_bind_eq. cbn [get_object].
  rewrite E, Py_bind_eq. cbn [get_time]. rewrite Py_bind_eq. unfold lift.
  by destruct (TransformKeyFrames_value k _).
Qed.

Lemma update_node_tracked self M w L k W T :
  objects w self = OSkinningControlNode L (Some k) W ->
  TransformKeyFrames_value k (glfw_get_time (clock w)) = OK T ->
  exists w1,
    update_node glfw_get_time self M w = (OK tt, w1) /\
    objects w1 self = OSkinningControlNode T (Some k) (M @@ T) /\
    (forall m, m <> self -> objects w1 m = objects w m) /\
    clock w1 = S (clock w) /\ gl w1 = gl w.
Proof.
  intros E HT. unfold update_node. rewrite Py_bind_eq. cbn [get_object].
  rewrite E, Py_bind_eq, Py_bind_eq. cbn [get_time]. rewrite Py_bind_eq.
  unfold lift. rewrite HT. cbn [set_object with_transform objects clock gl].
  rewrite Py_bind_eq. cbn [get_object set_object objects clock gl].
  rewrite decide_True by done.
  eexists. split; [reflexivity|]. cbn [objects clock gl].
  rewrite decide_True by done. repeat split.
  intros m Hm. by rewrite !decide_False by done.
Qed.

Lemma update_node_untracked self M w X W :
  objects w self = OSkinningControlNode X None W ->
  update_node glfw_get_time self M w =
  (OK tt, mkWorld _ (fun m => if decide (m = self)
                              then OSkinningControlNode X None (M @@ X)
                              else objects w m)
                  (clock w) (gl w)).
Proof.
  intros E. unfold update_node. rewrite Py_bind_eq. cbn [get_object]. rewrite E.
  rewrite !Py_bind_eq. cbn [mret Py_ret]. rewrite Py_bind_eq.
  cbn [get_object]. by rewrite E.
Qed.

(** X11.  A [KeyFrameControlNode] whose track was built by the
    constructor reads the clock once per draw, replaces its local
    transform by the value [T] of the track at that reading and, when it
    does not occur below itself, draws all of its children with
    [model @ T]; it still holds [T] when the draw returns or raises. *)
Theorem KeyFrameControlNode_draw tk rk sk k self L children P V M w :
  TransformKeyFrames_init tk rk sk = OK k ->
  objects w self = OKeyFrameControlNode L k ->
  self ∉ node_ids_all children ->
  exists T,
    TransformKeyFrames_value k (glfw_get_time (clock w)) = OK T /\
    draw glfw_get_time (Node self children) P V M w =
      draw_all glfw_get_time children P V (M @@ T)
        (mkWorld _ (fun m => if decide (m = self)
                             then OKeyFrameControlNode T k
                             else objects w m)
                 (S (clock w)) (gl w)) /\
    objects (draw glfw_get_time (Node self children) P V M w).2 self =
      OKeyFrameControlNode T k.
Proof.
  intros Hinit E Hself.
  destruct (TransformKeyFrames_value_ok _ _ _ _ (glfw_get_time (clock w)) Hinit)
    as (vT & vR & vS & _ & _ & _ & HT).
  eexists. split; [exact HT|].
  assert (draw glfw_get_time (Node self children) P V M w =
          draw_all glfw_get_time children P V
            (M @@ (translate vT @@ quaternion_matrix vR @@ scale vS))
            (mkWorld _ (fun m => if decide (m = self)
                                 then OKeyFrameControlNode
                                        (translate vT @@ quaternion_matrix vR
                                         @@ scale vS) k
                                 else objects w m)
                     (S (clock w)) (gl w))) as Hd.
  { rewrite draw_Node, Py_bind_eq.
    rewrite (update_node_KeyFrameControlNode _ _ _ _ _ E), HT.
    rewrite draw_children_not_below by done. cbn [objects].
    by rewrite decide_True. }
  split; [exact Hd|]. rewrite Hd, draw_all_untouched by done.
  cbn [objects]. by rewrite decide_True.
Qed.

(** X12.  A [SkinningControlNode] with a track built by the constructor
    does the same and also publishes [model @ T] as its world transform,
    before any of its children is drawn. *)
Theorem SkinningControlNode_draw_tracked tk rk sk k self L W children P V M w :
  TransformKeyFrames_init tk rk sk = OK k ->
  objects w self = OSkinningControlNode L (Some k) W ->
  self ∉ node_ids_all children ->
  exists T w1,
    TransformKeyFrames_value k (glfw_get_time (clock w)) = OK T /\
    objects w1 self = OSkinningControlNode T (Some k) (M @@ T) /\
    (forall m, m <> self -> objects w1 m = objects w m) /\
    clock w1 = S (clock w) /\ gl w1 = gl w /\
    draw glfw_get_time (Node self children) P V M w =
      draw_all glfw_get_time children P V (M @@ T) w1 /\
    objects (draw glfw_get_time (Node self children) P V M w).2 self =
      OSkinningControlNode T (Some k) (M @@ T).
Proof.
  intros Hinit E Hself.
  destruct (TransformKeyFrames_value_ok _ _ _ _ (glfw_get_time (clock w)) Hinit)
    as (vT & vR & vS & _ & _ & _ & HT).
  destruct (update_node_tracked self M w L k W _ E HT)
    as (w1 & Hu & Ho & Hother & Hclock & Hgl).
  exists (translate vT @@ quaternion_matrix vR @@ scale vS), w1.
  repeat (split; [done|]).
  assert (draw glfw_get_time (Node self children) P V M w =
          draw_all glfw_get_time children P V
            (M @@ (translate vT @@ quaternion_matrix vR @@ scale vS)) w1) as Hd.
  { rewrite draw_Node, Py_bind_eq, Hu.
    rewrite draw_children_not_below by done. by rewrite Ho. }
  split; [exact Hd|]. by rewrite Hd, draw_all_untouched.
Qed.

Lemma draw_leaf_node self P V M w :
  draw glfw_get_time (Node self []) P V M w = update_node glfw_get_time self M w.
Proof.
  rewrite draw_Node, Py_bind_eq. cbn [draw_children].
  by destruct (update_node glfw_get_time self M w) as [[[]|e] w'].
Qed.

Lemma draw_Skinned_ok name bone_nodes bone_offsets P V M w :
  length bone_nodes = length bone_offsets ->
  (forall n, n ∈ bone_nodes -> is_Some (world_transform_of (objects w n))) ->
  draw glfw_get_time (SkinnedMesh name bone_nodes bone_offsets) P V M w =
  (OK tt,
   mkWorld _ (objects w) (clock w)
     (gl w ++ [UniformBoneMatrices name (length bone_nodes)
                 (zip_with matmul (bone_world_transforms w bone_nodes)
                           bone_offsets);
               Uniforms name P V M; Execute name])).
Proof.
  intros Hlen Hn. cbn [draw]. rewrite Py_bind_eq, world_transforms_ok by done.
  rewrite Py_bind_eq. unfold lift.
  rewrite stack_matmul_same_length
    by (unfold bone_world_transforms; by rewrite length_fmap).
  rewrite Py_bind_eq. unfold emit at 1. rewrite Py_bind_eq. unfold emit.
  cbn [objects clock gl]. by rewrite <-!(assoc_L (++)).
Qed.

(** X13.  Bone matrices follow the order of the traversal.  Below a plain
    node [r], a skinned mesh drawn after its bone node uploads the world
    transform the bone has just published, [(M @ R) @ X], times the
    offset; drawn before its bone node it uploads the world transform the
    bone held before the draw, [W], times the offset, although the bone
    publishes the new one in the same draw. *)
Theorem bone_matrix_follows_traversal_order r b R X W name offset P V M w :
  objects w r = ONode R ->
  objects w b = OSkinningControlNode X None W ->
  let w' := mkWorld _ (fun m => if decide (m = b)
                                then OSkinningControlNode X None ((M @@ R) @@ X)
                                else objects w m)
                    (clock w) in
  draw glfw_get_time (Node r [Node b []; SkinnedMesh name [b] [offset]])
       P V M w =
    (OK tt, w' (gl w ++ [UniformBoneMatrices name 1
                           [((M @@ R) @@ X) @@ offset];
                         Uniforms name P V (M @@ R); Execute name])) /\
  draw glfw_get_time (Node r [SkinnedMesh name [b] [offset]; Node b []])
       P V M w =
    (OK tt, w' (gl w ++ [UniformBoneMatrices name 1 [W @@ offset];
                         Uniforms name P V (M @@ R); Execute name])).
Proof.
  intros Er Eb w'. split.
  - rewrite (draw_static_Node _ _ _ _ _ _ _ _ Er). cbn [draw_all].
    rewrite Py_bind_eq, draw_leaf_node, (update_node_untracked _ _ _ _ _ Eb).
    rewrite Py_bind_eq, draw_Skinned_ok; [|done|].
    2:{ intros n ->%list_elem_of_singleton. cbn [objects].
        by rewrite decide_True. }
    cbn [bone_world_transforms fmap list_fmap objects clock gl].
    rewrite decide_True by done. done.
  - rewrite (draw_static_Node _ _ _ _ _ _ _ _ Er). cbn [draw_all].
    rewrite Py_bind_eq, draw_Skinned_ok; [|done|].
    2:{ intros n ->%list_elem_of_singleton. by rewrite Eb. }
    rewrite Py_bind_eq, draw_leaf_node.
    rewrite (update_node_untracked _ _ _ X W) by done.
    cbn [bone_world_transforms fmap list_fmap objects clock gl].
    rewrite Eb. done.
Qed.

End animated_nodes.

Lemma track_demo_init :
  TransformKeyFrames_init translate_demo rotate_demo scale_demo = OK track_demo.
Proof. reflexivity. Qed.

Lemma KeyFrameControlNode_draw_witness :
  exists T,
    TransformKeyFrames_value track_demo (frame_clock O) = OK T /\
    objects (draw frame_clock (Node 0%nat [Mesh 7%nat; Node 2%nat []])
                  identity identity identity animated_world).2 0%nat =
      OKeyFrameControlNode T track_demo.
Proof.
  destruct (KeyFrameControlNode_draw frame_clock
              translate_demo rotate_demo scale_demo track_demo 0%nat identity
              [Mesh 7%nat; Node 2%nat []] identity identity identity
              animated_world track_demo_init eq_refl) as (T & HT & _ & Ho).
  - apply (bool_decide_unpack
             (0%nat ∉ node_ids_all [Mesh 7%nat; Node 2%nat []])).
    vm_compute. exact I.
  - by exists T.
Defined.

Lemma SkinningControlNode_draw_tracked_witness :
  exists T,
    TransformKeyFrames_value track_demo (frame_clock O) = OK T /\
    objects (draw frame_clock (Node 1%nat [Mesh 7%nat; Node 2%nat []])
                  identity identity (scale4 (v4 2 2 2 0)) animated_world).2
            1%nat =
      OSkinningControlNode T (Some track_demo) (scale4 (v4 2 2 2 0) @@ T).
Proof.
  destruct (SkinningControlNode_draw_tracked frame_clock
              translate_demo rotate_demo scale_demo track_demo 1%nat identity
              identity [Mesh 7%nat; Node 2%nat []] identity identity
              (scale4 (v4 2 2 2 0)) animated_world track_demo_init eq_refl)
    as (T & w1 & HT & _ & _ & _ & _ & _ & Ho).
  - apply (bool_decide_unpack
             (1%nat ∉ node_ids_all [Mesh 7%nat; Node 2%nat []])).
    vm_compute. exact I.
  - by exists T.
Defined.

Lemma bone_matrix_follows_traversal_order_witness :
  draw frame_clock
       (Node 0%nat [SkinnedMesh 7%nat [1%nat] [identity]; Node 1%nat []])
       identity identity identity bone_world =
  (OK tt,
   mkWorld _ (fun m => if decide (m = 1%nat)
                       then OSkinningControlNode (translate4 (v4 1 0 0 0)) None
                              ((identity @@ scale4 (v4 2 2 2 0))
                               @@ translate4 (v4 1 0 0 0))
                       else objects bone_world m)
           O
           [UniformBoneMatrices 7%nat 1 [scale4 (v4 5 5 5 0) @@ identity];
            Uniforms 7%nat identity identity (identity @@ scale4 (v4 2 2 2 0));
            Execute 7%nat]).
Proof.
  destruct (bone_matrix_follows_traversal_order frame_clock 0%nat 1%nat
              (scale4 (v4 2 2 2 0)) (translate4 (v4 1 0 0 0))
              (scale4 (v4 5 5 5 0)) 7%nat identity identity identity identity
              bone_world eq_refl eq_refl) as [_ Hstale].
  exact Hstale.
Defined.

(** ** Skinned drawables with unusable bones or offsets *)

Lemma py_index_ge {A} (l : list A) (i : nat) :
  (length l <= i)%nat -> py_index l (Z.of_nat i) = Raise IndexError.
Proof.
  intros Hle. unfold py_index.
  replace (Z.of_nat i <? 0)%Z with false by (symmetry; apply Z.ltb_ge; lia).
  replace (Z.of_nat i <? Z.of_nat (length l))%Z with false
    by (symmetry; apply Z.ltb_ge; lia).
  by rewrite andb_false_r.
Qed.

Lemma zip_with_app_surplus {A B C} (f : A -> B -> C) l k k' :
  (length l <= length k)%nat -> zip_with f l (k ++ k') = zip_with f l k.
Proof.
  revert k. induction l as [|x l IH]; intros [|y k] Hlen; simpl in *;
    try done; try lia.
  f_equal. apply IH. lia.
Qed.

Section unusable_bones.
Context `{Transform}.
Variable glfw_get_time : nat -> Qc.

Lemma get_world_transform_None node w :
  world_transform_of (objects w node) = None ->
  get_world_transform node w = (Raise AttributeError, w).
Proof.
  intros E. unfold get_world_transform. rewrite Py_bind_eq. cbn [get_object].
  by destruct (objects w node).
Qed.

Lemma world_transforms_None pre n post w :
  world_transform_of (objects w n) = None ->
  world_transforms (pre ++ n :: post) w = (Raise AttributeError, w).
Proof.
  intros En. induction pre as [|m pre IH]; cbn [app world_transforms].
  - by rewrite Py_bind_eq, get_world_transform_None.
  - rewrite Py_bind_eq. unfold get_world_transform at 1.
    rewrite Py_bind_eq. cbn [get_object].
    destruct (objects w m); try done.
    cbn [mret Py_ret]. by rewrite Py_bind_eq, IH.
Qed.

Lemma bone_matrix_loop_short name bone_offsets bone_nodes bone_id w :
  (forall n, n ∈ bone_nodes -> is_Some (world_transform_of (objects w n))) ->
  (bone_id <= length bone_offsets < bone_id + length bone_nodes)%nat ->
  bone_matrix_loop name bone_offsets bone_id bone_nodes w =
  (Raise IndexError,
   mkWorld _ (objects w) (clock w)
     (gl w ++ bone_uploads name bone_id
                (zip_with matmul (bone_world_transforms w bone_nodes)
                          (drop bone_id bone_offsets)))).
Proof.
  revert bone_id w.
  induction bone_nodes as [|node rest IH]; intros bone_id w Hn Hlen.
  { simpl in Hlen. lia. }
  destruct (Hn node) as [W HW]; [by left|].
  cbn [bone_matrix_loop]. rewrite Py_bind_eq, (get_world_transform_ok _ _ _ HW).
  rewrite Py_bind_eq. unfold lift at 1.
  destruct (decide (bone_id < length bone_offsets)%nat) as [Hlt|Hge].
  - destruct (lookup_lt_is_Some_2 bone_offsets bone_id) as [O HO]; [done|].
    rewrite (py_index_lookup _ _ _ HO).
    rewrite Py_bind_eq. cbn [emit]. rewrite IH.
    + cbn [objects clock gl bone_world_transforms fmap list_fmap]. rewrite HW.
      rewrite (drop_S _ _ _ HO). cbn [default zip_with].
      by rewrite bone_uploads_cons, <-(assoc_L (++)).
    + intros n ?. apply Hn. by right.
    + simpl in Hlen. lia.
  - rewrite py_index_ge by lia. rewrite drop_ge by lia.
    rewrite zip_with_nil_r. unfold bone_uploads. cbn [imap].
    rewrite app_nil_r. by destruct w.
Qed.

Lemma bone_matrix_loop_None name bone_offsets pre n post bone_id w :
  (forall m, m ∈ pre -> is_Some (world_transform_of (objects w m))) ->
  world_transform_of (objects w n) = None ->
  (bone_id + length pre <= length bone_offsets)%nat ->
  bone_matrix_loop name bone_offsets bone_id (pre ++ n :: post) w =
  (Raise AttributeError,
   mkWorld _ (objects w) (clock w)
     (gl w ++ bone_uploads name bone_id
                (zip_with matmul (bone_world_transforms w pre)
                          (drop bone_id bone_offsets)))).
Proof.
  revert bone_id w.
  induction pre as [|node rest IH]; intros bone_id w Hpre En Hlen.
  { cbn [app bone_matrix_loop].
    rewrite Py_bind_eq, get_world_transform_None by done.
    unfold bone_uploads. cbn. rewrite app_nil_r. by destruct w. }
  destruct (Hpre node) as [W HW]; [by left|].
  destruct (lookup_lt_is_Some_2 bone_offsets bone_id) as [O HO];
    [simpl in Hlen; lia|].
  cbn [app bone_matrix_loop].
  rewrite Py_bind_eq, (get_world_transform_ok _ _ _ HW).
  rewrite Py_bind_eq. unfold lift at 1. rewrite (py_index_lookup _ _ _ HO).
  rewrite Py_bind_eq. cbn [emit]. rewrite IH.
  - cbn [objects clock gl bone_world_transforms fmap list_fmap]. rewrite HW.
    rewrite (drop_S _ _ _ HO). cbn [default zip_with].
    by rewrite bone_uploads_cons, <-(assoc_L (++)).
  - intros m ?. apply Hpre. by right.
  - done.
  - simpl in Hlen. simpl. lia.
Qed.

(** X14.  A bone node that is not a skinning node has no world transform
    to read.  [SkinnedMesh.draw] then raises [AttributeError] before it
    hands anything to the backend.  [TexturedPhongMeshSkinned.draw] raises
    it in the middle of its uploads: the uniforms of the mesh and the
    matrices of the bones that precede the offending one have been
    uploaded, the draw call is not issued. *)
Theorem draw_with_a_bone_that_is_no_skinning_node
    name pre n post bone_offsets P V M w :
  (forall m, m ∈ pre -> is_Some (world_transform_of (objects w m))) ->
  world_transform_of (objects w n) = None ->
  draw glfw_get_time (SkinnedMesh name (pre ++ n :: post) bone_offsets)
       P V M w = (Raise AttributeError, w) /\
  ((length pre <= length bone_offsets)%nat ->
   let r := draw glfw_get_time
              (TexturedPhongMeshSkinned name (pre ++ n :: post) bone_offsets)
              P V M w in
   r.1 = Raise AttributeError /\
   objects r.2 = objects w /\
   gl r.2 = gl w ++ Uniforms name P V M ::
              bone_uploads name O
                (zip_with matmul (bone_world_transforms w pre) bone_offsets)).
Proof.
  intros Hpre En. split.
  - cbn [draw]. by rewrite Py_bind_eq, world_transforms_None.
  - intros Hlen r. subst r. cbn [draw]. rewrite Py_bind_eq. cbn [emit].
    rewrite Py_bind_eq. cbn [get_time objects clock gl].
    rewrite Py_bind_eq, bone_matrix_loop_None; [|done..|simpl; lia].
    rewrite drop_0. cbn [fst snd objects clock gl].
    by rewrite <-(assoc_L (++)).
Qed.

(** X15.  [TexturedPhongMeshSkinned.draw] pairs bones and offsets by
    position.  With fewer offsets than bones it uploads the matrices of
    the bones that have an offset and then raises [IndexError], without
    issuing the draw call; offsets beyond the number of bones are never
    looked at.  No node is changed either way. *)
Theorem Textured_draw_pairs_offsets_by_position
    name bone_nodes bone_offsets P V M w :
  (forall n, n ∈ bone_nodes -> is_Some (world_transform_of (objects w n))) ->
  let r := draw glfw_get_time
             (TexturedPhongMeshSkinned name bone_nodes bone_offsets) P V M w in
  let uploads := bone_uploads name O
                   (zip_with matmul (bone_world_transforms w bone_nodes)
                             bone_offsets) in
  objects r.2 = objects w /\
  ((length bone_offsets < length bone_nodes)%nat ->
   r.1 = Raise IndexError /\
   gl r.2 = gl w ++ Uniforms name P V M :: uploads) /\
  ((length bone_nodes <= length bone_offsets)%nat -> det4 V <> 0 ->
   r.1 = OK tt /\
   gl r.2 = gl w ++ Uniforms name P V M :: uploads ++ [Execute name] /\
   forall surplus,
     draw glfw_get_time
       (TexturedPhongMeshSkinned name bone_nodes (bone_offsets ++ surplus))
       P V M w = r).
Proof.
  intros Hn r uploads.
  destruct (decide (length bone_offsets < length bone_nodes)%nat) as [Hlt|Hle].
  - assert (r = (Raise IndexError,
                 mkWorld _ (objects w) (S (clock w))
                   (gl w ++ Uniforms name P V M :: uploads))) as ->.
    { subst r uploads. cbn [draw]. rewrite Py_bind_eq. cbn [emit].
      rewrite Py_bind_eq. cbn [get_time objects clock gl].
      rewrite Py_bind_eq, bone_matrix_loop_short; [|done|lia].
      rewrite drop_0. cbn [objects clock gl]. by rewrite <-(assoc_L (++)). }
    split; [done|]. split; [done|]. intros ?. lia.
  - assert (forall surplus,
              draw glfw_get_time
                (TexturedPhongMeshSkinned name bone_nodes
                   (bone_offsets ++ surplus)) P V M w =
              (np_linalg_inv V,
               mkWorld _ (objects w) (S (clock w))
                 (gl w ++ Uniforms name P V M :: uploads
                    ++ (match np_linalg_inv V with
                        | OK _ => [Execute name]
                        | Raise _ => []
                        end)))) as Hdraw.
    { intros surplus. subst uploads.
      rewrite draw_Textured_paired; [|rewrite length_app; lia|done].
      by rewrite zip_with_app_surplus
        by (unfold bone_world_transforms; rewrite length_fmap; lia). }
    assert (r = (np_linalg_inv V,
               mkWorld _ (objects w) (S (clock w))
                 (gl w ++ Uniforms name P V M :: uploads
                    ++ (match np_linalg_inv V with
                        | OK _ => [Execute name]
                        | Raise _ => []
                        end)))) as Hr.
    { subst r. rewrite <-(Hdraw []). by rewrite app_nil_r. }
    split; [by rewrite Hr|]. split; [intros ?; lia|].
    intros _ HV. rewrite Hr, (np_linalg_inv_regular V HV).
    split; [done|]. split; [done|].
    intros surplus. by rewrite Hdraw, (np_linalg_inv_regular V HV).
Qed.

(** X16.  [SkinnedMesh.draw] multiplies the stack of world transforms and
    the stack of offsets as numpy does: unless the two have the same
    length or one of them holds a single matrix, it raises [ValueError]
    and hands nothing to the backend. *)
Theorem SkinnedMesh_draw_shape_mismatch name bone_nodes bone_offsets P V M w :
  (forall n, n ∈ bone_nodes -> is_Some (world_transform_of (objects w n))) ->
  length bone_nodes <> length bone_offsets ->
  length bone_nodes <> 1%nat -> length bone_offsets <> 1%nat ->
  draw glfw_get_time (SkinnedMesh name bone_nodes bone_offsets) P V M w =
  (Raise ValueError, w).
Proof.
  intros Hn Hne H1 H2. cbn [draw].
  rewrite Py_bind_eq, world_transforms_ok by done.
  rewrite Py_bind_eq. unfold lift, stack_matmul.
  assert (length (bone_world_transforms w bone_nodes) = length bone_nodes)
    as Hl by (unfold bone_world_transforms; by rewrite length_fmap).
  destruct (bone_world_transforms w bone_nodes) as [|w0 [|w1 ws]],
    bone_offsets as [|o0 [|o1 os]]; simpl in *; try done; try lia;
    by rewrite decide_False by lia.
Qed.

End unusable_bones.

Lemma draw_with_a_bone_that_is_no_skinning_node_witness :
  draw frame_clock (SkinnedMesh 7%nat ([] ++ 0%nat :: [1%nat])
                      [identity; identity])
       identity identity identity bone_world =
  (Raise AttributeError, bone_world).
Proof.
  apply (draw_with_a_bone_that_is_no_skinning_node frame_clock 7%nat
           [] 0%nat [1%nat] [identity; identity] identity identity identity
           bone_world).
  - intros m Hm. by apply elem_of_nil in Hm.
  - reflexivity.
Defined.

Lemma Textured_draw_pairs_offsets_by_position_witness :
  (draw frame_clock
     (TexturedPhongMeshSkinned 7%nat [1%nat; 0%nat; 2%nat]
        [identity; translate4 (v4 1 0 0 0)])
     identity identity identity skinned_world).1 = Raise IndexError.
Proof.
  destruct (Textured_draw_pairs_offsets_by_position frame_clock 7%nat
              [1%nat; 0%nat; 2%nat] [identity; translate4 (v4 1 0 0 0)]
              identity identity identity skinned_world) as (_ & Hshort & _).
  - intros n _. simpl. eauto.
  - apply Hshort. simpl. lia.
Defined.

Lemma SkinnedMesh_draw_shape_mismatch_witness :
  draw frame_clock
       (SkinnedMesh 7%nat [1%nat; 0%nat; 2%nat]
          [identity; translate4 (v4 1 0 0 0)])
       identity identity identity skinned_world =
  (Raise ValueError, skinned_world).
Proof.
  apply (SkinnedMesh_draw_shape_mismatch frame_clock).
  - intros n _. simpl. eauto.
  - simpl. lia.
  - simpl. lia.
  - simpl. lia.
Defined.

(** ** Construction of control nodes *)

Lemma KeyFrames_new_distinct `{Transform} pairs f :
  pairs <> [] -> NoDup pairs.*1 ->
  exists self, KeyFrames_new (Some pairs) f = OK self.
Proof.
  intros Hne Hnd.
  destruct (KeyFrames_init_distinct array_lt pairs f Hne Hnd) as (self & Hs & _).
  by exists self.
Qed.

(** X17.  What the constructors of the control nodes raise.
    [SkinningControlNode()] without any key argument raises [IndexError];
    with a non-empty first key argument and not exactly three key
    arguments it raises [TypeError].  [KeyFrameControlNode] raises
    [TypeError] for [None] and [ValueError] for an empty collection as
    translation keys, whereas a [SkinningControlNode] silently goes
    without a track in both cases.  With usable translation keys, both
    raise [TypeError] for [None] and [ValueError] for an empty collection
    as rotation keys. *)
Theorem control_node_construction_errors `{Transform} X :
  SkinningControlNode_init [] X = Raise IndexError /\
  (forall k0 rest, py_bool k0 = true -> length rest <> 2%nat ->
     SkinningControlNode_init (k0 :: rest) X = Raise TypeError) /\
  (forall rk sk,
     KeyFrameControlNode_init None rk sk = Raise TypeError /\
     KeyFrameControlNode_init (Some []) rk sk = Raise ValueError /\
     SkinningControlNode_init [None; rk; sk] X =
       OK (OSkinningControlNode X None identity) /\
     SkinningControlNode_init [Some []; rk; sk] X =
       OK (OSkinningControlNode X None identity)) /\
  (forall tk sk, tk <> [] -> NoDup tk.*1 ->
     KeyFrameControlNode_init (Some tk) None sk = Raise TypeError /\
     KeyFrameControlNode_init (Some tk) (Some []) sk = Raise ValueError /\
     SkinningControlNode_init [Some tk; None; sk] X = Raise TypeError /\
     SkinningControlNode_init [Some tk; Some []; sk] X = Raise ValueError).
Proof.
  split; [done|]. split; [|split].
  - intros k0 rest Hb Hlen. unfold SkinningControlNode_init.
    rewrite (py_index_0 _ k0) by done. cbn [mbind result_bind]. rewrite Hb.
    by destruct rest as [|k1 [|k2 [|k3 rest]]].
  - intros rk sk. repeat split;
      by (apply SkinningControlNode_init_falsy).
  - intros tk sk Hne Hnd.
    destruct (KeyFrames_new_distinct tk lerp Hne Hnd) as [self Hself].
    assert (py_bool (Some tk) = true) as Hb by by destruct tk.
    unfold KeyFrameControlNode_init, SkinningControlNode_init.
    rewrite !(py_index_0 _ (Some tk)) by done. cbn [mbind result_bind].
    rewrite Hb. unfold TransformKeyFrames_new, TransformKeyFrames_init.
    rewrite Hself. by cbn.
Qed.

Lemma control_node_construction_errors_witness :
  @SkinningControlNode_init exact_transform
    [translate_demo; Some []; scale_demo] identity = Raise ValueError /\
  @SkinningControlNode_init exact_transform
    [translate_demo; rotate_demo] identity = Raise TypeError.
Proof.
  destruct (@control_node_construction_errors exact_transform identity)
    as (_ & Harity & _ & Hkeys).
  split.
  - apply (Hkeys [(q 2 1, v4 4 0 0 0); (q 0 1, v4 0 0 0 0)] scale_demo).
    + done.
    + apply (bool_decide_unpack
               (NoDup [(q 2 1, v4 4 0 0 0); (q 0 1, v4 0 0 0 0)].*1)).
      vm_compute. exact I.
  - apply Harity; [reflexivity|simpl; lia].
Defined.

(** ** Vertex indices and stored entries of the skin weights *)

Lemma set_entry_raises v_bone v b e x :
  set_entry v_bone v b e = Raise x -> x = IndexError.
Proof.
  unfold set_entry. destruct (v_bone !! v); [|by intros [= <-]].
  case_decide; [done|by intros [= <-]].
Qed.

Lemma fill_bone_raises b ws v_bone x :
  fill_bone b ws v_bone = Raise x -> x = IndexError.
Proof.
  revert v_bone. induction ws as [|e ws IH]; intros v_bone; simpl; [done|].
  destruct (set_entry v_bone _ b _) as [v1|y] eqn:E; simpl; [apply IH|].
  intros [= <-]. by eapply set_entry_raises.
Qed.

Lemma fill_bones_raises b0 bones v_bone x :
  fill_bones b0 bones v_bone = Raise x -> x = IndexError.
Proof.
  revert b0 v_bone. induction bones as [|bone bones IH]; intros b0 v_bone;
    simpl; [done|].
  destruct (fill_bone b0 _ v_bone) as [v1|y] eqn:E; simpl; [apply IH|].
  intros [= <-]. by eapply fill_bone_raises.
Qed.

Lemma fill_bone_valid n b ws v_bone v_bone' :
  fill_bone b ws v_bone = OK v_bone' -> shape n v_bone ->
  Forall (fun e => (mVertexId e < n)%nat) ws.
Proof.
  revert v_bone. induction ws as [|e ws IH]; intros v_bone; simpl; [done|].
  destruct (set_entry v_bone (mVertexId e) b (mWeight e, b))
    as [v1|] eqn:Hv1; simpl; [|done].
  intros Hfill Hs.
  destruct (set_entry_spec n _ _ _ _ _ Hv1 Hs) as (Hs1 & Hlt & _).
  constructor; [done|]. by eapply IH.
Qed.

Lemma fill_bones_valid n b0 bones v_bone v_bone' :
  fill_bones b0 bones v_bone = OK v_bone' -> shape n v_bone ->
  Forall (fun bone => Forall (fun e => (mVertexId e < n)%nat) (mWeights bone))
         bones.
Proof.
  revert b0 v_bone. induction bones as [|bone bones IH]; intros b0 v_bone;
    simpl; [done|].
  destruct (fill_bone b0 (mWeights bone) v_bone) as [v1|] eqn:Hv1; simpl;
    [|done].
  intros Hfill Hs.
  destruct (fill_bone_spec n _ _ _ _ Hv1 Hs) as [Hs1 _].
  constructor; [by eapply fill_bone_valid|]. by eapply IH.
Qed.

(** X18.  The skin-weight construction succeeds exactly when the mesh has
    at least one vertex and every vertex index listed by the first
    [MAX_BONES] bones is a vertex of the mesh.  Otherwise it raises
    [IndexError]: in the loops at a listed index that is no vertex, else,
    for a mesh without vertices, when the columns of the array without
    rows are sliced.  The bones after the first [MAX_BONES] are never
    looked at, whatever they list. *)
Theorem skin_weights_vertex_indices mNumVertices mBones :
  let valid :=
    Forall (fun bone =>
              Forall (fun e => (mVertexId e < mNumVertices)%nat) (mWeights bone))
           (take MAX_BONES mBones) in
  ((exists stored, skin_weights mNumVertices mBones = OK stored) <->
   (0 < mNumVertices)%nat /\ valid) /\
  (~ ((0 < mNumVertices)%nat /\ valid) ->
   skin_weights mNumVertices mBones = Raise IndexError) /\
  (mNumVertices = O -> skin_weights mNumVertices mBones = Raise IndexError) /\
  (forall more, (MAX_BONES <= length mBones)%nat ->
     skin_weights mNumVertices (mBones ++ more) =
     skin_weights mNumVertices mBones).
Proof.
  intros valid.
  assert (skin_weights mNumVertices mBones = Raise IndexError \/
          (0 < mNumVertices)%nat /\ valid /\
          exists stored, skin_weights mNumVertices mBones = OK stored) as Hcases.
  { destruct (fill_bones O (take MAX_BONES mBones) (v_bone_init mNumVertices))
      as [v_bone|x] eqn:Hfill.
    - destruct (skin_weights_filled _ _ _ Hfill) as [_ Hskin].
      destruct (decide (mNumVertices = O)) as [Hz|Hnz]; [by left|].
      right. split; [lia|]. split; [|eauto].
      eapply fill_bones_valid; [exact Hfill|apply shape_init].
    - left. unfold skin_weights. rewrite Hfill.
      by rewrite (fill_bones_raises _ _ _ _ Hfill). }
  assert (valid -> (0 < mNumVertices)%nat ->
          exists stored, skin_weights mNumVertices mBones = OK stored) as Hok.
  { intros Hv Hpos.
    destruct (fill_bones_ok mNumVertices O (take MAX_BONES mBones)
                (v_bone_init mNumVertices)) as [v_bone Hfill];
      [apply shape_init|rewrite length_take; lia|done|].
    destruct (skin_weights_filled _ _ _ Hfill) as [_ Hskin].
    rewrite decide_False in Hskin by lia. eauto. }
  split; [|split; [|split]].
  - split.
    + intros [stored Hs]. destruct Hcases as [Hr|(? & ? & _)]; [|done].
      rewrite Hr in Hs. discriminate Hs.
    + intros [Hpos Hv]. by apply Hok.
  - intros Hnv. destruct Hcases as [Hr|(? & ? & _)]; [done|].
    by destruct Hnv.
  - intros Hz. destruct Hcases as [Hr|(? & _)]; [done|lia].
  - intros more Hlen. unfold skin_weights. by rewrite take_app_le.
Qed.

Lemma skin_weights_vertex_indices_witness :
  skin_weights 1 stray_bone = Raise IndexError /\
  skin_weights 0 [] = Raise IndexError.
Proof.
  split.
  - destruct (skin_weights_vertex_indices 1 stray_bone) as (_ & Hbad & _).
    apply Hbad. intros [_ Hv]. apply Forall_cons in Hv as [Hv _].
    apply Forall_cons in Hv as [Hv _]. simpl in Hv. lia.
  - destruct (skin_weights_vertex_indices 0 []) as (_ & _ & Hzero & _).
    apply Hzero. reflexivity.
Defined.

(** X19.  Every entry stored for a vertex is either the initial [(0, 0)]
    or a (weight, bone index) pair that one of the first [MAX_BONES] bones
    lists for that very vertex: no weight is made up, none is moved to
    another vertex or another bone. *)
Theorem stored_entries_are_contributions
    mNumVertices mBones stored v row weight b :
  skin_weights mNumVertices mBones = OK stored ->
  stored !! v = Some row ->
  (weight, b) ∈ row ->
  (weight, b) = (0, O) \/
  ((b < MAX_BONES)%nat /\
   exists bone e,
     mBones !! b = Some bone /\ e ∈ mWeights bone /\
     mVertexId e = v /\ mWeight e = weight).
Proof.
  intros Hs Hrow Hin.
  destruct (fill_bones O (take MAX_BONES mBones) (v_bone_init mNumVertices))
    as [v_bone|] eqn:Hfill;
    [|unfold skin_weights in Hs; by rewrite Hfill in Hs].
  destruct (skin_weights_filled _ _ _ Hfill) as [Hlen Hskin].
  rewrite Hs in Hskin. case_decide; [done|]. injection Hskin as ->.
  rewrite list_lookup_fmap, fmap_Some in Hrow.
  destruct Hrow as (vrow & Hv & ->).
  pose proof (lookup_lt_Some _ _ _ Hv) as Hvn.
  rewrite (fill_bones_rows _ _ _ _ Hfill) in Hv by lia.
  injection Hv as <-.
  apply (subseteq_drop _ _ _) in Hin. rewrite np_sort_perm in Hin.
  unfold vertex_row in Hin. apply list_elem_of_fmap in Hin as (b' & Heq & Hb').
  apply elem_of_seq in Hb'. unfold influence in Heq.
  destruct (take MAX_BONES mBones !! b') as [bone|] eqn:Hbone; [|by left].
  destruct (last (filter (fun e => mVertexId e = v) (mWeights bone)))
    as [e|] eqn:Hlast; [|by left].
  injection Heq as -> ->. right. split; [lia|].
  apply last_Some_elem_of, list_elem_of_filter in Hlast as [Hid He].
  apply lookup_take_Some in Hbone as [Hbone _]. by exists bone, e.
Qed.

Lemma stored_entries_are_contributions_witness :
  exists bone e,
    six_bones !! 2%nat = Some bone /\ e ∈ mWeights bone /\
    mVertexId e = O /\ mWeight e = q 1 10.
Proof.
  destruct (stored_entries_are_contributions 1 six_bones
              [[(q 1 20, 3%nat); (q 1 10, 2%nat); (q 3 10, 1%nat);
                (q 1 2, 0%nat)]]
              O [(q 1 20, 3%nat); (q 1 10, 2%nat); (q 3 10, 1%nat);
                 (q 1 2, 0%nat)] (q 1 10) 2%nat) as [Hpad|[_ Hc]].
  - vm_compute. reflexivity.
  - reflexivity.
  - apply list_elem_of_lookup_2 with 1%nat. reflexivity.
  - discriminate Hpad.
  - exact Hc.
Defined.

(** ** Animation channels *)

Lemma dict_set_keys {V} (d : list (Qc * V)) k v :
  (dict_set d k v).*1 = if decide (k ∈ d.*1) then d.*1 else d.*1 ++ [k].
Proof.
  induction d as [|[k' v'] d IH]; [done|]. cbn [dict_set fmap list_fmap fst].
  destruct (decide (k' = k)) as [->|Hne].
  - rewrite decide_True by by left. done.
  - cbn [fmap list_fmap fst]. fold (fmap (M:=list) (@fst Qc V)). rewrite IH.
    destruct (decide (k ∈ d.*1)) as [Hin|Hnin].
    + rewrite decide_True by by right. done.
    + rewrite decide_False; [done|]. intros [?|?]%elem_of_cons; by subst.
Qed.

Lemma dict_set_NoDup {V} (d : list (Qc * V)) k v :
  NoDup d.*1 -> NoDup (dict_set d k v).*1.
Proof.
  intros Hnd. rewrite dict_set_keys. case_decide; [done|].
  apply NoDup_app. split; [done|]. split; [|apply NoDup_singleton].
  intros x Hx ->%list_elem_of_singleton. done.
Qed.

Lemma dict_set_key_in {V} (d : list (Qc * V)) k v t :
  t = k \/ t ∈ d.*1 -> t ∈ (dict_set d k v).*1.
Proof.
  rewrite dict_set_keys. intros [->|Ht]; case_decide; try done;
    apply elem_of_app; [right; by apply list_elem_of_singleton|by left].
Qed.

Lemma dict_set_item {V} (d : list (Qc * V)) k v p :
  p ∈ dict_set d k v -> p ∈ d \/ p = (k, v).
Proof.
  induction d as [|[k' v'] d IH]; cbn [dict_set].
  - intros ->%list_elem_of_singleton. by right.
  - destruct (decide (k' = k)) as [->|Hne].
    + intros [->|Hp]%elem_of_cons; [by right|]. left. by right.
    + intros [->|Hp]%elem_of_cons; [left; by left|].
      destruct (IH Hp) as [?|?]; [left; by right|by right].
Qed.

Section channels.
Context `{Transform}.

Lemma conv_loop_ok assimp_keys ticks_per_second d :
  ticks_per_second <> 0 ->
  exists d',
    conv_loop assimp_keys ticks_per_second d = OK d' /\
    (NoDup d.*1 -> NoDup d'.*1) /\
    (assimp_keys <> [] -> d' <> []) /\
    (forall t, t ∈ d.*1 -> t ∈ d'.*1) /\
    (forall key, key ∈ assimp_keys -> mTime key / ticks_per_second ∈ d'.*1) /\
    (forall p, p ∈ d' ->
       p ∈ d \/ exists key, key ∈ assimp_keys /\
                 p = (mTime key / ticks_per_second, mValue key)).
Proof.
  intros Htps. revert d.
  induction assimp_keys as [|key rest IH]; intros d; cbn [conv_loop].
  { exists d. repeat split; try done.
    - intros key Hkey. by apply elem_of_nil in Hkey.
    - intros p Hp. by left. }
  unfold py_div. rewrite decide_False by done. cbn [mbind result_bind].
  destruct (IH (dict_set d (mTime key / ticks_per_second) (mValue key)))
    as (d' & Hd' & Hnd & _ & Hold & Hnew & Hitems).
  exists d'. split; [done|]. split; [|split; [|split; [|split]]].
  - intros Hd. by apply Hnd, dict_set_NoDup.
  - intros _ ->.
    pose proof (Hold (mTime key / ticks_per_second)
                  (dict_set_key_in _ _ _ _ (or_introl eq_refl))) as Hin.
    by apply elem_of_nil in Hin.
  - intros t Ht. apply Hold, dict_set_key_in. by right.
  - intros key' [->|Hk]%elem_of_cons; [|by apply Hnew].
    apply Hold, dict_set_key_in. by left.
  - intros p Hp. destruct (Hitems p Hp) as [Hp'|(key' & Hk & ->)].
    + apply dict_set_item in Hp' as [?| ->]; [by left|].
      right. exists key. split; [by left|done].
    + right. exists key'. split; [by right|done].
Qed.

Lemma conv_ok assimp_keys ticks_per_second :
  ticks_per_second <> 0 ->
  exists d,
    conv assimp_keys ticks_per_second = OK d /\
    NoDup d.*1 /\
    (assimp_keys <> [] -> d <> []) /\
    (assimp_keys = [] -> d = []) /\
    (forall key, key ∈ assimp_keys -> mTime key / ticks_per_second ∈ d.*1) /\
    (forall p, p ∈ d ->
       exists key, key ∈ assimp_keys /\
         p = (mTime key / ticks_per_second, mValue key)).
Proof.
  intros Htps.
  destruct (conv_loop_ok assimp_keys ticks_per_second [] Htps)
    as (d & Hd & Hnd & Hne & _ & Hnew & Hitems).
  exists d. split; [done|]. split; [apply Hnd; constructor|].
  split; [done|]. split; [|split; [done|]].
  - intros ->. cbn in Hd. by injection Hd as <-.
  - intros p Hp. destruct (Hitems p Hp) as [Hnil|?]; [|done].
    by apply elem_of_nil in Hnil.
Qed.

Lemma conv_nil ticks_per_second : conv [] ticks_per_second = OK [].
Proof. reflexivity. Qed.

Lemma conv_zero key rest : conv (key :: rest) 0 = Raise ZeroDivisionError.
Proof.
  unfold conv. cbn [conv_loop]. unfold py_div. by rewrite decide_True.
Qed.

(** X20.  A channel with at least one position, one rotation and one
    scaling key and a tick rate other than zero always gives a node with a
    track: the conversion to dicts leaves one key per time, so that the
    construction of the three key sets never has to compare two values,
    and the times of each key set are strictly increasing.  Every key of
    the channel has its time, in seconds, among the times of its key set,
    and every keyframe of the track is a key of the channel. *)
Theorem channel_gives_a_track channel mTicksPerSecond X :
  mTicksPerSecond <> 0 ->
  mPositionKeys channel <> [] ->
  mRotationKeys channel <> [] ->
  mScalingKeys channel <> [] ->
  exists keys k,
    channel_keys channel mTicksPerSecond = OK keys /\
    make_skin_node (Some keys) X = OK (OSkinningControlNode X (Some k) identity) /\
    keyframe_set (translate_keys k) /\
    keyframe_set (rotate_keys k) /\
    keyframe_set (scale_keys k) /\
    (forall key, key ∈ mPositionKeys channel ->
       mTime key / mTicksPerSecond ∈ times (translate_keys k)) /\
    (forall t v, (t, v) ∈ zip (times (translate_keys k))
                            (values (translate_keys k)) ->
       exists key, key ∈ mPositionKeys channel /\
         t = mTime key / mTicksPerSecond /\ v = mValue key).
Proof.
  intros Htps Hp Hr Hs.
  destruct (conv_ok (mPositionKeys channel) _ Htps)
    as (p & Ep & Hndp & Hnep & _ & Htimes & Hitems).
  destruct (conv_ok (mRotationKeys channel) _ Htps)
    as (r & Er & Hndr & Hner & _).
  destruct (conv_ok (mScalingKeys channel) _ Htps)
    as (s & Es & Hnds & Hnes & _).
  destruct (KeyFrames_init_distinct array_lt p lerp (Hnep Hp) Hndp)
    as (kp & Ekp & Hkp).
  destruct (KeyFrames_init_distinct array_lt r quaternion_slerp (Hner Hr) Hndr)
    as (kr & Ekr & Hkr).
  destruct (KeyFrames_init_distinct array_lt s lerp (Hnes Hs) Hnds)
    as (ks & Eks & Hks).
  exists [Some p; Some r; Some s], (mkTransformKeyFrames _ kp kr ks).
  split; [unfold channel_keys; by rewrite Ep, Er, Es|].
  assert (py_bool (Some p) = true) as Hb.
  { destruct p; [|done]. by destruct (Hnep Hp). }
  split.
  { unfold make_skin_node, SkinningControlNode_init, default, id.
    rewrite (py_index_0 _ (Some p)) by done. cbn [mbind result_bind].
    rewrite Hb. unfold TransformKeyFrames_new, TransformKeyFrames_init.
    cbn [KeyFrames_new]. by rewrite Ekp, Ekr, Eks. }
  repeat (split; [done|]). cbn [translate_keys].
  apply KeyFrames_init_inv in Ekp as (_ & [Hlen _ _] & _ & Hperm).
  split.
  - intros key Hkey. specialize (Htimes key Hkey).
    rewrite <-Hperm, fst_zip in Htimes by lia. done.
  - intros t v Htv. rewrite Hperm in Htv.
    destruct (Hitems _ Htv) as (key & Hkey & [= -> ->]). by exists key.
Qed.

(** X21.  What else a channel can give.  Without position keys the node
    gets no track, whatever rotation and scaling keys the channel has; so
    does a node that no channel names.  With position keys but without
    rotation keys the construction of the node raises [ValueError].  With
    a tick rate of zero the conversion of the first key raises
    [ZeroDivisionError]. *)
Theorem channel_without_track channel mTicksPerSecond X :
  make_skin_node None X = OK (OSkinningControlNode X None identity) /\
  (mTicksPerSecond <> 0 -> mPositionKeys channel = [] ->
   exists keys,
     channel_keys channel mTicksPerSecond = OK keys /\
     make_skin_node (Some keys) X = OK (OSkinningControlNode X None identity)) /\
  (mTicksPerSecond <> 0 -> mPositionKeys channel <> [] ->
   mRotationKeys channel = [] ->
   exists keys,
     channel_keys channel mTicksPerSecond = OK keys /\
     make_skin_node (Some keys) X = Raise ValueError) /\
  (mTicksPerSecond = 0 -> mPositionKeys channel <> [] ->
   channel_keys channel mTicksPerSecond = Raise ZeroDivisionError).
Proof.
  split; [done|]. split; [|split].
  - intros Htps Hp.
    destruct (conv_ok (mRotationKeys channel) _ Htps) as (r & Er & _).
    destruct (conv_ok (mScalingKeys channel) _ Htps) as (s & Es & _).
    exists [Some []; Some r; Some s]. split.
    + unfold channel_keys. by rewrite Hp, conv_nil, Er, Es.
    + by apply SkinningControlNode_init_falsy.
  - intros Htps Hp Hr.
    destruct (conv_ok (mPositionKeys channel) _ Htps)
      as (p & Ep & Hndp & Hnep & _).
    destruct (conv_ok (mScalingKeys channel) _ Htps) as (s & Es & _).
    destruct (KeyFrames_init_distinct array_lt p lerp (Hnep Hp) Hndp)
      as (kp & Ekp & _).
    exists [Some p; Some []; Some s]. split.
    + unfold channel_keys. by rewrite Ep, Hr, conv_nil, Es.
    + assert (py_bool (Some p) = true) as Hb.
      { destruct p; [|done]. by destruct (Hnep Hp). }
      unfold make_skin_node, SkinningControlNode_init, default, id.
      rewrite (py_index_0 _ (Some p)) by done. cbn [mbind result_bind].
      rewrite Hb. unfold TransformKeyFrames_new, TransformKeyFrames_init.
      cbn [KeyFrames_new]. by rewrite Ekp.
  - intros -> Hp. unfold channel_keys.
    destruct (mPositionKeys channel) as [|key rest]; [done|].
    by rewrite conv_zero.
Qed.

End channels.

Lemma channel_gives_a_track_witness :
  exists keys k,
    channel_keys channel_demo (q 30 1) = OK keys /\
    @make_skin_node exact_transform (Some keys) identity =
      OK (OSkinningControlNode identity (Some k) identity) /\
    keyframe_set (translate_keys k).
Proof.
  destruct (@channel_gives_a_track exact_transform channel_demo (q 30 1)
              identity)
    as (keys & k & H1 & H2 & H3 & _); try done.
  by exists keys, k.
Defined.

Lemma channel_without_track_witness :
  exists keys,
    channel_keys channel_without_rotation (q 30 1) = OK keys /\
    @make_skin_node exact_transform (Some keys) identity = Raise ValueError.
Proof.
  destruct (@channel_without_track exact_transform channel_without_rotation
              (q 30 1) identity) as (_ & _ & Hrot & _).
  apply Hrot; done.
Defined.

(** ** The terrain grid *)

Lemma mapM_ok {A B} (f : A -> result B) (g : A -> B) l :
  (forall x, x ∈ l -> f x = OK (g x)) -> mapM f l = OK (g <$> l).
Proof.
  induction l as [|x l IH]; intros Hf; [done|]. cbn [mapM].
  rewrite Hf by by left. cbn [mbind result_bind].
  rewrite IH by (intros y Hy; apply Hf; by right). done.
Qed.

Lemma grid_from_lookup s n m i j :
  (i < n)%nat -> (j < m)%nat ->
  (seq s n ≫= fun i => (fun j => (i, j)) <$> seq 0 m) !! (i * m + j)%nat =
  Some ((s + i)%nat, j).
Proof.
  revert s i. induction n as [|n IH]; intros s i Hi Hj; [lia|].
  cbn [seq]. rewrite bind_cons. destruct i as [|i].
  - rewrite lookup_app_l by (rewrite length_fmap, length_seq; lia).
    rewrite list_lookup_fmap, lookup_seq_lt by lia. simpl.
    by rewrite Nat.add_0_r.
  - rewrite lookup_app_r by (rewrite length_fmap, length_seq; lia).
    rewrite length_fmap, length_seq.
    replace (S i * m + j - m)%nat with (i * m + j)%nat by lia.
    rewrite IH by lia. do 2 f_equal. lia.
Qed.

Lemma grid_lookup n m i j :
  (i < n)%nat -> (j < m)%nat -> grid n m !! (i * m + j)%nat = Some (i, j).
Proof. apply (grid_from_lookup 0). Qed.

Lemma grid_length n m : length (grid n m) = (n * m)%nat.
Proof.
  unfold grid.
  assert (forall s, length (seq s n ≫= fun i => (fun j => (i, j)) <$> seq 0 m)
                    = (n * m)%nat) as Hlen; [|apply Hlen].
  induction n as [|n IH]; intros s; [done|].
  cbn [seq]. rewrite bind_cons, length_app, IH, length_fmap, length_seq. lia.
Qed.

Lemma grid_elem n m i j : (i, j) ∈ grid n m <-> (i < n)%nat /\ (j < m)%nat.
Proof.
  unfold grid. rewrite list_elem_of_bind. split.
  - intros (i' & Hj & Hi). apply elem_of_seq in Hi.
    apply list_elem_of_fmap in Hj as (j' & [= -> ->] & Hj).
    apply elem_of_seq in Hj. lia.
  - intros [Hi Hj]. exists i. split.
    + apply list_elem_of_fmap. exists j. split; [done|].
      apply elem_of_seq. lia.
    + apply elem_of_seq. lia.
Qed.

Lemma height_bounds (red : Z) :
  (0 <= red <= 255)%Z ->
  0 <= q red 1 / MAX_PIXEL_COLOR * MAX_HEIGHT /\
  q red 1 / MAX_PIXEL_COLOR * MAX_HEIGHT < MAX_HEIGHT.
Proof.
  intros Hr.
  unfold Qcle, Qclt, Qcdiv, Qcmult, Qcinv, MAX_PIXEL_COLOR, MAX_HEIGHT, q.
  cbn [this Q2Qc]. rewrite !Qred_correct. split.
  - unfold Qle. cbn. lia.
  - unfold Qlt. cbn. lia.
Qed.

Lemma get_height_inside size image i j :
  heightmap size image -> (i < size)%nat -> (j < size)%nat ->
  get_height (Z.of_nat i) (Z.of_nat j) image =
    OK (q (red_channel image i j) 1 / MAX_PIXEL_COLOR * MAX_HEIGHT) /\
  (0 <= red_channel image i j <= 255)%Z.
Proof.
  intros [Hlen Hrows] Hi Hj. unfold get_height, red_channel.
  unfold heightmap_image in *. rewrite decide_False by lia.
  destruct (lookup_lt_is_Some_2 image i) as [row Hrow]; [lia|].
  rewrite Forall_lookup in Hrows. destruct (Hrows _ _ Hrow) as [Hw Hpx].
  destruct (lookup_lt_is_Some_2 row j) as [pixel Hpixel]; [lia|].
  rewrite Forall_lookup in Hpx.
  destruct (Hpx _ _ Hpixel) as (red & rest & -> & Hred).
  rewrite (py_index_lookup _ _ _ Hrow). cbn [mbind result_bind].
  rewrite (py_index_lookup _ _ _ Hpixel). cbn [mbind result_bind].
  rewrite (py_index_0 _ red) by done. cbn [mbind result_bind].
  rewrite Hrow. cbn [mbind option_bind]. rewrite Hpixel.
  cbn [mbind option_bind lookup list_lookup default from_option id].
  unfold py_div. rewrite decide_False by done. done.
Qed.

(** X22.  [TexturedPlane.get_height] never raises on a square height map
    with red values between 0 and 255: inside the image it returns the red
    value scaled to the heights from 0 up to, but not including,
    [MAX_HEIGHT] = 30, and outside of it 0. *)
Theorem get_height_range size image (x z : Z) :
  heightmap size image ->
  exists height,
    get_height x z image = OK height /\
    0 <= height /\ height < MAX_HEIGHT /\
    ((x < 0 \/ x >= Z.of_nat size \/ z < 0 \/ z >= Z.of_nat size)%Z ->
     height = 0) /\
    ((0 <= x < Z.of_nat size)%Z -> (0 <= z < Z.of_nat size)%Z ->
     height = q (red_channel image (Z.to_nat x) (Z.to_nat z)) 1
              / MAX_PIXEL_COLOR * MAX_HEIGHT).
Proof.
  intros Hmap.
  destruct (decide (x < 0 \/ x >= Z.of_nat size \/ z < 0 \/ z >= Z.of_nat size)%Z)
    as [Hout|Hin].
  - exists 0. unfold get_height. destruct Hmap as [-> _].
    rewrite decide_True by done. repeat split; try done. lia.
  - destruct (get_height_inside size image (Z.to_nat x) (Z.to_nat z) Hmap)
      as [Hh Hred]; [lia..|].
    rewrite !Z2Nat.id in Hh by lia.
    destruct (height_bounds _ Hred) as [H0 H30].
    eexists. split; [exact Hh|]. repeat split; try done.
Qed.

Lemma grid_divisor size : (2 <= size)%nat -> q (Z.of_nat size - 1) 1 <> 0.
Proof.
  intros Hs Hq.
  assert (this (q (Z.of_nat size - 1) 1) == 0)%Q as Hz by by rewrite Hq.
  unfold q in Hz. cbn [this Q2Qc] in Hz. rewrite Qred_correct in Hz.
  unfold Qeq in Hz. cbn in Hz. lia.
Qed.

Lemma grid_point_ok size hmap_tex i j :
  (2 <= size)%nat -> heightmap size hmap_tex ->
  (i < size)%nat -> (j < size)%nat ->
  grid_point size hmap_tex (i, j) =
  OK ([q (Z.of_nat j) 1 / q (Z.of_nat size - 1) 1 * q 1000 1;
       q (red_channel hmap_tex i j) 1 / MAX_PIXEL_COLOR * MAX_HEIGHT;
       q (Z.of_nat i) 1 / q (Z.of_nat size - 1) 1 * q 1000 1],
      [0; 1; 0],
      [q (Z.of_nat j) 1 / q (Z.of_nat size - 1) 1;
       q (Z.of_nat i) 1 / q (Z.of_nat size - 1) 1]).
Proof.
  intros Hs Hmap Hi Hj. unfold grid_point, py_div. cbn [fst snd].
  rewrite !decide_False by by apply grid_divisor.
  cbn [mbind result_bind].
  destruct (get_height_inside size hmap_tex i j Hmap Hi Hj) as [-> _]. done.
Qed.

(** X23.  For a height map of [size >= 2] rows, [create_attributes] gives
    a well-formed mesh: [size * size] vertices, texture coordinates and
    normals and [(size - 1) * (size - 1)] cells of six indices.  The vertex
    of grid point [(i, j)] is stored at index [i * size + j], at
    [x = j / (size - 1) * 1000] and [z = i / (size - 1) * 1000] with the
    height of the pixel; the six indices of cell [(gz, gx)] are those of
    the four grid points at its corners, as two triangles; every index
    refers to a vertex. *)
Theorem create_attributes_grid size hmap_tex :
  (2 <= size)%nat -> heightmap size hmap_tex ->
  exists vertices texture_coords normals indices,
    create_attributes size hmap_tex =
      OK (vertices, texture_coords, normals, indices) /\
    length vertices = (size * size)%nat /\
    length texture_coords = (size * size)%nat /\
    length normals = (size * size)%nat /\
    length indices = ((size - 1) * (size - 1))%nat /\
    (forall i j, (i < size)%nat -> (j < size)%nat ->
       vertices !! (i * size + j)%nat =
         Some [q (Z.of_nat j) 1 / q (Z.of_nat size - 1) 1 * q 1000 1;
               q (red_channel hmap_tex i j) 1 / MAX_PIXEL_COLOR * MAX_HEIGHT;
               q (Z.of_nat i) 1 / q (Z.of_nat size - 1) 1 * q 1000 1] /\
       texture_coords !! (i * size + j)%nat =
         Some [q (Z.of_nat j) 1 / q (Z.of_nat size - 1) 1;
               q (Z.of_nat i) 1 / q (Z.of_nat size - 1) 1] /\
       normals !! (i * size + j)%nat = Some [0; 1; 0]) /\
    (forall gz gx, (gz < size - 1)%nat -> (gx < size - 1)%nat ->
       indices !! (gz * (size - 1) + gx)%nat =
         Some [(gz * size + gx)%nat; ((gz + 1) * size + gx)%nat;
               (gz * size + (gx + 1))%nat; (gz * size + (gx + 1))%nat;
               ((gz + 1) * size + gx)%nat;
               ((gz + 1) * size + (gx + 1))%nat]) /\
    (forall cell k, cell ∈ indices -> k ∈ cell -> (k < length vertices)%nat).
Proof.
  intros Hs Hmap.
  set (point := fun ij : nat * nat =>
    ([q (Z.of_nat ij.2) 1 / q (Z.of_nat size - 1) 1 * q 1000 1;
      q (red_channel hmap_tex ij.1 ij.2) 1 / MAX_PIXEL_COLOR * MAX_HEIGHT;
      q (Z.of_nat ij.1) 1 / q (Z.of_nat size - 1) 1 * q 1000 1],
     [0; 1; 0],
     [q (Z.of_nat ij.2) 1 / q (Z.of_nat size - 1) 1;
      q (Z.of_nat ij.1) 1 / q (Z.of_nat size - 1) 1])).
  assert (mapM (grid_point size hmap_tex) (grid size size) =
          OK (point <$> grid size size)) as Hpoints.
  { apply mapM_ok. intros [i j] [Hi Hj]%grid_elem.
    by apply grid_point_ok. }
  do 4 eexists. split.
  { unfold create_attributes. rewrite Hpoints. cbn [mbind result_bind].
    reflexivity. }
  rewrite !length_fmap, !grid_length.
  repeat (split; [done|]). split; [|split].
  - intros i j Hi Hj. rewrite <-!list_fmap_compose, !list_lookup_fmap.
    by rewrite (grid_lookup size size i j Hi Hj).
  - intros gz gx Hgz Hgx. rewrite list_lookup_fmap.
    rewrite (grid_lookup _ _ gz gx Hgz Hgx). cbn. unfold cell_indices.
    cbn [fst snd]. do 2 f_equal. repeat (f_equal; try lia).
  - intros cell k Hcell Hk.
    apply list_elem_of_fmap in Hcell as ([gz gx] & -> & [Hgz Hgx]%grid_elem).
    unfold cell_indices in Hk. cbn [fst snd] in Hk.
    repeat (apply elem_of_cons in Hk as [->|Hk]; [nia|]).
    by apply elem_of_nil in Hk.
Qed.

(** X24.  A height map of a single row makes [create_attributes] divide by
    [size - 1 = 0]: it raises [ZeroDivisionError] at the first grid point,
    whatever the image holds.  With no row at all it returns four empty
    arrays. *)
Theorem create_attributes_degenerate hmap_tex :
  create_attributes 1 hmap_tex = Raise ZeroDivisionError /\
  create_attributes 0 hmap_tex = OK ([], [], [], []).
Proof.
  split; [|done]. unfold create_attributes. cbn [grid seq mbind list_bind].
  cbn [fmap list_fmap app mapM]. unfold grid_point, py_div.
  by rewrite decide_True.
Qed.

Lemma heightmap_hmap_demo : heightmap 2 hmap_demo.
Proof.
  split; [done|]. unfold hmap_demo.
  repeat (constructor;
          [split; [simpl; lia|];
           repeat (constructor; [eexists _, _; split; [done|lia]|]);
           constructor|]).
  constructor.
Qed.

Lemma get_height_range_witness :
  exists height,
    get_height 0 1 hmap_demo = OK height /\ 0 <= height /\ height < MAX_HEIGHT.
Proof.
  destruct (get_height_range 2 hmap_demo 0 1 heightmap_hmap_demo)
    as (height & H1 & H2 & H3 & _).
  by exists height.
Defined.

Lemma create_attributes_grid_witness :
  exists vertices texture_coords normals indices,
    create_attributes 2 hmap_demo =
      OK (vertices, texture_coords, normals, indices) /\
    length vertices = 4%nat /\
    indices !! O = Some [0; 2; 1; 1; 2; 3]%nat.
Proof.
  destruct (create_attributes_grid 2 hmap_demo)
    as (vertices & tex & normals & indices & H1 & H2 & _ & _ & _ & _ & H7 & _).
  - lia.
  - exact heightmap_hmap_demo.
  - exists vertices, tex, normals, indices. split; [exact H1|].
    split; [exact H2|]. apply (H7 O O); simpl; lia.
Defined.

(** ** The fog colour *)

Lemma FogColour_factor : 1 / q 6000 1 * q 14 1 = q 7 3000.
Proof. by apply Qc_is_canon. Qed.

Ltac qc_lra :=
  rewrite ?FogColour_factor in *;
  unfold Qcle, Qclt, Qcminus, Qcplus, Qcopp, Qcmult, q in *;
  cbn [this Q2Qc Z.to_pos] in *; rewrite ?Qred_correct in *; lra.

Lemma FogColour_init_invariant : FogColour.invariant FogColour.init.
Proof.
  repeat split. exists 0, 0. cbn [FogColour.colour FogColour.init FogColour.factor].
  repeat split; qc_lra.
Qed.

Lemma FogColour_brighten_ok self c0 c1 :
  FogColour.colour self = [c0; c1; c1] ->
  FogColour.brighten self =
  OK (FogColour.set_colour self
        [c0 + FogColour.factor self; c1 + FogColour.factor self;
         c1 + FogColour.factor self]).
Proof. intros E. unfold FogColour.brighten. by rewrite E. Qed.

Lemma FogColour_darken_ok self c0 c1 :
  FogColour.colour self = [c0; c1; c1] ->
  FogColour.darken self =
  OK (FogColour.set_colour self
        [c0 - FogColour.factor self; c1 - FogColour.factor self;
         c1 - FogColour.factor self]).
Proof. intros E. unfold FogColour.darken. by rewrite E. Qed.

Lemma FogColour_get_colour_invariant now self :
  FogColour.invariant self ->
  exists self',
    FogColour.get_colour now self = OK (FogColour.colour self', self') /\
    FogColour.invariant self'.
Proof.
  intros (Hf & Hd & Hn & c0 & c1 & Hc & H0 & Hmax).
  unfold FogColour.get_colour.
  set (s := FogColour.set_time (FogColour.set_time self _) _).
  assert (FogColour.factor s = 1 / q 6000 1 * q 14 1) as Hfs by done.
  assert (FogColour.day_color s = [q 6 10; q 7 10; q 7 10]) as Hds by done.
  assert (FogColour.night_colour s = [q 2 10; q 3 10; q 3 10]) as Hns by done.
  assert (FogColour.colour s = [c0; c1; c1]) as Hcs by done.
  rewrite Hf in Hmax. clearbody s.
  destruct (decide (0 <= FogColour.time s /\ FogColour.time s < q 6000 1)).
  { eexists. split; [reflexivity|]. repeat split; try done.
    exists (q 2 10), (q 3 10). cbn [FogColour.colour FogColour.set_colour
                                     FogColour.factor].
    rewrite Hfs. repeat split; qc_lra. }
  destruct (decide (q 6000 1 <= FogColour.time s /\
                    FogColour.time s < q 12000 1)).
  { rewrite Hcs, Hds. cbn [py_index length]. cbn [mbind result_bind].
    change (py_index [c0; c1; c1] 0) with (OK c0).
    change (py_index [q 6 10; q 7 10; q 7 10] 0) with (OK (q 6 10)).
    cbn [mbind result_bind].
    destruct (decide (c0 < q 6 10)) as [Hlt|Hge].
    - rewrite (FogColour_brighten_ok _ c0 c1 Hcs). cbn [mbind result_bind].
      eexists. split; [reflexivity|]. repeat split; try done.
      exists (c0 + FogColour.factor s), (c1 + FogColour.factor s).
      cbn [FogColour.colour FogColour.set_colour FogColour.factor].
      rewrite Hfs. repeat split; qc_lra.
    - cbn [mbind result_bind]. eexists. split; [reflexivity|].
      repeat split; try done. exists c0, c1. rewrite Hfs. by repeat split. }
  destruct (decide (q 12000 1 <= FogColour.time s /\
                    FogColour.time s < q 18000 1)).
  { eexists. split; [reflexivity|]. repeat split; try done.
    exists (q 6 10), (q 7 10). cbn [FogColour.colour FogColour.set_colour
                                     FogColour.factor].
    rewrite Hfs. repeat split; qc_lra. }
  rewrite Hcs, Hns.
  change (py_index [c0; c1; c1] 0) with (OK c0).
  change (py_index [q 2 10; q 3 10; q 3 10] 0) with (OK (q 2 10)).
  cbn [mbind result_bind].
  destruct (decide (q 2 10 < c0)) as [Hlt|Hge].
  - rewrite (FogColour_darken_ok _ c0 c1 Hcs). cbn [mbind result_bind].
    eexists. split; [reflexivity|]. repeat split; try done.
    exists (c0 - FogColour.factor s), (c1 - FogColour.factor s).
    cbn [FogColour.colour FogColour.set_colour FogColour.factor].
    rewrite Hfs. repeat split; qc_lra.
  - cbn [mbind result_bind]. eexists. split; [reflexivity|].
    repeat split; try done. exists c0, c1. rewrite Hfs. by repeat split.
Qed.

(** X25.  However often and at whatever clock readings
    [FogColour.get_colour] is called on a new [FogColour], it never raises
    and every colour it returns has three components: the first is never
    negative and stays below 0.61, and the second and the third, which
    undergo the same operations, are equal.  (The first component is only
    raised from below the day colour 0.6 and only lowered from above the
    night colour 0.2, by steps of 14/6000: both bounds hold with a margin
    of several thousandths.) *)
Theorem FogColour_colours_stay_in_range nows :
  exists colours self,
    FogColour.calls nows FogColour.init = OK (colours, self) /\
    length colours = length nows /\
    forall c, c ∈ colours ->
      exists c0 c1, c = [c0; c1; c1] /\ 0 <= c0 /\ c0 < q 61 100.
Proof.
  assert (forall self, FogColour.invariant self ->
            exists colours self',
              FogColour.calls nows self = OK (colours, self') /\
              length colours = length nows /\
              forall c, c ∈ colours ->
                exists c0 c1, c = [c0; c1; c1] /\ 0 <= c0 /\ c0 < q 61 100)
    as Hall; [|apply Hall, FogColour_init_invariant].
  induction nows as [|now rest IH]; intros self Hinv.
  { exists [], self. repeat split. intros c Hc. by apply elem_of_nil in Hc. }
  destruct (FogColour_get_colour_invariant now self Hinv)
    as (self1 & Hget & Hinv1).
  destruct (IH self1 Hinv1) as (colours & self2 & Hcalls & Hlen & Hcols).
  exists (FogColour.colour self1 :: colours), self2.
  cbn [FogColour.calls]. rewrite Hget. cbn [mbind result_bind fst snd].
  rewrite Hcalls. cbn [mbind result_bind fst snd].
  split; [done|]. split; [simpl; by rewrite Hlen|].
  intros c [->|Hc]%elem_of_cons; [|by apply Hcols].
  destruct Hinv1 as (Hf & _ & _ & c0 & c1 & Hc & H0 & Hmax).
  rewrite Hf in Hmax. exists c0, c1. repeat split; [done..|qc_lra].
Qed.
